(** * e-json: the encoder and the recursive-descent parser of [src/encoder.ts]

    A shallow embedding of the two classes of the library, [Encoder] and
    [Parser], and of the [decode] entry point, followed by the properties
    of the specification that concern them.

    Conventions of the embedding.
    - A JavaScript string is the list of its UTF-16 code units.
    - A number is kept as the decimal digits and the exponent from which
      [Number::toString] prints it.  The library does no arithmetic on
      numbers: it prints them, reads them with [parseFloat] and tests
      them with [isNaN]; the rounding of binary floating point is outside
      the model.
    - The parser's cursor is the pair of the unread suffix of the input and
      the offset [pos]; reading past the end yields the empty string, as
      [charAt] does.
    - Loops of the parser run on fuel; running out of fuel is a third
      outcome, distinct from a returned value and from a thrown error. *)

From Stdlib Require Import Ascii String.
From Stdlib Require Import List NArith ZArith Bool Lia.
Import ListNotations.

Open Scope N_scope.
Open Scope list_scope.

(** ** Strings *)

Definition code_unit := N.
Definition jsstring := list code_unit.

Definition ch (a : ascii) : code_unit := N_of_ascii a.

(** A literal, character for character. *)
Definition js (s : string) : jsstring := map ch (list_ascii_of_string s).

Definition c_quote : code_unit := 34.
Definition c_backslash : code_unit := 92.

(** A literal in which the apostrophe stands for the double quote, so that
    JSON texts can be written legibly. *)
Definition jq (s : string) : jsstring :=
  map (fun c => if c =? ch "'" then c_quote else c) (js s).

Fixpoint jsstring_eqb (a b : jsstring) : bool :=
  match a, b with
  | [], [] => true
  | x :: a', y :: b' => (x =? y) && jsstring_eqb a' b'
  | _, _ => false
  end.

Fixpoint starts_with (prefix s : jsstring) : bool :=
  match prefix, s with
  | [], _ => true
  | x :: p', y :: s' => (x =? y) && starts_with p' s'
  | _ :: _, [] => false
  end.

Fixpoint span (p : code_unit -> bool) (s : jsstring) : jsstring * jsstring :=
  match s with
  | c :: s' => if p c then let (a, b) := span p s' in (c :: a, b) else ([], s)
  | [] => ([], [])
  end.

Fixpoint drop_while (p : code_unit -> bool) (s : jsstring) : jsstring :=
  match s with
  | c :: s' => if p c then drop_while p s' else s
  | [] => []
  end.

(** The four characters that [Parser.consume] skips. *)
Definition is_blank (c : code_unit) : bool :=
  (c =? ch " ") || (c =? 9) || (c =? 10) || (c =? 13).

(** ECMAScript's WhiteSpace and LineTerminator: what the regular expression
    [\s] matches and what [parseInt], [parseFloat] and the conversion of a
    string to a number trim. *)
Definition is_StrWhiteSpaceChar (c : code_unit) : bool :=
  ((9 <=? c) && (c <=? 13)) || (c =? 32) || (c =? 160) || (c =? 5760)
  || ((8192 <=? c) && (c <=? 8202)) || (c =? 8232) || (c =? 8233)
  || (c =? 8239) || (c =? 8287) || (c =? 12288) || (c =? 65279).

Definition is_digit (c : code_unit) : bool := (ch "0" <=? c) && (c <=? ch "9").

Definition trim (s : jsstring) : jsstring :=
  rev (drop_while is_StrWhiteSpaceChar (rev (drop_while is_StrWhiteSpaceChar s))).

(** ** Numbers *)

(** [Finite neg ds n] is the number of sign [neg] and magnitude
    [0.d1 d2 ... dk * 10^n], with [ds] the decimal digits [d1 ... dk]: the
    integers [s] (of digits [ds]), [k] (their count) and [n] of
    [Number::toString].  Zero has no digit. *)
Inductive number :=
| NaN
| Infinity (negative : bool)
| Finite (negative : bool) (digits : list N) (n : Z).

Definition isNaN (x : number) : bool :=
  match x with NaN => true | _ => false end.

Fixpoint strip_zeros (ds : list N) : list N * nat :=
  match ds with
  | 0 :: ds' => let (r, k) := strip_zeros ds' in (r, S k)
  | _ => (ds, O)
  end.

(** The canonical form: no zero digit in front or at the end. *)
Definition normalize (neg : bool) (ds : list N) (n : Z) : number :=
  let (ds1, k) := strip_zeros ds in
  match rev (fst (strip_zeros (rev ds1))) with
  | [] => Finite neg [] 0
  | ds2 => Finite neg ds2 (n - Z.of_nat k)
  end.

Definition digit_char (d : N) : code_unit := ch "0" + d.
Definition digit_value (c : code_unit) : N := c - ch "0".

Fixpoint digits_of_N_aux (fuel : nat) (n : N) (acc : list N) : list N :=
  match fuel with
  | O => acc
  | S fuel' =>
      if n <? 10 then n :: acc
      else digits_of_N_aux fuel' (n / 10) (n mod 10 :: acc)
  end.

(** The decimal digits of a natural number, most significant first. *)
Definition digits_of_N (n : N) : list N :=
  digits_of_N_aux (S (N.to_nat (N.size n))) n [].

Definition N_of_digits (ds : list N) : N :=
  fold_left (fun acc d => 10 * acc + d) ds 0.

Definition number_of_N (neg : bool) (n : N) : number :=
  let ds := digits_of_N n in normalize neg ds (Z.of_nat (length ds)).

Definition number_of_Z (z : Z) : number :=
  number_of_N (z <? 0)%Z (Z.abs_N z).

(** [Number::toString], radix 10 (ECMAScript 6.1.6.1.20). *)
Definition Number_toString (x : number) : jsstring :=
  match x with
  | NaN => js "NaN"
  | Infinity neg => (if neg then js "-" else []) ++ js "Infinity"
  | Finite _ [] _ => js "0"
  | Finite neg (d :: ds') n =>
      let ds := d :: ds' in
      let k := Z.of_nat (length ds) in
      let body :=
        if ((k <=? n) && (n <=? 21))%Z then
          map digit_char ds ++ repeat (ch "0") (Z.to_nat (n - k))
        else if ((0 <? n) && (n <=? 21))%Z then
          map digit_char (firstn (Z.to_nat n) ds) ++ js "."
            ++ map digit_char (skipn (Z.to_nat n) ds)
        else if ((-6 <? n) && (n <=? 0))%Z then
          js "0." ++ repeat (ch "0") (Z.to_nat (- n)) ++ map digit_char ds
        else
          let e := (n - 1)%Z in
          let exponent :=
            js "e" ++ (if (e <? 0)%Z then js "-" else js "+")
              ++ map digit_char (digits_of_N (Z.abs_N e)) in
          match ds' with
          | [] => [digit_char d] ++ exponent
          | _ => [digit_char d] ++ js "." ++ map digit_char ds' ++ exponent
          end
      in (if neg then js "-" else []) ++ body
  end.

(** An ExponentPart at the front of [s]: its value and what follows it;
    the value 0 and [s] itself when there is none. *)
Definition read_exponent_part (s : jsstring) : Z * jsstring :=
  match s with
  | c :: r =>
      if (c =? ch "e") || (c =? ch "E") then
        let '(eneg, r0) :=
          match r with
          | c' :: r' => if c' =? ch "-" then (true, r')
                        else if c' =? ch "+" then (false, r')
                        else (false, r)
          | [] => (false, r)
          end in
        match span is_digit r0 with
        | ([], _) => (0%Z, s)
        | (es, r1) =>
            let v := Z.of_N (N_of_digits (map digit_value es)) in
            ((if eneg then - v else v)%Z, r1)
        end
      else (0%Z, s)
  | [] => (0%Z, s)
  end.

(** The longest StrUnsignedDecimalLiteral at the front of [s], read as a
    number of sign [neg], and what follows it. *)
Definition read_unsigned_decimal (neg : bool) (s : jsstring)
  : option (number * jsstring) :=
  if starts_with (js "Infinity") s then Some (Infinity neg, skipn 8 s)
  else
    let (ip, s1) := span is_digit s in
    let (fp, s2) :=
      match s1 with
      | c :: r => if c =? ch "." then span is_digit r else ([], s1)
      | [] => ([], s1)
      end in
    match ip ++ fp with
    | [] => None
    | ds =>
        let (e, s3) := read_exponent_part s2 in
        Some (normalize neg (map digit_value ds) (Z.of_nat (length ip) + e), s3)
    end.

(** The longest prefix of [s] that is a StrDecimalLiteral, as a number,
    with what follows it; [NaN] when no prefix is one. *)
Definition read_decimal (s : jsstring) : number * jsstring :=
  let '(neg, s0) :=
    match s with
    | c :: r => if c =? ch "-" then (true, r)
                else if c =? ch "+" then (false, r) else (false, s)
    | [] => (false, s)
    end in
  match read_unsigned_decimal neg s0 with
  | Some r => r
  | None => (NaN, s)
  end.

(** The global [parseFloat], on decimal values held exactly.  The engine
    rounds the value read to the nearest double, to [Infinity] beyond the
    largest one; this definition does not round.  The two agree on a text
    whose value is a double written with the digits that [Number::toString]
    prints for it; for any other text [parseFloat s] only names the number
    that the engine reads, and no statement below rests on its digits. *)
Definition parseFloat (s : jsstring) : number :=
  fst (read_decimal (drop_while is_StrWhiteSpaceChar s)).

Definition is_hex_digit (c : code_unit) : bool :=
  is_digit c || ((ch "a" <=? c) && (c <=? ch "f"))
  || ((ch "A" <=? c) && (c <=? ch "F")).

Definition hex_value (c : code_unit) : N :=
  if is_digit c then c - ch "0"
  else if ch "a" <=? c then c - ch "a" + 10 else c - ch "A" + 10.

Definition N_of_radix_digits (radix : N) (ds : list N) : N :=
  fold_left (fun acc d => radix * acc + d) ds 0.

(** A NonDecimalIntegerLiteral: [0x], [0o] or [0b] and digits of that
    radix; a string that is not one yields [None]. *)
Definition read_non_decimal (s : jsstring) : option number :=
  match s with
  | z :: p :: ds =>
      if z =? ch "0" then
        let lit (radix : N) (ok : code_unit -> bool) :=
          match ds with
          | [] => Some NaN
          | _ => if forallb ok ds
                 then Some (number_of_N false
                              (N_of_radix_digits radix (map hex_value ds)))
                 else Some NaN
          end in
        if (p =? ch "x") || (p =? ch "X") then lit 16 is_hex_digit
        else if (p =? ch "o") || (p =? ch "O")
        then lit 8 (fun c => (ch "0" <=? c) && (c <=? ch "7"))
        else if (p =? ch "b") || (p =? ch "B")
        then lit 2 (fun c => (ch "0" <=? c) && (c <=? ch "1"))
        else None
      else None
  | _ => None
  end.

(** The conversion of a string to a number (StringToNumber), which unary
    plus applies to a string. *)
Definition StringToNumber (s : jsstring) : number :=
  match trim s with
  | [] => Finite false [] 0
  | t =>
      match read_non_decimal t with
      | Some x => x
      | None =>
          match read_decimal t with
          | (x, []) => x
          | (_, _ :: _) => NaN
          end
      end
  end.

(** ** Values handed to the encoder *)

(** What [encode] can be given.  An object carries the text that the
    [toString] it inherits yields ([[object Object]] unless its class
    overrides it) and its own enumerable properties as [Object.entries]
    lists them; a date carries its time value and the text of its
    [toString()]; a callable carries the text of its [toString()] (its
    source text, unless overridden) and its body, a computation of a value
    from no argument, which returns.

    The objects and callables of the model are those that inherit
    [valueOf] from [Object.prototype], which yields the object itself: the
    wrappers of numbers, strings and booleans, objects without prototype,
    values that contain themselves and callables that throw are not among
    them.  An own property named [toString] or [valueOf] may be listed in
    [entries], but the conversions below do not consult it: they are those
    of the engine for the values that [inherits_conversions] admits, and
    the statements about objects are made for these. *)
Unset Elimination Schemes.
Inductive JsValue :=
| JNull
| JUndefined
| JNumber (x : number)
| JString (s : jsstring)
| JBoolean (b : bool)
| JArray (values : list JsValue)
| JObject (text : jsstring) (entries : list (jsstring * JsValue))
| JDate (time : number) (text : jsstring)
| JFunction (text : jsstring) (call : unit -> JsValue).
Set Elimination Schemes.

Definition object_Object : jsstring := js "[object Object]".

(** An object literal: the [toString] it inherits is the one of
    [Object.prototype].  This is the [toString] that the engine calls as
    long as no entry is named [toString]. *)
Definition plain (entries : list (jsstring * JsValue)) : JsValue :=
  JObject object_Object entries.

Inductive JsType :=
| TUndefined | TObject | TBoolean | TNumber | TString | TFunction.

Definition typeof (v : JsValue) : JsType :=
  match v with
  | JUndefined => TUndefined
  | JNull | JArray _ | JObject _ _ | JDate _ _ => TObject
  | JBoolean _ => TBoolean
  | JNumber _ => TNumber
  | JString _ => TString
  | JFunction _ _ => TFunction
  end.

Definition is_function (v : JsValue) : bool :=
  match typeof v with TFunction => true | _ => false end.

Definition Array_isArray (v : JsValue) : bool :=
  match v with JArray _ => true | _ => false end.

Definition Boolean_toString (b : bool) : jsstring :=
  if b then js "true" else js "false".

(** The conversion to a string that [+=] and template literals apply.
    An object, a date or a callable is converted through its [toString],
    the inherited one: this is what the engine does when the value has no
    own property [toString] or [valueOf]. *)
Fixpoint ToString (v : JsValue) : jsstring :=
  match v with
  | JNull => js "null"
  | JUndefined => js "undefined"
  | JNumber x => Number_toString x
  | JString s => s
  | JBoolean b => Boolean_toString b
  | JArray values =>
      (fix join (vs : list JsValue) : jsstring :=
         match vs with
         | [] => []
         | v :: vs' =>
             (match v with JNull | JUndefined => [] | _ => ToString v end)
               ++ (match vs' with [] => [] | _ => js "," ++ join vs' end)
         end) values
  | JObject text _ => text
  | JDate _ text => text
  | JFunction text _ => text
  end.

(** The conversion to a number that unary plus applies.  On an object or
    a callable the engine tries [valueOf], which for the values of the
    model yields the object itself, and then [toString], whose text it
    converts; with an own property [valueOf] or [toString] the engine may
    yield another number or throw a [TypeError], which this definition does
    not follow (see [inherits_conversions]). *)
Definition ToNumber (v : JsValue) : number :=
  match v with
  | JNull => Finite false [] 0
  | JUndefined => NaN
  | JNumber x => x
  | JString s => StringToNumber s
  | JBoolean b => if b then Finite false [1] 1 else Finite false [] 0
  | JDate time _ => time
  | JArray _ | JObject _ _ | JFunction _ _ => StringToNumber (ToString v)
  end.

(** ** Outcomes *)

Inductive result (E A : Type) :=
| Ok (a : A)
| Err (e : E).
Arguments Ok {E A} a.
Arguments Err {E A} e.

Definition map_ok {E A B} (f : A -> B) (r : result E A) : result E B :=
  match r with Ok a => Ok (f a) | Err e => Err e end.

(** ** The encoder *)

(** The two errors of the encoder: [InvalidInput] is thrown with the message
    [Invalid Json, json should start with [] or {}], [UnexpectedValue v]
    with [Unexpected value: v]. *)
Inductive EncodeError :=
| InvalidInput
| UnexpectedValue (value : JsValue).

Definition withDoubleQuotes (value : jsstring) : jsstring :=
  [c_quote] ++ value ++ [c_quote].

Section Encoder.

(** The methods below call [encodeValue], which calls them. *)
Variable encodeValue : JsValue -> result EncodeError JsValue.

Definition encodeFunction (val : unit -> JsValue) : result EncodeError JsValue :=
  let result := val tt in
  encodeValue result.

(** The [for] loop of [encodeArray]: [len] is [values.length], [rest] the
    elements still to visit, [arr] and [i] the two local variables. *)
Fixpoint encodeArray_loop (len : Z) (rest : list JsValue)
         (arr : jsstring) (i : Z) : result EncodeError jsstring :=
  match rest with
  | [] => Ok arr
  | value :: rest' =>
      match encodeValue value with
      | Err e => Err e
      | Ok val =>
          if is_function val then encodeArray_loop len rest' arr i
          else
            let arr := arr ++ ToString val in
            let i := (i + 1)%Z in
            if (i <=? len - 1)%Z
            then encodeArray_loop len rest' (arr ++ js ",") i
            else encodeArray_loop len rest' (arr ++ js "]") i
      end
  end.

Definition encodeArray (values : list JsValue) : result EncodeError jsstring :=
  encodeArray_loop (Z.of_nat (length values)) values (js "[") 0%Z.

(** The [for] loop of [encodeObject].  When the encoded value is a
    function the source writes it to the console before skipping the
    entry; the console is not part of the model. *)
Fixpoint encodeObject_loop (len : Z) (rest : list (jsstring * JsValue))
         (obj : jsstring) (i : Z) : result EncodeError jsstring :=
  match rest with
  | [] => Ok obj
  | (key, value) :: rest' =>
      match encodeValue value with
      | Err e => Err e
      | Ok val =>
          if is_function val then encodeObject_loop len rest' obj i
          else
            let pair := [c_quote] ++ key ++ [c_quote] ++ js ":" ++ ToString val in
            let obj := obj ++ pair in
            let i := (i + 1)%Z in
            if (i <=? len - 1)%Z
            then encodeObject_loop len rest' (obj ++ js ",") i
            else encodeObject_loop len rest' (obj ++ js "}") i
      end
  end.

(** Every object of the model has a [toString] (its own or the inherited
    one), so the test ['toString' in value] holds. *)
Definition encodeObject (text : jsstring) (entries : list (jsstring * JsValue))
  : result EncodeError jsstring :=
  if negb (jsstring_eqb text object_Object) then Ok (withDoubleQuotes text)
  else encodeObject_loop (Z.of_nat (length entries)) entries (js "{") 0%Z.

End Encoder.

Fixpoint encodeValue (value : JsValue) : result EncodeError JsValue :=
  match value with
  | JArray values => map_ok JString (encodeArray encodeValue values)
  | JNull | JUndefined => Ok (JString (js "null"))
  | JDate _ text => Ok (JString (withDoubleQuotes text))
  | _ =>
      if negb (isNaN (ToNumber value)) then Ok value
      else
        match value with
        | JString s => Ok (JString ([c_quote] ++ s ++ [c_quote]))
        | JObject text entries =>
            map_ok JString (encodeObject encodeValue text entries)
        | JBoolean b =>
            Ok (JString ([c_quote] ++ Boolean_toString b ++ [c_quote]))
        | JFunction _ call => encodeFunction encodeValue call
        | _ => Err (UnexpectedValue value)
        end
  end.

Definition encode (input : JsValue) : result EncodeError JsValue :=
  if negb (Array_isArray input) && negb (match typeof input with TObject => true | _ => false end)
  then Err InvalidInput
  else encodeValue input.

(** ** Decoded values *)

(** [type JsonValue = string | number | boolean | null | JsonObject |
    JsonArray].  An object is the list of its own properties in the order
    in which [Object.entries] enumerates them. *)
Unset Elimination Schemes.
Inductive JsonValue :=
| JsonString (s : jsstring)
| JsonNumber (x : number)
| JsonBoolean (b : bool)
| JsonNull
| JsonObject (properties : list (jsstring * JsonValue))
| JsonArray (elements : list JsonValue).
Set Elimination Schemes.

Definition properties_of := list (jsstring * JsonValue).

(** An array index: the canonical decimal form of an integer from 0 to
    2^32 - 2.  Properties with such keys are enumerated first, in ascending
    order; the others follow in the order of their creation. *)
Definition array_index (key : jsstring) : option N :=
  match key with
  | [] => None
  | c :: r =>
      if forallb is_digit key
         && (negb (c =? ch "0") || match r with [] => true | _ => false end)
      then
        let v := N_of_digits (map digit_value key) in
        if v <=? 4294967294 then Some v else None
      else None
  end.

Fixpoint lookup (key : jsstring) (obj : properties_of) : option JsonValue :=
  match obj with
  | [] => None
  | (k, v) :: obj' => if jsstring_eqb k key then Some v else lookup key obj'
  end.

Fixpoint replace_property (key : jsstring) (value : JsonValue)
         (obj : properties_of) : properties_of :=
  match obj with
  | [] => []
  | (k, v) :: obj' =>
      if jsstring_eqb k key then (k, value) :: obj'
      else (k, v) :: replace_property key value obj'
  end.

Fixpoint insert_index (i : N) (key : jsstring) (value : JsonValue)
         (obj : properties_of) : properties_of :=
  match obj with
  | [] => [(key, value)]
  | (k, v) :: obj' =>
      match array_index k with
      | Some j => if j <? i then (k, v) :: insert_index i key value obj'
                  else (key, value) :: obj
      | None => (key, value) :: obj
      end
  end.

(** The assignment [obj[key] = value] on an object created by [{}], as
    far as the own properties go.  A present key keeps its place and takes
    the new value; a new key is added.  The key [__proto__] names the
    accessor of [Object.prototype]: assigning a number, a string or a
    boolean to it does nothing.  Assigning an object, an array or [null]
    replaces the prototype of [obj], which the list of own properties does
    not show, and once the prototype is [null] a later [__proto__] is an
    own property like any other, which this definition does not follow:
    the statements below about a member [__proto__] are made for values
    that are numbers or strings. *)
Definition assign (key : jsstring) (value : JsonValue) (obj : properties_of)
  : properties_of :=
  if jsstring_eqb key (js "__proto__") then obj
  else
    match lookup key obj with
    | Some _ => replace_property key value obj
    | None =>
        match array_index key with
        | Some i => insert_index i key value obj
        | None => obj ++ [(key, value)]
        end
    end.

(** ** The parser *)

(** The errors of the parser, each named after the message it is thrown
    with and carrying the offset the message reports:
    [Unexpected token at position p-c] (input left after the value),
    [Invalid JSON value at position p], [Invalid object at position p],
    [Invalid array at position p], [Invalid JSON number at position p],
    [Invalid Unicode escape sequence at position p],
    [Invalid escape sequence at position p] and
    [Expected c at position p]. *)
Inductive ParseError :=
| UnexpectedToken (pos : nat) (token : option code_unit)
| InvalidJsonValue (pos : nat)
| InvalidObject (pos : nat)
| InvalidArray (pos : nat)
| InvalidNumber (pos : nat)
| InvalidUnicodeEscape (pos : nat)
| InvalidEscape (pos : nat)
| ExpectedCharacter (expected : code_unit) (pos : nat).

(** The state of a [Parser]: [rest] is [input.substr(pos)]. *)
Record Cursor := { rest : jsstring; pos : nat }.

Inductive outcome (A : Type) :=
| Return (a : A) (c : Cursor)
| Throw (e : ParseError)
| OutOfFuel.
Arguments Return {A} a c.
Arguments Throw {A} e.
Arguments OutOfFuel {A}.

(** A method of the parser: a computation on the cursor that returns,
    throws or runs out of fuel. *)
Definition Parser (A : Type) := Cursor -> outcome A.

Definition ret {A} (a : A) : Parser A := fun c => Return a c.

Definition bind {A B} (m : Parser A) (k : A -> Parser B) : Parser B :=
  fun c =>
    match m c with
    | Return a c' => k a c'
    | Throw e => Throw e
    | OutOfFuel => OutOfFuel
    end.

(** [throw new Error(... at position ${this.pos})]. *)
Definition throw {A} (e : nat -> ParseError) : Parser A :=
  fun c => Throw (e (pos c)).

Definition out_of_fuel {A} : Parser A := fun _ => OutOfFuel.

Notation "x <- m ;; k" := (bind m (fun x => k))
  (at level 61, m at next level, right associativity).
Notation "m ;;; k" := (bind m (fun _ => k))
  (at level 61, right associativity).

(** [this.input.charAt(this.pos)]: [None] stands for the empty string that
    [charAt] yields at and past the end of the input. *)
Definition currentToken : Parser (option code_unit) :=
  fun c => Return (hd_error (rest c)) c.

(** [this.pos += k]. *)
Definition advance (k : nat) : Parser unit :=
  fun c => Return tt {| rest := skipn k (rest c); pos := pos c + k |}.

Definition tok_is (tok : option code_unit) (c : code_unit) : bool :=
  match tok with Some x => x =? c | None => false end.

(** The string [tok], to be appended to a string under construction. *)
Definition chars (tok : option code_unit) : jsstring :=
  match tok with Some x => [x] | None => [] end.

(** [lo <= tok && tok <= hi] on strings of at most one character. *)
Definition between (lo hi : code_unit) (tok : option code_unit) : bool :=
  match tok with Some x => (lo <=? x) && (x <=? hi) | None => false end.

(** The loop that ends [consume]: [this.pos++] while the current character
    is one of the four blanks. *)
Fixpoint skip_blanks (r : jsstring) (p : nat) : Cursor :=
  match r with
  | x :: r' => if is_blank x then skip_blanks r' (S p)
               else {| rest := r; pos := p |}
  | [] => {| rest := []; pos := p |}
  end.

(** [consume(expected?)]; every call of the source that passes an argument
    passes one character. *)
Definition consume (expected : option code_unit) : Parser unit :=
  fun c =>
    match expected with
    | Some e =>
        if negb (tok_is (hd_error (rest c)) e) then Throw (ExpectedCharacter e (pos c))
        else Return tt (skip_blanks (tl (rest c)) (S (pos c)))
    | None => Return tt (skip_blanks (tl (rest c)) (S (pos c)))
    end.

Definition test_space (tok : option code_unit) : bool :=
  match tok with Some x => is_StrWhiteSpaceChar x | None => false end.

Fixpoint consumeWhitespace (fuel : nat) : Parser unit :=
  match fuel with
  | O => out_of_fuel
  | S fuel' =>
      tok <- currentToken ;;
      if test_space tok then consume None ;;; consumeWhitespace fuel'
      else ret tt
  end.

Definition hasNext (fuel : nat) : Parser bool :=
  consumeWhitespace fuel ;;;
  tok <- currentToken ;;
  ret (match tok with Some _ => true | None => false end).

(** [parseInt(s, 16)]; [None] stands for [NaN]. *)
Definition parseInt16 (s : jsstring) : option Z :=
  let s0 := drop_while is_StrWhiteSpaceChar s in
  let '(neg, s1) :=
    match s0 with
    | c :: r => if c =? ch "-" then (true, r)
                else if c =? ch "+" then (false, r) else (false, s0)
    | [] => (false, s0)
    end in
  let s2 :=
    match s1 with
    | z :: x :: r =>
        if (z =? ch "0") && ((x =? ch "x") || (x =? ch "X")) then r else s1
    | _ => s1
    end in
  match fst (span is_hex_digit s2) with
  | [] => None
  | ds =>
      let v := Z.of_N (N_of_radix_digits 16 (map hex_value ds)) in
      Some (if neg then - v else v)%Z
  end.

(** [String.fromCharCode(code)]: the code unit [code] modulo 2^16. *)
Definition String_fromCharCode (code : Z) : jsstring :=
  [Z.to_N (code mod 65536)].

Definition parseEscape : Parser jsstring :=
  consume (Some c_backslash) ;;;
  tok <- currentToken ;;
  if tok_is tok c_quote || tok_is tok c_backslash || tok_is tok (ch "/") then
    let c := chars tok in consume None ;;; ret c
  else if tok_is tok (ch "b") then consume None ;;; ret [8]
  else if tok_is tok (ch "f") then consume None ;;; ret [12]
  else if tok_is tok (ch "n") then consume None ;;; ret [10]
  else if tok_is tok (ch "r") then consume None ;;; ret [13]
  else if tok_is tok (ch "t") then consume None ;;; ret [9]
  else if tok_is tok (ch "u") then
    consume None ;;;
    fun c =>
      match parseInt16 (firstn 4 (rest c)) with
      | None => Throw (InvalidUnicodeEscape (pos c))
      | Some code => (advance 4 ;;; ret (String_fromCharCode code)) c
      end
  else throw InvalidEscape.

(** The [while] loop of [parseString]; [str] is the local variable. *)
Fixpoint parseString_loop (fuel : nat) (str : jsstring) : Parser jsstring :=
  match fuel with
  | O => out_of_fuel
  | S fuel' =>
      tok <- currentToken ;;
      if negb (tok_is tok c_quote) then
        if tok_is tok c_backslash then
          e <- parseEscape ;; parseString_loop fuel' (str ++ e)
        else
          advance 1 ;;; parseString_loop fuel' (str ++ chars tok)
      else ret str
  end.

Definition parseString (fuel : nat) : Parser jsstring :=
  consume (Some c_quote) ;;;
  str <- parseString_loop fuel [] ;;
  consume (Some c_quote) ;;;
  ret str.

(** The inner [while] loop of [parseDigits]. *)
Fixpoint parseDigits_loop (fuel : nat) (str : jsstring) : Parser jsstring :=
  match fuel with
  | O => out_of_fuel
  | S fuel' =>
      tok <- currentToken ;;
      if between (ch "0") (ch "9") tok then
        consume None ;;; parseDigits_loop fuel' (str ++ chars tok)
      else ret str
  end.

Definition parseDigits (fuel : nat) : Parser jsstring :=
  tok <- currentToken ;;
  if tok_is tok (ch "0") then consume None ;;; ret (chars tok)
  else if between (ch "1") (ch "9") tok then
    consume None ;;; parseDigits_loop fuel (chars tok)
  else throw InvalidNumber.

Definition parseNumber (fuel : nat) : Parser number :=
  tok <- currentToken ;;
  str <- (if tok_is tok (ch "-") then consume (Some (ch "-")) ;;; ret (js "-")
          else ret []) ;;
  ds <- parseDigits fuel ;;
  let str := str ++ ds in
  tok <- currentToken ;;
  str <- (if tok_is tok (ch ".") then
            consume (Some (ch ".")) ;;;
            ds <- parseDigits fuel ;;
            ret (str ++ js "." ++ ds)
          else ret str) ;;
  tok <- currentToken ;;
  str <- (if tok_is tok (ch "e") || tok_is tok (ch "E") then
            let str := str ++ chars tok in
            consume None ;;;
            tok <- currentToken ;;
            str <- (if tok_is tok (ch "+") || tok_is tok (ch "-") then
                      consume None ;;; ret (str ++ chars tok)
                    else ret str) ;;
            ds <- parseDigits fuel ;;
            ret (str ++ ds)
          else ret str) ;;
  ret (parseFloat str).

Definition parseTrue : Parser bool :=
  consume (Some (ch "t")) ;;; consume (Some (ch "r")) ;;;
  consume (Some (ch "u")) ;;; consume (Some (ch "e")) ;;; ret true.

Definition parseFalse : Parser bool :=
  consume (Some (ch "f")) ;;; consume (Some (ch "a")) ;;;
  consume (Some (ch "l")) ;;; consume (Some (ch "s")) ;;;
  consume (Some (ch "e")) ;;; ret false.

Definition parseNull : Parser unit :=
  consume (Some (ch "n")) ;;; consume (Some (ch "u")) ;;;
  consume (Some (ch "l")) ;;; consume (Some (ch "l")) ;;; ret tt.

Section Descent.

(** The recursive call of [parseValue]. *)
Variable parseValue : Parser JsonValue.

Definition parsePair (fuel : nat) : Parser (jsstring * JsonValue) :=
  key <- parseString fuel ;;
  consume (Some (ch ":")) ;;;
  value <- parseValue ;;
  ret (key, value).

(** The [while] loop of [parseObject]; [obj] is the object under
    construction. *)
Fixpoint parseObject_loop (fuel : nat) (obj : properties_of)
  : Parser properties_of :=
  match fuel with
  | O => out_of_fuel
  | S fuel' =>
      tok <- currentToken ;;
      if negb (tok_is tok (ch "}")) then
        kv <- parsePair fuel' ;;
        let obj := assign (fst kv) (snd kv) obj in
        tok <- currentToken ;;
        if tok_is tok (ch ",") then
          consume (Some (ch ",")) ;;; parseObject_loop fuel' obj
        else if negb (tok_is tok (ch "}")) then throw InvalidObject
        else parseObject_loop fuel' obj
      else ret obj
  end.

Definition parseObject (fuel : nat) : Parser JsonValue :=
  consume (Some (ch "{")) ;;;
  obj <- parseObject_loop fuel [] ;;
  consume (Some (ch "}")) ;;;
  ret (JsonObject obj).

(** The [while] loop of [parseArray]; [arr] is the array under
    construction. *)
Fixpoint parseArray_loop (fuel : nat) (arr : list JsonValue)
  : Parser (list JsonValue) :=
  match fuel with
  | O => out_of_fuel
  | S fuel' =>
      tok <- currentToken ;;
      if negb (tok_is tok (ch "]")) then
        value <- parseValue ;;
        let arr := arr ++ [value] in
        tok <- currentToken ;;
        if tok_is tok (ch ",") then
          consume (Some (ch ",")) ;;; parseArray_loop fuel' arr
        else if negb (tok_is tok (ch "]")) then throw InvalidArray
        else parseArray_loop fuel' arr
      else ret arr
  end.

Definition parseArray (fuel : nat) : Parser JsonValue :=
  consume (Some (ch "[")) ;;;
  arr <- parseArray_loop fuel [] ;;
  consume (Some (ch "]")) ;;;
  ret (JsonArray arr).

End Descent.

Fixpoint parseValue (fuel : nat) : Parser JsonValue :=
  match fuel with
  | O => out_of_fuel
  | S fuel' =>
      tok <- currentToken ;;
      if tok_is tok (ch "{") then parseObject (parseValue fuel') fuel'
      else if tok_is tok (ch "[") then parseArray (parseValue fuel') fuel'
      else if tok_is tok c_quote then s <- parseString fuel' ;; ret (JsonString s)
      else if tok_is tok (ch "-") || between (ch "0") (ch "9") tok then
        x <- parseNumber fuel' ;; ret (JsonNumber x)
      else if tok_is tok (ch "t") then b <- parseTrue ;; ret (JsonBoolean b)
      else if tok_is tok (ch "f") then b <- parseFalse ;; ret (JsonBoolean b)
      else if tok_is tok (ch "n") then parseNull ;;; ret JsonNull
      else throw InvalidJsonValue
  end.

Definition parse (fuel : nat) : Parser JsonValue :=
  consumeWhitespace fuel ;;;
  result <- parseValue fuel ;;
  consumeWhitespace fuel ;;;
  more <- hasNext fuel ;;
  if more then
    tok <- currentToken ;; throw (fun p => UnexpectedToken p tok)
  else ret result.

(** [decode(json)]: a fresh parser on [json], run with [fuel]; [None] when
    the fuel does not suffice. *)
Definition decode (fuel : nat) (json : jsstring)
  : option (result ParseError JsonValue) :=
  match parse fuel {| rest := json; pos := 0 |} with
  | Return v _ => Some (Ok v)
  | Throw e => Some (Err e)
  | OutOfFuel => None
  end.

(** [decode(json)] ends with [r]. *)
Definition decodes (json : jsstring) (r : result ParseError JsonValue) : Prop :=
  exists n, forall fuel, (n <= fuel)%nat -> decode fuel json = Some r.

(** [decode(json)] neither returns nor throws. *)
Definition diverges (json : jsstring) : Prop :=
  forall fuel, decode fuel json = None.

(** ** The members of an object literal *)

(** The object that the assignments of [members], in order, build from
    [obj]. *)
Definition assign_all (members : list (jsstring * JsonValue))
           (obj : properties_of) : properties_of :=
  fold_left (fun o kv => assign (fst kv) (snd kv) o) members obj.


(** ** Notation for examples *)

(** The number [z], as an element to encode and as a decoded value. *)
Definition num (z : Z) : JsValue := JNumber (number_of_Z z).
Definition jnum (z : Z) : JsonValue := JsonNumber (number_of_Z z).

(** ** Characters of a string literal *)

(** A character that is neither the double quote nor the backslash: one
    that [parseString] copies. *)
Definition ordinary (c : code_unit) : bool :=
  negb (c =? c_quote) && negb (c =? c_backslash).

(** The text does not begin with one of the four blanks. *)
Definition starts_plain (r : jsstring) : bool :=
  match r with [] => true | x :: _ => negb (is_blank x) end.

(** The escapes of one character and the code unit each stands for. *)
Definition simple_escape (e : code_unit) : option code_unit :=
  if (e =? c_quote) || (e =? c_backslash) || (e =? ch "/") then Some e
  else if e =? ch "b" then Some 8
  else if e =? ch "f" then Some 12
  else if e =? ch "n" then Some 10
  else if e =? ch "r" then Some 13
  else if e =? ch "t" then Some 9
  else None.

(** ** The round trip: which values, which texts, which results *)

(** A decoded value, as a value handed to the encoder. *)
Fixpoint inject (v : JsonValue) : JsValue :=
  match v with
  | JsonString s => JString s
  | JsonNumber x => JNumber x
  | JsonBoolean b => JBoolean b
  | JsonNull => JNull
  | JsonObject properties =>
      plain (map (fun kv => (fst kv, inject (snd kv))) properties)
  | JsonArray elements => JArray (map inject elements)
  end.

Fixpoint join_with (sep : jsstring) (texts : list jsstring) : jsstring :=
  match texts with
  | [] => []
  | t :: ts => t ++ match ts with [] => [] | _ => sep ++ join_with sep ts end
  end.

(** The text expected of the encoder: a number as [Number::toString]
    prints it, a boolean and a string that reads as a number bare, any
    other string between quotes as it is, the elements of a container
    separated by commas. *)
Fixpoint json_text (v : JsonValue) : jsstring :=
  match v with
  | JsonString s =>
      if isNaN (StringToNumber s) then [c_quote] ++ s ++ [c_quote] else s
  | JsonNumber x => Number_toString x
  | JsonBoolean b => Boolean_toString b
  | JsonNull => js "null"
  | JsonObject properties =>
      js "{"
        ++ join_with (js ",")
             (map (fun kv => [c_quote] ++ fst kv ++ [c_quote] ++ js ":"
                               ++ json_text (snd kv)) properties)
        ++ js "}"
  | JsonArray elements =>
      js "[" ++ join_with (js ",") (map json_text elements) ++ js "]"
  end.

(** What comes back: a string that reads as a number comes back as that
    number, negative zero as zero, the rest as it was. *)
Fixpoint lossy (v : JsonValue) : JsonValue :=
  match v with
  | JsonString s =>
      if isNaN (StringToNumber s) then JsonString s else JsonNumber (parseFloat s)
  | JsonNumber (Finite _ [] _) => JsonNumber (Finite false [] 0)
  | JsonNumber x => JsonNumber x
  | JsonBoolean b => JsonBoolean b
  | JsonNull => JsonNull
  | JsonObject properties =>
      JsonObject (map (fun kv => (fst kv, lossy (snd kv))) properties)
  | JsonArray elements => JsonArray (map lossy elements)
  end.

(** The digits rule of [parseDigits] as a grammar: a lone [0], or a digit
    from 1 to 9 followed by any digits; the lexeme and what follows it. *)
Definition read_digits (s : jsstring) : option (jsstring * jsstring) :=
  match s with
  | c :: r =>
      if c =? ch "0" then Some ([c], r)
      else if (ch "1" <=? c) && (c <=? ch "9")
           then let (ds, r') := span is_digit r in Some (c :: ds, r')
           else None
  | [] => None
  end.

(** The grammar of numbers that [parseNumber] follows, part by part: each
    function yields the lexeme at the front of [s] and what follows it. *)
Definition read_sign (s : jsstring) : jsstring * jsstring :=
  match s with
  | c :: r => if c =? ch "-" then ([c], r) else ([], s)
  | [] => ([], s)
  end.

Definition read_fraction (s : jsstring) : option (jsstring * jsstring) :=
  match s with
  | c :: r =>
      if c =? ch "." then
        match read_digits r with
        | Some (fp, s') => Some (c :: fp, s')
        | None => None
        end
      else Some ([], s)
  | [] => Some ([], s)
  end.

Definition read_exponent (s : jsstring) : option (jsstring * jsstring) :=
  match s with
  | c :: r =>
      if (c =? ch "e") || (c =? ch "E") then
        let (esign, r1) :=
          match r with
          | c' :: r' =>
              if (c' =? ch "+") || (c' =? ch "-") then ([c'], r') else ([], r)
          | [] => ([], r)
          end in
        match read_digits r1 with
        | Some (ed, s') => Some (c :: esign ++ ed, s')
        | None => None
        end
      else Some ([], s)
  | [] => Some ([], s)
  end.

Definition read_number (s : jsstring) : option (jsstring * jsstring) :=
  let (sign, s1) := read_sign s in
  match read_digits s1 with
  | None => None
  | Some (ip, s2) =>
      match read_fraction s2 with
      | None => None
      | Some (fr, s3) =>
          match read_exponent s3 with
          | None => None
          | Some (ep, s4) => Some (sign ++ ip ++ fr ++ ep, s4)
          end
      end
  end.

(** The whole of [s] is one number of that grammar. *)
Definition is_json_number (s : jsstring) : bool :=
  match read_number s with
  | Some (_, []) => true
  | _ => false
  end.

(** A number in canonical form: digits from 0 to 9, the first and the last
    not 0; zero has exponent 0. *)
Definition wf_number (x : number) : bool :=
  match x with
  | Finite _ [] n => (n =? 0)%Z
  | Finite _ (d :: ds) _ =>
      forallb (fun d => d <=? 9) (d :: ds)
      && negb (d =? 0) && negb (last (d :: ds) 1 =? 0)
  | _ => true
  end.

(** A string that the encoder writes between quotes and the parser reads
    back whole: no double quote, no backslash, no blank in front. *)
Definition clean (s : jsstring) : bool :=
  forallb ordinary s && starts_plain s.

(** [k0] is enumerated before [k] when both are properties of one object
    and [k0] was created first: array indices in ascending order, then the
    other keys. *)
Definition precedes (k0 k : jsstring) : bool :=
  match array_index k0, array_index k with
  | Some i, Some j => i <? j
  | Some _, None => true
  | None, Some _ => false
  | None, None => negb (jsstring_eqb k0 k)
  end.

(** The keys of an object, as [Object.entries] lists them: distinct and in
    the order of enumeration. *)
Fixpoint enumeration_order (keys : list jsstring) : bool :=
  match keys with
  | [] => true
  | k :: keys' => forallb (precedes k) keys' && enumeration_order keys'
  end.

(** The values for which the round trip is claimed: [null], the numbers
    whose printed form follows the grammar of the parser, the strings that
    are clean or are such a number, and the containers, not empty, built
    from them.  Booleans and empty containers are left out. *)
Fixpoint roundtrips (v : JsonValue) : bool :=
  match v with
  | JsonString s =>
      if isNaN (StringToNumber s) then clean s else is_json_number s
  | JsonNumber x => wf_number x && is_json_number (Number_toString x)
  | JsonBoolean _ => false
  | JsonNull => true
  | JsonObject properties =>
      negb (match properties with [] => true | _ => false end)
      && forallb (fun kv => clean (fst kv)
                            && negb (jsstring_eqb (fst kv) (js "__proto__"))
                            && roundtrips (snd kv)) properties
      && enumeration_order (map fst properties)
  | JsonArray elements =>
      negb (match elements with [] => true | _ => false end)
      && forallb roundtrips elements
  end.

Definition is_container (v : JsonValue) : bool :=
  match v with JsonObject _ | JsonArray _ => true | _ => false end.

(** What may follow a value inside a text of the encoder: nothing, a comma
    or a closing bracket. *)
Definition delimited (tail : jsstring) : bool :=
  match tail with
  | [] => true
  | c :: _ => (c =? ch ",") || (c =? ch "]") || (c =? ch "}")
  end.

(** What [encodeValue] returns prints as [text] and is not a function. *)
Definition encodes_as (v : JsValue) (text : jsstring) : Prop :=
  exists val,
    encodeValue v = Ok val /\ is_function val = false /\ ToString val = text.

(** The text of a member of an object. *)
Definition member_text (kv : jsstring * JsonValue) : jsstring :=
  [c_quote] ++ fst kv ++ [c_quote] ++ js ":" ++ json_text (snd kv).

(** The parser reads the text of [v], whatever delimiter follows it, as the
    value [lossy v], given fuel enough. *)
Definition reads_back (v : JsonValue) : Prop :=
  exists n, forall fuel tail p,
      (n <= fuel)%nat -> delimited tail = true ->
      exists p',
        parseValue fuel {| rest := json_text v ++ tail; pos := p |}
        = Return (lossy v) {| rest := tail; pos := p' |}.

(** [q] agrees with [p] wherever [p] does not run out of fuel. *)
Definition extends {A} (p q : Parser A) : Prop :=
  forall c, p c <> OutOfFuel -> q c = p c.

(** ** The cursor only moves forward *)

(** The cursor [c'] is the cursor [c] moved forward: the offset has not
    decreased and the unread text is the old one without the characters
    passed. *)
Definition advances (c c' : Cursor) : Prop :=
  (pos c <= pos c')%nat /\ rest c' = skipn (pos c' - pos c) (rest c).

(** A method that, when it returns, has moved the cursor forward. *)
Definition moves {A} (p : Parser A) : Prop :=
  forall c a c', p c = Return a c' -> advances c c'.

(** A method that, when it returns, has read at least one character. *)
Definition consumes {A} (p : Parser A) : Prop :=
  forall c a c',
    p c = Return a c' ->
    advances c c' /\ (pos c < pos c')%nat /\ rest c <> [].

(** ** Texts without a string literal *)

(** No character of the text is the double quote. *)
Definition quote_free (s : jsstring) : bool :=
  forallb (fun c => negb (c =? c_quote)) s.

(** [decode(json)] ends, with a value or with an error. *)
Definition terminates (json : jsstring) : Prop :=
  exists r, decodes json r.

(** ** Offsets *)

(** The error [e], raised [k] characters further on. *)
Definition shift_error (k : nat) (e : ParseError) : ParseError :=
  match e with
  | UnexpectedToken p tok => UnexpectedToken (p + k) tok
  | InvalidJsonValue p => InvalidJsonValue (p + k)
  | InvalidObject p => InvalidObject (p + k)
  | InvalidArray p => InvalidArray (p + k)
  | InvalidNumber p => InvalidNumber (p + k)
  | InvalidUnicodeEscape p => InvalidUnicodeEscape (p + k)
  | InvalidEscape p => InvalidEscape (p + k)
  | ExpectedCharacter c p => ExpectedCharacter c (p + k)
  end.

Definition shift_outcome {A} (k : nat) (o : outcome A) : outcome A :=
  match o with
  | Return a c => Return a {| rest := rest c; pos := pos c + k |}
  | Throw e => Throw (shift_error k e)
  | OutOfFuel => OutOfFuel
  end.

Definition shift_result (k : nat) (r : result ParseError JsonValue)
  : result ParseError JsonValue :=
  match r with
  | Ok v => Ok v
  | Err e => Err (shift_error k e)
  end.

(** A method whose outcome does not depend on the offset, but for the
    offsets it reports: started [k] characters further on the same text, it
    ends [k] characters further. *)
Definition shifts {A} (p : Parser A) : Prop :=
  forall k r p0,
    p {| rest := r; pos := p0 + k |} = shift_outcome k (p {| rest := r; pos := p0 |}).

(** What [parse] does after the leading whitespace. *)
Definition parse_after_whitespace (fuel : nat) : Parser JsonValue :=
  result <- parseValue fuel ;;
  consumeWhitespace fuel ;;;
  more <- hasNext fuel ;;
  if more then
    tok <- currentToken ;; throw (fun p => UnexpectedToken p tok)
  else ret result.

(** The cursor once the whitespace in front of it is passed: what
    [consumeWhitespace] leaves. *)
Definition skip_space (c : Cursor) : Cursor :=
  let r := drop_while is_StrWhiteSpaceChar (rest c) in
  {| rest := r; pos := pos c + (length (rest c) - length r) |}.

(** ** The text without its blanks *)

(** [s] without the four characters that [consume] skips. *)
Definition squeeze (s : jsstring) : jsstring := filter (fun c => negb (is_blank c)) s.

(** Two cursors on a text without double quote and on that text squeezed,
    the first not on a blank. *)
Definition squeezed (c c' : Cursor) : Prop :=
  quote_free (rest c) = true /\ starts_plain (rest c) = true
  /\ rest c' = squeeze (rest c).

(** Two outcomes alike but for the offsets: the same value at squeezed
    cursors, or an error each. *)
Definition alike {A} (o o' : outcome A) : Prop :=
  match o, o' with
  | Return a c, Return a' c' => a = a' /\ squeezed c c'
  | Throw _, Throw _ => True
  | OutOfFuel, OutOfFuel => True
  | _, _ => False
  end.

(** A method that does not see the blanks of a text without double quote. *)
Definition blind {A} (p : Parser A) : Prop :=
  forall c c', squeezed c c' -> alike (p c) (p c').

(** ** Offsets within the input *)

(** The offset that the message of an error reports. *)
Definition error_pos (e : ParseError) : nat :=
  match e with
  | UnexpectedToken p _ | InvalidJsonValue p | InvalidObject p | InvalidArray p
  | InvalidNumber p | InvalidUnicodeEscape p | InvalidEscape p
  | ExpectedCharacter _ p => p
  end.

(** An error other than the one [parse] throws for input left after the
    value. *)
Definition inner_error (e : ParseError) : Prop :=
  match e with UnexpectedToken _ _ => False | _ => True end.

(** The offset of [c'] counts the characters passed since [c]: it has not
    left the input. *)
Definition exact (c c' : Cursor) : Prop :=
  (pos c <= pos c')%nat
  /\ (pos c' + length (rest c') = pos c + length (rest c))%nat.

(** An outcome of a method started at [c] that keeps the offset within the
    input: on return the offset is exact, and an error, which satisfies
    [Q], reports an offset between that of [c] and the end of the input. *)
Definition in_bounds {A} (Q : ParseError -> Prop) (c : Cursor) (o : outcome A)
  : Prop :=
  match o with
  | Return _ c' => exact c c'
  | Throw e =>
      (pos c <= error_pos e <= pos c + length (rest c))%nat /\ Q e
  | OutOfFuel => True
  end.

(** The same, but that on return the offset may have left the input, with
    nothing left to read. *)
Definition in_bounds_or_past {A} (Q : ParseError -> Prop) (c : Cursor)
           (o : outcome A) : Prop :=
  match o with
  | Return _ c' => exact c c' \/ rest c' = []
  | _ => in_bounds Q c o
  end.

Definition bounded {A} (Q : ParseError -> Prop) (p : Parser A) : Prop :=
  forall c, in_bounds Q c (p c).

(** ** Where the conversions of the model are those of the engine *)

(** No object of [v], at any depth, has a property named [toString].  An
    object that has one, with a value that is no function, makes unary plus
    throw a [TypeError] in [encodeValue]. *)
Fixpoint toString_free (v : JsonValue) : bool :=
  match v with
  | JsonObject properties =>
      forallb (fun kv => negb (jsstring_eqb (fst kv) (js "toString"))
                         && toString_free (snd kv)) properties
  | JsonArray elements => forallb toString_free elements
  | _ => true
  end.

(** No object of [v], at any depth and also in what a callable returns, has
    an own property named [toString] or [valueOf]: every conversion goes
    through the inherited [toString], as [ToNumber] and [ToString] have
    it. *)
Fixpoint inherits_conversions (v : JsValue) : bool :=
  match v with
  | JArray values => forallb inherits_conversions values
  | JObject _ entries =>
      forallb (fun kv => negb (jsstring_eqb (fst kv) (js "toString"))
                         && negb (jsstring_eqb (fst kv) (js "valueOf"))
                         && inherits_conversions (snd kv)) entries
  | JFunction _ call => inherits_conversions (call tt)
  | _ => true
  end.

(** A value that the setter of [__proto__] ignores: a string, a number or
    a boolean. *)
Definition ignored_as_prototype (v : JsonValue) : bool :=
  match v with
  | JsonString _ | JsonNumber _ | JsonBoolean _ => true
  | _ => false
  end.

(** * Properties *)

(** ** More fuel does not change an outcome *)

Lemma extends_refl {A} (p : Parser A) : extends p p.
Proof. intros c _. reflexivity. Qed.

Lemma extends_bind {A B} (p q : Parser A) (k k' : A -> Parser B) :
  extends p q -> (forall a, extends (k a) (k' a)) ->
  extends (bind p k) (bind q k').
Proof.
  intros Hp Hk c. unfold bind. specialize (Hp c).
  destruct (p c) as [a c'| e |] eqn:E.
  - rewrite Hp by discriminate. apply Hk.
  - rewrite Hp by discriminate. reflexivity.
  - intros H. now elim H.
Qed.

Lemma extends_out {A} (q : Parser A) : extends out_of_fuel q.
Proof. intros c H. now elim H. Qed.

Ltac extends_step :=
  match goal with
  | |- extends (bind _ _) (bind _ _) => apply extends_bind; [| intro]
  | |- extends (if ?b then _ else _) (if ?b then _ else _) => destruct b
  | |- extends ?p ?p => apply extends_refl
  | |- extends out_of_fuel _ => apply extends_out
  end.

Lemma consumeWhitespace_mono n m :
  (n <= m)%nat -> extends (consumeWhitespace n) (consumeWhitespace m).
Proof.
  revert m. induction n as [|n IH]; intros m Hle; [apply extends_out|].
  destruct m as [|m]; [lia|]. simpl.
  repeat extends_step. apply IH. lia.
Qed.

Lemma hasNext_mono n m :
  (n <= m)%nat -> extends (hasNext n) (hasNext m).
Proof.
  intros Hle. unfold hasNext.
  repeat extends_step. now apply consumeWhitespace_mono.
Qed.

Lemma parseString_loop_mono n m str :
  (n <= m)%nat -> extends (parseString_loop n str) (parseString_loop m str).
Proof.
  revert m str. induction n as [|n IH]; intros m str Hle; [apply extends_out|].
  destruct m as [|m]; [lia|]. simpl.
  repeat extends_step; apply IH; lia.
Qed.

Lemma parseString_mono n m :
  (n <= m)%nat -> extends (parseString n) (parseString m).
Proof.
  intros Hle. unfold parseString.
  repeat extends_step. now apply parseString_loop_mono.
Qed.

Lemma parseDigits_loop_mono n m str :
  (n <= m)%nat -> extends (parseDigits_loop n str) (parseDigits_loop m str).
Proof.
  revert m str. induction n as [|n IH]; intros m str Hle; [apply extends_out|].
  destruct m as [|m]; [lia|]. simpl.
  repeat extends_step. apply IH. lia.
Qed.

Lemma parseDigits_mono n m :
  (n <= m)%nat -> extends (parseDigits n) (parseDigits m).
Proof.
  intros Hle. unfold parseDigits.
  repeat extends_step. now apply parseDigits_loop_mono.
Qed.

Lemma parseNumber_mono n m :
  (n <= m)%nat -> extends (parseNumber n) (parseNumber m).
Proof.
  intros Hle. unfold parseNumber.
  repeat (extends_step || apply parseDigits_mono; try assumption).
Qed.

Section DescentMono.

Variables pv pv' : Parser JsonValue.
Hypothesis Hpv : extends pv pv'.

Lemma parsePair_mono n m :
  (n <= m)%nat -> extends (parsePair pv n) (parsePair pv' m).
Proof.
  intros Hle. unfold parsePair.
  repeat (extends_step || apply parseString_mono || apply Hpv; try assumption).
Qed.

Lemma parseObject_loop_mono n m obj :
  (n <= m)%nat ->
  extends (parseObject_loop pv n obj) (parseObject_loop pv' m obj).
Proof.
  revert m obj. induction n as [|n IH]; intros m obj Hle; [apply extends_out|].
  destruct m as [|m]; [lia|]. simpl.
  repeat (extends_step || (apply parsePair_mono; lia) || (apply IH; lia)).
Qed.

Lemma parseObject_mono n m :
  (n <= m)%nat -> extends (parseObject pv n) (parseObject pv' m).
Proof.
  intros Hle. unfold parseObject.
  repeat (extends_step || (apply parseObject_loop_mono; lia)).
Qed.

Lemma parseArray_loop_mono n m arr :
  (n <= m)%nat ->
  extends (parseArray_loop pv n arr) (parseArray_loop pv' m arr).
Proof.
  revert m arr. induction n as [|n IH]; intros m arr Hle; [apply extends_out|].
  destruct m as [|m]; [lia|]. simpl.
  repeat (extends_step || apply Hpv || (apply IH; lia)).
Qed.

Lemma parseArray_mono n m :
  (n <= m)%nat -> extends (parseArray pv n) (parseArray pv' m).
Proof.
  intros Hle. unfold parseArray.
  repeat (extends_step || (apply parseArray_loop_mono; lia)).
Qed.

End DescentMono.

Lemma parseValue_mono n m :
  (n <= m)%nat -> extends (parseValue n) (parseValue m).
Proof.
  revert m. induction n as [|n IH]; intros m Hle; [apply extends_out|].
  destruct m as [|m]; [lia|]. simpl.
  assert (Hn : (n <= m)%nat) by lia.
  repeat (extends_step
          || (apply parseObject_mono; [apply IH; lia | lia])
          || (apply parseArray_mono; [apply IH; lia | lia])
          || (apply parseString_mono; lia)
          || (apply parseNumber_mono; lia)).
Qed.

Lemma parse_mono n m :
  (n <= m)%nat -> extends (parse n) (parse m).
Proof.
  intros Hle. unfold parse.
  repeat (extends_step
          || (apply consumeWhitespace_mono; lia)
          || (apply parseValue_mono; lia)
          || (apply hasNext_mono; lia)).
Qed.

(** An outcome reached with some fuel is the outcome with any more. *)
Lemma decode_mono n m json r :
  (n <= m)%nat -> decode n json = Some r -> decode m json = Some r.
Proof.
  intros Hle. unfold decode.
  pose proof (parse_mono n m Hle {| rest := json; pos := 0 |}) as H.
  destruct (parse n _) eqn:E; try discriminate;
    (rewrite H by discriminate); auto.
Qed.

Lemma decodes_at n json r : decode n json = Some r -> decodes json r.
Proof. intros H. exists n. intros fuel Hle. now apply decode_mono with n. Qed.

Lemma decodes_unique json r1 r2 : decodes json r1 -> decodes json r2 -> r1 = r2.
Proof.
  intros [n1 H1] [n2 H2].
  specialize (H1 (max n1 n2) (Nat.le_max_l _ _)).
  specialize (H2 (max n1 n2) (Nat.le_max_r _ _)).
  congruence.
Qed.

Lemma diverges_not_decodes json r : diverges json -> ~ decodes json r.
Proof. intros Hd [n Hn]. specialize (Hn n (Nat.le_refl n)). rewrite Hd in Hn. discriminate. Qed.

(** ** The encoder on small inputs *)

(** C2 (the code departs from the claim): a boolean is numeric under unary
    plus, so [encodeValue] returns it before the [switch] is reached and
    the container prints it bare, as [true] or [false], not as a quoted
    string. *)
Theorem boolean_is_emitted_bare (b : bool) :
  encodeValue (JBoolean b) = Ok (JBoolean b)
  /\ encode (JArray [JBoolean b])
     = Ok (JString (js "[" ++ Boolean_toString b ++ js "]"))
  /\ encode (plain [(js "a", JBoolean b)])
     = Ok (JString (jq "{'a':" ++ Boolean_toString b ++ js "}")).
Proof. destruct b; repeat split; reflexivity. Qed.

Lemma encode_callable_resolved (text : jsstring) :
  isNaN (StringToNumber text) = true ->
  encode (JArray [num 1; JFunction text (fun _ => num 2); num 3])
  = Ok (JString (js "[1,2,3]")).
Proof.
  intros H. unfold encode. simpl. unfold encodeArray. simpl.
  rewrite H. reflexivity.
Qed.

(** C3 (as amended): the callable element is called and its result, 2, is
    encoded in its place; the array [1, f, 3] yields the text [1,2,3]. *)
Theorem callable_element_is_resolved (text : jsstring) :
  isNaN (StringToNumber text) = true ->
  encode (JArray [num 1; JFunction text (fun _ => num 2); num 3])
  = Ok (JString (js "[1,2,3]")).
Proof. apply encode_callable_resolved. Qed.

Lemma callable_element_is_resolved_witness :
  isNaN (StringToNumber (js "() => 2")) = true
  /\ encode (JArray [num 1; JFunction (js "() => 2") (fun _ => num 2); num 3])
     = Ok (JString (js "[1,2,3]")).
Proof.
  split; [reflexivity | apply callable_element_is_resolved; reflexivity].
Defined.

(** C3 (as stated) fails: the text is not [1,3]. *)
Lemma callable_element_not_skipped :
  encode (JArray [num 1; JFunction (js "() => 2") (fun _ => num 2); num 3])
  <> Ok (JString (js "[1,3]")).
Proof. rewrite encode_callable_resolved by reflexivity. discriminate. Qed.

(** C4 (the code departs from the claim): the closing bracket is appended
    inside the loop, after the last element, so an empty container yields
    the opening bracket alone. *)
Theorem empty_container_is_left_open :
  encode (JArray []) = Ok (JString (js "["))
  /\ encode (plain []) = Ok (JString (js "{")).
Proof. split; reflexivity. Qed.

(** C6 (the code departs from the claim): numbers, strings, booleans,
    [undefined] and callables are rejected at the top level, but [null],
    whose [typeof] is [object], passes the guard and yields the text
    [null]. *)
Theorem top_level_null_is_accepted :
  encode JNull = Ok (JString (js "null"))
  /\ (forall x, encode (JNumber x) = Err InvalidInput)
  /\ (forall s, encode (JString s) = Err InvalidInput)
  /\ (forall b, encode (JBoolean b) = Err InvalidInput)
  /\ encode JUndefined = Err InvalidInput
  /\ (forall text call, encode (JFunction text call) = Err InvalidInput).
Proof. repeat split; reflexivity. Qed.

(** ** The parser on small inputs *)

Lemma decode_007 :
  decodes (js "007") (Err (UnexpectedToken 1 (Some (ch "0")))).
Proof. apply decodes_at with 4%nat. reflexivity. Qed.

(** C8 (as amended): [decode('007')] fails, with the error for input left
    after the value ([Unexpected token at position 1-0]): the digits rule
    takes the first [0] as a whole integer part and the number ends there. *)
Theorem leading_zeros_are_trailing_input :
  decodes (js "007") (Err (UnexpectedToken 1 (Some (ch "0")))).
Proof. exact decode_007. Qed.

(** C8 (as stated) fails: the error is not the one of an invalid number. *)
Lemma leading_zeros_not_invalid_number :
  ~ exists p, decodes (js "007") (Err (InvalidNumber p)).
Proof.
  intros [p H]. pose proof (decodes_unique _ _ _ H decode_007). discriminate.
Qed.

(** ** Steps of the cursor *)

Lemma skip_blanks_plain r p :
  starts_plain r = true -> skip_blanks r p = {| rest := r; pos := p |}.
Proof.
  destruct r as [|x r]; simpl; [reflexivity|].
  intros H. apply negb_true_iff in H. now rewrite H.
Qed.

Lemma skip_blanks_app ws r p :
  forallb is_blank ws = true ->
  skip_blanks (ws ++ r) p = skip_blanks r (p + length ws).
Proof.
  revert p. induction ws as [|x ws IH]; intros p H; simpl in *.
  - now rewrite Nat.add_0_r.
  - apply andb_true_iff in H as [Hx Hws]. rewrite Hx, IH by assumption.
    f_equal. lia.
Qed.

Lemma skip_blanks_forallb (P : code_unit -> bool) r p :
  forallb P r = true -> forallb P (rest (skip_blanks r p)) = true.
Proof.
  revert p. induction r as [|x r IH]; intros p H; simpl in *; [reflexivity|].
  apply andb_true_iff in H as [Hx Hr].
  destruct (is_blank x); [now apply IH|]. simpl. now rewrite Hx, Hr.
Qed.

Lemma consume_expected e r p :
  consume (Some e) {| rest := e :: r; pos := p |} = Return tt (skip_blanks r (S p)).
Proof. unfold consume, tok_is. simpl. now rewrite N.eqb_refl. Qed.

Lemma consumeWhitespace_none fuel c :
  test_space (hd_error (rest c)) = false ->
  consumeWhitespace (S fuel) c = Return tt c.
Proof. intros H. simpl. unfold bind, currentToken. now rewrite H. Qed.

Lemma hasNext_end fuel p :
  hasNext (S fuel) {| rest := []; pos := p |}
  = Return false {| rest := []; pos := p |}.
Proof. reflexivity. Qed.

Lemma parseValue_string fuel c :
  hd_error (rest c) = Some c_quote ->
  parseValue (S fuel) c = (s <- parseString fuel ;; ret (JsonString s)) c.
Proof.
  intros H. simpl. unfold bind at 1. unfold currentToken. rewrite H.
  reflexivity.
Qed.

(** ** String literals *)

Lemma ordinary_inv x :
  ordinary x = true -> (x =? c_quote) = false /\ (x =? c_backslash) = false.
Proof.
  unfold ordinary. intros H. apply andb_true_iff in H as [H1 H2].
  now apply negb_true_iff in H1, H2.
Qed.

(** The loop copies ordinary characters one by one. *)
Lemma parseString_loop_copy body :
  forallb ordinary body = true ->
  forall fuel str r p,
    parseString_loop (length body + fuel) str {| rest := body ++ r; pos := p |}
    = parseString_loop fuel (str ++ body) {| rest := r; pos := p + length body |}.
Proof.
  induction body as [|x body IH]; intros H fuel str r p; simpl in *.
  - now rewrite app_nil_r, Nat.add_0_r.
  - apply andb_true_iff in H as [Hx Hb].
    destruct (ordinary_inv x Hx) as [Hq Hs].
    unfold bind at 1. unfold currentToken. simpl. rewrite Hq, Hs. simpl.
    unfold bind at 1. unfold advance. simpl.
    rewrite IH by assumption. rewrite <- app_assoc. simpl.
    do 2 f_equal. lia.
Qed.

Lemma parseString_loop_quote fuel str r p :
  parseString_loop (S fuel) str {| rest := c_quote :: r; pos := p |}
  = Return str {| rest := c_quote :: r; pos := p |}.
Proof. reflexivity. Qed.

(** Past the end of the input the loop goes on for ever. *)
Lemma parseString_loop_no_quote fuel :
  forall str r p,
    forallb ordinary r = true ->
    parseString_loop fuel str {| rest := r; pos := p |} = OutOfFuel.
Proof.
  induction fuel as [|fuel IH]; intros str r p H; [reflexivity|].
  simpl. unfold bind at 1. unfold currentToken. simpl.
  destruct r as [|x r]; simpl in *.
  - unfold bind. unfold advance. simpl. now apply IH.
  - apply andb_true_iff in H as [Hx Hr].
    destruct (ordinary_inv x Hx) as [Hq Hs]. rewrite Hq, Hs. simpl.
    unfold bind. unfold advance. simpl. now apply IH.
Qed.

Lemma decode_unterminated body :
  forallb ordinary body = true -> diverges (c_quote :: body).
Proof.
  intros H fuel. unfold decode, parse.
  destruct fuel as [|fuel]; [reflexivity|].
  unfold bind at 1. rewrite consumeWhitespace_none by reflexivity.
  unfold bind at 1. rewrite parseValue_string by reflexivity.
  unfold bind at 1. unfold parseString. unfold bind at 1.
  rewrite consume_expected. unfold bind at 1.
  pose proof (skip_blanks_forallb ordinary body 1 H) as Hs.
  destruct (skip_blanks body 1) as [r p]. simpl in Hs.
  now rewrite parseString_loop_no_quote.
Qed.

(** C5 (the code departs from the claim): when the input ends inside a
    string literal that has met no backslash, the loop of [parseString]
    reads the empty string for ever: [decode] neither raises an error nor
    returns. *)
Theorem unterminated_string_never_ends (body : jsstring) :
  forallb ordinary body = true ->
  diverges (c_quote :: body) /\ forall r, ~ decodes (c_quote :: body) r.
Proof.
  intros H. split; [now apply decode_unterminated|].
  intros r. apply diverges_not_decodes. now apply decode_unterminated.
Qed.

Lemma unterminated_string_never_ends_witness :
  forallb ordinary (js "abc") = true
  /\ diverges (jq "'abc") /\ forall r, ~ decodes (jq "'abc") r.
Proof.
  split; [reflexivity|].
  apply (unterminated_string_never_ends (js "abc")). reflexivity.
Defined.

Lemma parseString_literal ws body tail p fuel :
  forallb is_blank ws = true ->
  forallb ordinary body = true ->
  starts_plain body = true ->
  (length body < fuel)%nat ->
  parseString fuel {| rest := c_quote :: ws ++ body ++ c_quote :: tail; pos := p |}
  = Return body (skip_blanks tail (p + length ws + length body + 2)).
Proof.
  intros Hws Hb Hp Hf. unfold parseString.
  unfold bind at 1. rewrite consume_expected, skip_blanks_app by assumption.
  rewrite skip_blanks_plain by (destruct body; [reflexivity | exact Hp]).
  replace fuel with (length body + S (fuel - length body - 1))%nat by lia.
  unfold bind at 1. rewrite parseString_loop_copy by assumption.
  rewrite parseString_loop_quote.
  unfold bind at 1. rewrite consume_expected.
  unfold ret. do 2 f_equal. lia.
Qed.

Lemma simple_escape_inv e u :
  simple_escape e = Some u ->
  In (e, u) [(c_quote, c_quote); (c_backslash, c_backslash); (ch "/", ch "/");
             (ch "b", 8); (ch "f", 12); (ch "n", 10); (ch "r", 13); (ch "t", 9)].
Proof.
  unfold simple_escape. intros H.
  repeat match type of H with
         | (if ?b then _ else _) = _ => destruct b eqn:?
         end; try discriminate; injection H as <-;
    repeat match goal with
           | E : (_ || _) = true |- _ => apply orb_true_iff in E as [E|E]
           | E : (_ =? _) = true |- _ => apply N.eqb_eq in E; subst
           end; simpl; auto 10.
Qed.

(** An escape of one character: the blanks that follow it are skipped. *)
Lemma parseString_loop_escape e u fuel str r p :
  simple_escape e = Some u ->
  parseString_loop (S fuel) str {| rest := c_backslash :: e :: r; pos := p |}
  = parseString_loop fuel (str ++ [u]) (skip_blanks r (p + 2)).
Proof.
  intros H. apply simple_escape_inv in H. simpl in H.
  replace (p + 2)%nat with (S (S p)) by lia.
  repeat destruct H as [H|H]; try contradiction;
    injection H as <- <-; reflexivity.
Qed.

Lemma is_hex_digit_inv c :
  is_hex_digit c = true ->
  In c [48; 49; 50; 51; 52; 53; 54; 55; 56; 57;
        65; 66; 67; 68; 69; 70; 97; 98; 99; 100; 101; 102].
Proof.
  unfold is_hex_digit, is_digit. change (ch "0") with 48. change (ch "9") with 57.
  change (ch "a") with 97. change (ch "f") with 102.
  change (ch "A") with 65. change (ch "F") with 70.
  intros H.
  assert (48 <= c <= 57 \/ 97 <= c <= 102 \/ 65 <= c <= 70) as Hc.
  { repeat match goal with
           | E : (_ || _) = true |- _ => apply orb_true_iff in E as [E|E]
           | E : (_ && _) = true |- _ => apply andb_true_iff in E as [? ?]
           | E : (_ <=? _) = true |- _ => apply N.leb_le in E
           end; lia. }
  simpl.
  assert (c = 48 \/ c = 49 \/ c = 50 \/ c = 51 \/ c = 52 \/ c = 53 \/ c = 54
          \/ c = 55 \/ c = 56 \/ c = 57 \/ c = 65 \/ c = 66 \/ c = 67
          \/ c = 68 \/ c = 69 \/ c = 70 \/ c = 97 \/ c = 98 \/ c = 99
          \/ c = 100 \/ c = 101 \/ c = 102) by lia.
  intuition auto 30.
Qed.

Ltac each_hex_digit H :=
  apply is_hex_digit_inv in H; simpl in H;
  repeat destruct H as [H|H]; try contradiction; subst.

Lemma hex_digit_facts c :
  is_hex_digit c = true ->
  is_StrWhiteSpaceChar c = false /\ is_blank c = false
  /\ (c =? ch "-") = false /\ (c =? ch "+") = false
  /\ (c =? ch "x") = false /\ (c =? ch "X") = false
  /\ hex_value c < 16.
Proof. intros H. each_hex_digit H; repeat split; reflexivity. Qed.

Lemma parseInt16_hex4 a b c d :
  is_hex_digit a = true -> is_hex_digit b = true ->
  is_hex_digit c = true -> is_hex_digit d = true ->
  parseInt16 [a; b; c; d]
  = Some (Z.of_N (4096 * hex_value a + 256 * hex_value b
                  + 16 * hex_value c + hex_value d)).
Proof.
  intros Ha Hb Hc Hd. unfold parseInt16.
  destruct (hex_digit_facts a Ha) as (Es & _ & Em & Ep & _).
  destruct (hex_digit_facts b Hb) as (_ & _ & _ & _ & Ex & EX & _).
  cbn [drop_while]. rewrite Es, Em, Ep, Ex, EX. cbn [orb].
  rewrite andb_false_r. cbn [span]. rewrite Ha, Hb, Hc, Hd.
  cbn [fst map]. unfold N_of_radix_digits. cbn [fold_left].
  do 2 f_equal. lia.
Qed.

(** A [\u] escape of four hexadecimal digits: what follows it is left
    where it is. *)
Lemma parseString_loop_unicode a b c d fuel str r p :
  is_hex_digit a = true -> is_hex_digit b = true ->
  is_hex_digit c = true -> is_hex_digit d = true ->
  parseString_loop (S fuel) str
    {| rest := c_backslash :: ch "u" :: a :: b :: c :: d :: r; pos := p |}
  = parseString_loop fuel
      (str ++ [4096 * hex_value a + 256 * hex_value b
               + 16 * hex_value c + hex_value d])
      {| rest := r; pos := p + 6 |}.
Proof.
  intros Ha Hb Hc Hd.
  destruct (hex_digit_facts a Ha) as (_ & Ea & _ & _ & _ & _ & La).
  destruct (hex_digit_facts b Hb) as (_ & _ & _ & _ & _ & _ & Lb).
  destruct (hex_digit_facts c Hc) as (_ & _ & _ & _ & _ & _ & Lc).
  destruct (hex_digit_facts d Hd) as (_ & _ & _ & _ & _ & _ & Ld).
  cbn [parseString_loop]. unfold bind at 1. unfold currentToken.
  cbn [rest hd_error]. change (tok_is (Some c_backslash) c_quote) with false.
  change (tok_is (Some c_backslash) c_backslash) with true.
  cbn [negb]. cbv iota. unfold bind at 1. unfold parseEscape.
  unfold bind at 1. rewrite consume_expected.
  cbn [skip_blanks]. change (is_blank (ch "u")) with false. cbv iota.
  unfold bind at 1. unfold currentToken. cbn [rest hd_error].
  change (tok_is (Some (ch "u")) c_quote) with false.
  change (tok_is (Some (ch "u")) c_backslash) with false.
  change (tok_is (Some (ch "u")) (ch "/")) with false.
  change (tok_is (Some (ch "u")) (ch "b")) with false.
  change (tok_is (Some (ch "u")) (ch "f")) with false.
  change (tok_is (Some (ch "u")) (ch "n")) with false.
  change (tok_is (Some (ch "u")) (ch "r")) with false.
  change (tok_is (Some (ch "u")) (ch "t")) with false.
  change (tok_is (Some (ch "u")) (ch "u")) with true.
  cbn [orb]. cbv iota.
  unfold bind at 1. unfold consume. cbn [rest tl pos skip_blanks].
  rewrite Ea. cbn [rest firstn]. rewrite parseInt16_hex4 by assumption.
  unfold bind at 1. unfold advance. cbn [rest pos skipn]. unfold ret.
  unfold String_fromCharCode.
  rewrite Z.mod_small by lia. rewrite N2Z.id.
  f_equal. f_equal. lia.
Qed.

Lemma blank_is_ordinary ws :
  forallb is_blank ws = true -> forallb ordinary ws = true.
Proof.
  induction ws as [|x ws IH]; simpl; [reflexivity|].
  intros H. apply andb_true_iff in H as [Hx Hws]. rewrite IH by assumption.
  unfold is_blank in Hx.
  repeat match goal with
         | E : (_ || _) = true |- _ => apply orb_true_iff in E as [E|E]
         | E : (_ =? _) = true |- _ => apply N.eqb_eq in E; subst
         end; reflexivity.
Qed.

(** From the value at the top level to [decode]. *)
Lemma decode_value fuel json v p :
  test_space (hd_error json) = false ->
  parseValue (S fuel) {| rest := json; pos := 0 |}
  = Return v {| rest := []; pos := p |} ->
  decode (S fuel) json = Some (Ok v).
Proof.
  intros Hs Hv. unfold decode, parse.
  unfold bind at 1. rewrite consumeWhitespace_none by exact Hs.
  unfold bind at 1. rewrite Hv.
  unfold bind at 1. rewrite consumeWhitespace_none by reflexivity.
  unfold bind at 1. rewrite hasNext_end. reflexivity.
Qed.

Lemma decode_string fuel body s p :
  parseString fuel {| rest := c_quote :: body; pos := 0 |}
  = Return s {| rest := []; pos := p |} ->
  decodes (c_quote :: body) (Ok (JsonString s)).
Proof.
  intros H. apply decodes_at with (S (S fuel)).
  apply decode_value with p; [reflexivity|].
  rewrite parseValue_string by reflexivity.
  unfold bind. rewrite (parseString_mono fuel (S fuel)); [|lia|];
    rewrite H; [reflexivity | discriminate].
Qed.

Lemma decode_blank_after_quote ws body :
  forallb is_blank ws = true ->
  forallb ordinary body = true -> starts_plain body = true ->
  decodes ([c_quote] ++ ws ++ body ++ [c_quote]) (Ok (JsonString body)).
Proof.
  intros Hws Hb Hp.
  apply decode_string with (fuel := S (length body)) (p := (length ws + length body + 2)%nat).
  now rewrite parseString_literal by (assumption || lia).
Qed.

Lemma decode_blank_after_escape pre e u ws body :
  forallb ordinary pre = true -> starts_plain pre = true ->
  simple_escape e = Some u ->
  forallb is_blank ws = true ->
  forallb ordinary body = true -> starts_plain body = true ->
  decodes ([c_quote] ++ pre ++ [c_backslash; e] ++ ws ++ body ++ [c_quote])
          (Ok (JsonString (pre ++ [u] ++ body))).
Proof.
  intros Hpre Hpp He Hws Hb Hp.
  apply decode_string
    with (fuel := (length pre + S (length body + 1))%nat)
         (p := (length pre + length ws + length body + 4)%nat).
  unfold parseString. unfold bind at 1. rewrite consume_expected.
  rewrite skip_blanks_plain by (destruct pre; [reflexivity | exact Hpp]).
  unfold bind at 1. rewrite parseString_loop_copy by assumption.
  cbn [app]. rewrite parseString_loop_escape with (u := u) by assumption.
  rewrite skip_blanks_app by assumption.
  rewrite skip_blanks_plain by (destruct body; [reflexivity | exact Hp]).
  rewrite parseString_loop_copy by assumption.
  rewrite parseString_loop_quote.
  unfold bind at 1. rewrite consume_expected. cbn [skip_blanks].
  unfold ret. rewrite <- app_assoc. do 2 f_equal. lia.
Qed.

Lemma decode_blank_after_unicode pre a b c d ws body :
  forallb ordinary pre = true -> starts_plain pre = true ->
  is_hex_digit a = true -> is_hex_digit b = true ->
  is_hex_digit c = true -> is_hex_digit d = true ->
  forallb is_blank ws = true -> forallb ordinary body = true ->
  decodes ([c_quote] ++ pre ++ [c_backslash; ch "u"; a; b; c; d] ++ ws
             ++ body ++ [c_quote])
          (Ok (JsonString
                 (pre ++ [4096 * hex_value a + 256 * hex_value b
                          + 16 * hex_value c + hex_value d] ++ ws ++ body))).
Proof.
  intros Hpre Hpp Ha Hb Hc Hd Hws Hbody.
  assert (Hwb : forallb ordinary (ws ++ body) = true).
  { rewrite forallb_app, blank_is_ordinary by assumption. exact Hbody. }
  apply decode_string
    with (fuel := (length pre + S (length (ws ++ body) + 1))%nat)
         (p := (length pre + length (ws ++ body) + 8)%nat).
  unfold parseString. unfold bind at 1. rewrite consume_expected.
  rewrite skip_blanks_plain by (destruct pre; [reflexivity | exact Hpp]).
  unfold bind at 1. rewrite parseString_loop_copy by assumption.
  cbn [app]. rewrite parseString_loop_unicode by assumption.
  rewrite (app_assoc ws body).
  rewrite parseString_loop_copy by assumption.
  rewrite parseString_loop_quote.
  unfold bind at 1. rewrite consume_expected. cbn [skip_blanks].
  unfold ret. rewrite <- !app_assoc. do 2 f_equal. lia.
Qed.

(** C10 (as amended): the blanks that follow the opening quote, and those
    that follow an escape of one character, are dropped from the decoded
    string; those that follow a [\u] escape of four hexadecimal digits are
    kept. *)
Theorem blanks_inside_string_are_dropped
        (ws pre body : jsstring) (e u a b c d : code_unit) :
  forallb is_blank ws = true ->
  forallb ordinary pre = true -> starts_plain pre = true ->
  forallb ordinary body = true -> starts_plain body = true ->
  simple_escape e = Some u ->
  is_hex_digit a && is_hex_digit b && is_hex_digit c && is_hex_digit d = true ->
  decodes ([c_quote] ++ ws ++ body ++ [c_quote]) (Ok (JsonString body))
  /\ decodes ([c_quote] ++ pre ++ [c_backslash; e] ++ ws ++ body ++ [c_quote])
             (Ok (JsonString (pre ++ [u] ++ body)))
  /\ decodes ([c_quote] ++ pre ++ [c_backslash; ch "u"; a; b; c; d] ++ ws
                ++ body ++ [c_quote])
             (Ok (JsonString
                    (pre ++ [4096 * hex_value a + 256 * hex_value b
                             + 16 * hex_value c + hex_value d] ++ ws ++ body))).
Proof.
  intros Hws Hpre Hpp Hb Hp He Hh.
  apply andb_true_iff in Hh as [Hh Hd]. apply andb_true_iff in Hh as [Hh Hc].
  apply andb_true_iff in Hh as [Ha Hb'].
  split; [|split].
  - now apply decode_blank_after_quote.
  - now apply decode_blank_after_escape.
  - now apply decode_blank_after_unicode.
Qed.

Lemma blanks_inside_string_are_dropped_witness :
  decodes (jq "' a'") (Ok (JsonString (js "a")))
  /\ decodes (jq "'x\n a'") (Ok (JsonString (js "x" ++ [10] ++ js "a")))
  /\ decodes (jq "'x\u0041 a'") (Ok (JsonString (js "xA a"))).
Proof.
  apply (blanks_inside_string_are_dropped
           (js " ") (js "x") (js "a") (ch "n") 10
           (ch "0") (ch "0") (ch "4") (ch "1")); reflexivity.
Defined.

(** C10 (as stated) fails for the [\u] escape: the blank that follows it is
    part of the decoded string. *)
Lemma blank_after_unicode_escape_is_kept :
  decodes (jq "'\u0041 b'") (Ok (JsonString (js "A b")))
  /\ ~ decodes (jq "'\u0041 b'") (Ok (JsonString (js "Ab"))).
Proof.
  assert (H : decodes (jq "'\u0041 b'") (Ok (JsonString (js "A b")))).
  { apply decodes_at with 10%nat. reflexivity. }
  split; [exact H|].
  intros H'. pose proof (decodes_unique _ _ _ H H'). discriminate.
Qed.

(** The two examples of the claim. *)
Example decode_blank_examples :
  decodes (jq "' a'") (Ok (JsonString (js "a")))
  /\ decodes (jq "'x\n y'") (Ok (JsonString (js "x" ++ [10] ++ js "y"))).
Proof. split; apply decodes_at with 10%nat; reflexivity. Qed.

Lemma decode_unicode_escape a b c d :
  is_hex_digit a = true -> is_hex_digit b = true ->
  is_hex_digit c = true -> is_hex_digit d = true ->
  decodes ([c_quote; c_backslash; ch "u"; a; b; c; d; c_quote])
          (Ok (JsonString [4096 * hex_value a + 256 * hex_value b
                           + 16 * hex_value c + hex_value d])).
Proof.
  intros Ha Hb Hc Hd.
  exact (decode_blank_after_unicode [] a b c d [] [] eq_refl eq_refl
           Ha Hb Hc Hd eq_refl eq_refl).
Qed.

(** C7 (the code departs from the claim): four hexadecimal digits after
    [\u] yield the code unit they denote, but [parseInt] reads the longest
    hexadecimal prefix of the four characters, so [\u12xy] is accepted as
    the code unit 0x12 and the four characters are skipped all the same;
    the error is raised only when no hexadecimal digit comes first. *)
Theorem partly_hexadecimal_escape_is_accepted (a b c d : code_unit) :
  is_hex_digit a && is_hex_digit b && is_hex_digit c && is_hex_digit d = true ->
  decodes ([c_quote; c_backslash; ch "u"; a; b; c; d; c_quote])
          (Ok (JsonString [4096 * hex_value a + 256 * hex_value b
                           + 16 * hex_value c + hex_value d]))
  /\ decodes (jq "'\u12xy'") (Ok (JsonString [18]))
  /\ decodes (jq "'\uxy12'") (Err (InvalidUnicodeEscape 3)).
Proof.
  intros Hh.
  apply andb_true_iff in Hh as [Hh Hd]. apply andb_true_iff in Hh as [Hh Hc].
  apply andb_true_iff in Hh as [Ha Hb].
  split; [now apply decode_unicode_escape|].
  split; apply decodes_at with 10%nat; reflexivity.
Qed.

Lemma partly_hexadecimal_escape_is_accepted_witness :
  decodes (jq "'\u0041'") (Ok (JsonString (js "A")))
  /\ decodes (jq "'\u12xy'") (Ok (JsonString [18]))
  /\ decodes (jq "'\uxy12'") (Err (InvalidUnicodeEscape 3)).
Proof.
  apply (partly_hexadecimal_escape_is_accepted (ch "0") (ch "0") (ch "4") (ch "1")).
  reflexivity.
Defined.

(** ** Objects: the last write wins *)

Lemma jsstring_eqb_eq a b : jsstring_eqb a b = true <-> a = b.
Proof.
  revert b. induction a as [|x a IH]; intros [|y b]; simpl; split;
    try discriminate; try reflexivity.
  - intros H. apply andb_true_iff in H as [Hx Ha].
    apply N.eqb_eq in Hx. apply IH in Ha. now subst.
  - intros H. injection H as -> ->. rewrite N.eqb_refl. now apply IH.
Qed.

Lemma jsstring_eqb_refl a : jsstring_eqb a a = true.
Proof. now apply jsstring_eqb_eq. Qed.

Lemma jsstring_eqb_neq a b : jsstring_eqb a b = false <-> a <> b.
Proof.
  split.
  - intros H E. apply jsstring_eqb_eq in E. congruence.
  - intros H. destruct (jsstring_eqb a b) eqn:E; [|reflexivity].
    apply jsstring_eqb_eq in E. contradiction.
Qed.









(** ** Induction on decoded values *)

Lemma JsonValue_induction (P : JsonValue -> Prop) :
  (forall s, P (JsonString s)) ->
  (forall x, P (JsonNumber x)) ->
  (forall b, P (JsonBoolean b)) ->
  P JsonNull ->
  (forall properties,
      Forall (fun kv => P (snd kv)) properties -> P (JsonObject properties)) ->
  (forall elements, Forall P elements -> P (JsonArray elements)) ->
  forall v, P v.
Proof.
  intros Hs Hn Hb Hnull Ho Ha.
  fix IH 1. intros [s|x|b| |properties|elements].
  - apply Hs.
  - apply Hn.
  - apply Hb.
  - apply Hnull.
  - apply Ho. induction properties as [|[k v] ps IHps]; constructor.
    + apply IH.
    + exact IHps.
  - apply Ha. induction elements as [|v vs IHvs]; constructor.
    + apply IH.
    + exact IHvs.
Qed.

(** ** The encoder on the values of the round trip *)

Lemma encodeArray_loop_texts (vs : list JsonValue) :
  vs <> [] ->
  Forall (fun v => encodes_as (inject v) (json_text v)) vs ->
  forall arr i len,
    len = (i + Z.of_nat (length vs))%Z ->
    encodeArray_loop encodeValue len (map inject vs) arr i
    = Ok (arr ++ join_with (js ",") (map json_text vs) ++ js "]").
Proof.
  induction vs as [|v vs IH]; intros Hne Hall arr i len Hlen; [congruence|].
  inversion Hall as [|? ? (val & Hval & Hfun & Htext) Hall']; subst.
  cbn [map encodeArray_loop]. rewrite Hval, Hfun, Htext.
  destruct vs as [|v' vs].
  - cbn [length] in *.
    replace (i + 1 <=? i + Z.of_nat 1 - 1)%Z with false
      by (symmetry; apply Z.leb_gt; lia).
    cbn [map encodeArray_loop join_with]. now rewrite app_nil_r, <- app_assoc.
  - replace (i + 1 <=? i + Z.of_nat (length (v :: v' :: vs)) - 1)%Z with true
      by (symmetry; apply Z.leb_le; cbn [length]; lia).
    rewrite IH; [| discriminate | assumption | cbn [length]; lia].
    cbn [join_with map]. now rewrite <- !app_assoc.
Qed.

Lemma encodeObject_loop_texts (ps : list (jsstring * JsonValue)) :
  ps <> [] ->
  Forall (fun kv => encodes_as (inject (snd kv)) (json_text (snd kv))) ps ->
  forall obj i len,
    len = (i + Z.of_nat (length ps))%Z ->
    encodeObject_loop encodeValue len
      (map (fun kv => (fst kv, inject (snd kv))) ps) obj i
    = Ok (obj
            ++ join_with (js ",")
                 (map (fun kv => [c_quote] ++ fst kv ++ [c_quote] ++ js ":"
                                   ++ json_text (snd kv)) ps)
            ++ js "}").
Proof.
  induction ps as [|[k v] ps IH]; intros Hne Hall obj i len Hlen; [congruence|].
  inversion Hall as [|? ? (val & Hval & Hfun & Htext) Hall']; subst.
  cbn [map encodeObject_loop fst snd] in *. rewrite Hval, Hfun, Htext.
  destruct ps as [|kv' ps].
  - cbn [length] in *.
    replace (i + 1 <=? i + Z.of_nat 1 - 1)%Z with false
      by (symmetry; apply Z.leb_gt; lia).
    cbn [map encodeObject_loop join_with].
    now rewrite app_nil_r, <- !app_assoc.
  - replace (i + 1 <=? i + Z.of_nat (length ((k, v) :: kv' :: ps)) - 1)%Z with true
      by (symmetry; apply Z.leb_le; cbn [length]; lia).
    rewrite IH; [| discriminate | assumption | cbn [length]; lia].
    cbn [join_with map fst snd]. now rewrite <- !app_assoc.
Qed.

Lemma is_json_number_not_NaN x :
  is_json_number (Number_toString x) = true -> isNaN x = false.
Proof. destruct x; [discriminate | reflexivity | reflexivity]. Qed.

Lemma forallb_Forall_imp {A} (f : A -> bool) (P : A -> Prop) l :
  Forall (fun a => f a = true -> P a) l -> forallb f l = true -> Forall P l.
Proof.
  induction 1 as [|a l Ha Hl IH]; simpl; intros H; constructor;
    apply andb_true_iff in H as [H1 H2]; auto.
Qed.

Lemma encodeValue_roundtrips v :
  roundtrips v = true ->
  exists val,
    encodeValue (inject v) = Ok val /\ is_function val = false
    /\ ToString val = json_text v
    /\ (is_container v = true -> val = JString (json_text v)).
Proof.
  induction v as [s|x|b| |ps IH|vs IH] using JsonValue_induction; intros Hrt.
  - cbn [inject json_text encodeValue ToNumber] in *.
    destruct (isNaN (StringToNumber s)); cbn [negb]; eexists;
      repeat split; discriminate.
  - cbn [inject json_text roundtrips encodeValue ToNumber] in *.
    apply andb_true_iff in Hrt as [_ Hrt].
    rewrite (is_json_number_not_NaN x Hrt). cbn [negb].
    eexists; repeat split; discriminate.
  - destruct b; eexists; repeat split; discriminate.
  - eexists; repeat split; discriminate.
  - cbn [roundtrips] in Hrt.
    apply andb_true_iff in Hrt as [Hrt _].
    apply andb_true_iff in Hrt as [Hne Hrt].
    assert (Hall : Forall (fun kv => encodes_as (inject (snd kv))
                                       (json_text (snd kv))) ps).
    { apply forallb_Forall_imp with (2 := Hrt).
      eapply Forall_impl; [|exact IH]. cbn beta. intros kv Hkv H.
      apply andb_true_iff in H as [_ H].
      destruct (Hkv H) as (val & ? & ? & ? & _). now exists val. }
    exists (JString (json_text (JsonObject ps))). repeat split.
    cbn [inject]. unfold plain.
    change (encodeValue (JObject object_Object ?e))
      with (map_ok JString (encodeObject encodeValue object_Object e)).
    unfold encodeObject.
    change (jsstring_eqb object_Object object_Object) with true. cbn [negb].
    rewrite length_map.
    rewrite encodeObject_loop_texts;
      [reflexivity | now destruct ps | assumption | lia].
  - cbn [roundtrips] in Hrt.
    apply andb_true_iff in Hrt as [Hne Hrt].
    assert (Hall : Forall (fun v => encodes_as (inject v) (json_text v)) vs).
    { apply forallb_Forall_imp with (2 := Hrt).
      eapply Forall_impl; [|exact IH]. cbn beta. intros v Hv H.
      destruct (Hv H) as (val & ? & ? & ? & _). now exists val. }
    exists (JString (json_text (JsonArray vs))). repeat split.
    cbn [inject encodeValue]. unfold encodeArray. rewrite length_map.
    rewrite encodeArray_loop_texts;
      [reflexivity | now destruct vs | assumption | lia].
Qed.

Lemma encode_roundtrips v :
  roundtrips v = true -> is_container v = true ->
  encode (inject v) = Ok (JString (json_text v)).
Proof.
  intros Hrt Hc.
  destruct (encodeValue_roundtrips v Hrt) as (val & Hval & _ & _ & Hs).
  rewrite (Hs Hc) in Hval. rewrite <- Hval.
  destruct v; try discriminate; reflexivity.
Qed.

(** ** Numbers: the parser follows the grammar *)

Lemma bind_return {A B} (m : Parser A) (k : A -> Parser B) c a c' :
  m c = Return a c' -> bind m k c = k a c'.
Proof. intros H. unfold bind. now rewrite H. Qed.

Lemma is_digit_not_blank c : is_digit c = true -> is_blank c = false.
Proof.
  unfold is_digit, is_blank. change (ch "0") with 48. change (ch "9") with 57.
  change (ch " ") with 32. intros H.
  apply andb_true_iff in H as [H1 H2]. apply N.leb_le in H1, H2.
  repeat (apply orb_false_iff; split); apply N.eqb_neq; lia.
Qed.

Lemma span_starts_plain inp ds r :
  span is_digit inp = (ds, r) -> starts_plain r = true -> starts_plain inp = true.
Proof.
  destruct inp as [|c inp]; simpl; [reflexivity|].
  destruct (is_digit c) eqn:E.
  - intros _ _. now rewrite is_digit_not_blank.
  - intros H. injection H as <- <-. auto.
Qed.

Lemma consume_any c r p :
  starts_plain r = true ->
  consume None {| rest := c :: r; pos := p |} = Return tt {| rest := r; pos := S p |}.
Proof. intros H. unfold consume. cbn [rest tl pos]. now rewrite skip_blanks_plain. Qed.

Lemma consume_plain e r p :
  starts_plain r = true ->
  consume (Some e) {| rest := e :: r; pos := p |} = Return tt {| rest := r; pos := S p |}.
Proof. intros H. rewrite consume_expected. now rewrite skip_blanks_plain. Qed.

Lemma parseDigits_loop_span inp :
  forall ds r, span is_digit inp = (ds, r) -> starts_plain r = true ->
  forall fuel str p, (length ds < fuel)%nat ->
  exists p', parseDigits_loop fuel str {| rest := inp; pos := p |}
             = Return (str ++ ds) {| rest := r; pos := p' |}.
Proof.
  induction inp as [|c inp IH]; intros ds r Hspan Hr fuel str p Hf;
    (destruct fuel as [|fuel]; [lia|]); cbn [span] in Hspan.
  - injection Hspan as <- <-. exists p. now rewrite app_nil_r.
  - cbn [parseDigits_loop]. unfold bind at 1. unfold currentToken.
    cbn [rest hd_error between]. fold (is_digit c).
    destruct (is_digit c) eqn:E.
    + destruct (span is_digit inp) as [a b] eqn:Es. injection Hspan as <- <-.
      rewrite (bind_return _ _ _ tt {| rest := inp; pos := S p |})
        by (apply consume_any; eapply span_starts_plain; eauto).
      destruct (IH a b eq_refl Hr fuel (str ++ chars (Some c)) (S p)) as [p' Hp'];
        [cbn [length] in Hf; lia|].
      exists p'. rewrite Hp'. cbn [chars]. now rewrite <- app_assoc.
    + injection Hspan as <- <-. exists p. now rewrite app_nil_r.
Qed.

Lemma read_digits_starts_plain s lex r :
  read_digits s = Some (lex, r) -> starts_plain s = true.
Proof.
  destruct s as [|c s]; [discriminate|]. cbn [read_digits starts_plain].
  destruct (c =? ch "0") eqn:E0.
  - apply N.eqb_eq in E0. subst. reflexivity.
  - destruct ((ch "1" <=? c) && (c <=? ch "9")) eqn:E; [|discriminate].
    intros _. rewrite is_digit_not_blank; [reflexivity|].
    unfold is_digit. apply andb_true_iff in E as [E1 E2]. rewrite E2.
    apply N.leb_le in E1. change (ch "1") with 49 in E1. change (ch "0") with 48.
    rewrite andb_true_r. apply N.leb_le. lia.
Qed.

Lemma parseDigits_read inp lex r :
  read_digits inp = Some (lex, r) -> starts_plain r = true ->
  forall fuel p, (length lex <= fuel)%nat ->
  exists p', parseDigits fuel {| rest := inp; pos := p |}
             = Return lex {| rest := r; pos := p' |}.
Proof.
  destruct inp as [|c inp]; [discriminate|]. cbn [read_digits].
  intros H Hr fuel p Hf. unfold parseDigits.
  unfold bind at 1. unfold currentToken. cbn [rest hd_error tok_is between].
  destruct (c =? ch "0") eqn:E0.
  - injection H as <- <-. exists (S p).
    now rewrite (bind_return _ _ _ tt {| rest := inp; pos := S p |})
      by (now apply consume_any).
  - destruct ((ch "1" <=? c) && (c <=? ch "9")) eqn:E; [|discriminate].
    destruct (span is_digit inp) as [ds r'] eqn:Es. injection H as <- <-.
    rewrite (bind_return _ _ _ tt {| rest := inp; pos := S p |})
      by (apply consume_any; eapply span_starts_plain; eauto).
    destruct (parseDigits_loop_span inp ds r' Es Hr fuel (chars (Some c)) (S p))
      as [p' Hp']; [cbn [length] in Hf; lia|].
    exists p'. exact Hp'.
Qed.
Lemma parse_sign inp sign s1 lex r p :
  read_sign inp = (sign, s1) -> read_digits s1 = Some (lex, r) ->
  exists p',
    (if tok_is (hd_error inp) (ch "-")
     then consume (Some (ch "-")) ;;; ret (js "-")
     else ret []) {| rest := inp; pos := p |}
    = Return sign {| rest := s1; pos := p' |}.
Proof.
  intros Hs Hd. destruct inp as [|c inp]; cbn [read_sign] in Hs.
  - injection Hs as <- <-. now exists p.
  - cbn [hd_error tok_is]. destruct (c =? ch "-") eqn:E.
    + apply N.eqb_eq in E. subst c. injection Hs as <- <-. exists (S p).
      rewrite (bind_return _ _ _ tt {| rest := inp; pos := S p |});
        [reflexivity|].
      apply consume_plain. eapply read_digits_starts_plain; eauto.
    + injection Hs as <- <-. now exists p.
Qed.

Lemma read_fraction_starts_plain s fr s' :
  read_fraction s = Some (fr, s') -> starts_plain s' = true ->
  starts_plain s = true.
Proof.
  destruct s as [|c s]; cbn [read_fraction]; [reflexivity|].
  destruct (c =? ch ".") eqn:E.
  - apply N.eqb_eq in E. subst. reflexivity.
  - intros H. now injection H as <- <-.
Qed.

Lemma read_exponent_starts_plain s ep s' :
  read_exponent s = Some (ep, s') -> starts_plain s' = true ->
  starts_plain s = true.
Proof.
  destruct s as [|c s]; cbn [read_exponent]; [reflexivity|].
  destruct ((c =? ch "e") || (c =? ch "E")) eqn:E.
  - apply orb_true_iff in E as [E|E]; apply N.eqb_eq in E; subst; reflexivity.
  - intros H. now injection H as <- <-.
Qed.

Lemma parse_fraction s fr s' str fuel p :
  read_fraction s = Some (fr, s') -> starts_plain s' = true ->
  (length fr <= fuel)%nat ->
  exists p',
    (tok <- currentToken ;;
     if tok_is tok (ch ".") then
       consume (Some (ch ".")) ;;;
       ds <- parseDigits fuel ;; ret (str ++ js "." ++ ds)
     else ret str) {| rest := s; pos := p |}
    = Return (str ++ fr) {| rest := s'; pos := p' |}.
Proof.
  intros H Hp Hf. unfold bind at 1. unfold currentToken. cbn [rest].
  destruct s as [|c s]; cbn [read_fraction hd_error tok_is] in *.
  - injection H as <- <-. exists p. now rewrite app_nil_r.
  - destruct (c =? ch ".") eqn:E.
    + apply N.eqb_eq in E. subst c.
      destruct (read_digits s) as [[fp s3]|] eqn:Ed; [|discriminate].
      injection H as <- <-.
      rewrite (bind_return _ _ _ tt {| rest := s; pos := S p |})
        by (apply consume_plain; eapply read_digits_starts_plain; eauto).
      destruct (parseDigits_read s fp s3 Ed Hp fuel (S p)) as [p' Hp'];
        [cbn [length] in Hf; lia|].
      exists p'. now rewrite (bind_return _ _ _ _ _ Hp').
    + injection H as <- <-. exists p. now rewrite app_nil_r.
Qed.

Lemma parse_exponent s ep s' str fuel p :
  read_exponent s = Some (ep, s') -> starts_plain s' = true ->
  (length ep <= fuel)%nat ->
  exists p',
    (tok <- currentToken ;;
     if tok_is tok (ch "e") || tok_is tok (ch "E") then
       let str := str ++ chars tok in
       consume None ;;;
       tok <- currentToken ;;
       str <- (if tok_is tok (ch "+") || tok_is tok (ch "-") then
                 consume None ;;; ret (str ++ chars tok)
               else ret str) ;;
       ds <- parseDigits fuel ;;
       ret (str ++ ds)
     else ret str) {| rest := s; pos := p |}
    = Return (str ++ ep) {| rest := s'; pos := p' |}.
Proof.
  intros H Hp Hf. unfold bind at 1. unfold currentToken. cbn [rest].
  destruct s as [|c s]; cbn [read_exponent hd_error tok_is orb] in *.
  - injection H as <- <-. exists p. now rewrite app_nil_r.
  - destruct ((c =? ch "e") || (c =? ch "E")) eqn:E.
    + destruct s as [|c' s].
      * cbn in H. discriminate.
      * cbv zeta.
        destruct ((c' =? ch "+") || (c' =? ch "-")) eqn:E'.
        -- destruct (read_digits s) as [[ed s4]|] eqn:Ed; [|discriminate].
           injection H as <- <-.
           rewrite (bind_return _ _ _ tt {| rest := c' :: s; pos := S p |}).
           2:{ apply consume_any. cbn [starts_plain].
               apply orb_true_iff in E' as [E'|E']; apply N.eqb_eq in E';
                 subst; reflexivity. }
           unfold bind at 1. cbn [rest hd_error tok_is]. rewrite E'.
           unfold bind at 1.
           rewrite (bind_return _ _ _ tt {| rest := s; pos := S (S p) |})
             by (apply consume_any; eapply read_digits_starts_plain; eauto).
           unfold ret at 1.
           destruct (parseDigits_read s ed s4 Ed Hp fuel (S (S p))) as [p' Hp'];
             [cbn [length app] in Hf; lia|].
           exists p'. rewrite (bind_return _ _ _ _ _ Hp'). unfold ret.
           cbn [chars app]. now rewrite <- !app_assoc.
        -- destruct (read_digits (c' :: s)) as [[ed s4]|] eqn:Ed; [|discriminate].
           injection H as <- <-.
           rewrite (bind_return _ _ _ tt {| rest := c' :: s; pos := S p |})
             by (apply consume_any; eapply read_digits_starts_plain; eauto).
           unfold bind at 1. cbn [rest hd_error tok_is]. rewrite E'.
           unfold bind at 1. unfold ret at 1.
           destruct (parseDigits_read (c' :: s) ed s4 Ed Hp fuel (S p)) as [p' Hp'];
             [cbn [length app] in Hf; lia|].
           exists p'. rewrite (bind_return _ _ _ _ _ Hp'). unfold ret.
           cbn [chars app]. now rewrite <- !app_assoc.
    + injection H as <- <-. exists p. now rewrite app_nil_r.
Qed.

Lemma parseNumber_read inp lex r :
  read_number inp = Some (lex, r) -> starts_plain r = true ->
  forall fuel p, (length lex <= fuel)%nat ->
  exists p', parseNumber fuel {| rest := inp; pos := p |}
             = Return (parseFloat lex) {| rest := r; pos := p' |}.
Proof.
  unfold read_number. intros H Hr fuel p Hf.
  destruct (read_sign inp) as [sign s1] eqn:Esg.
  destruct (read_digits s1) as [[ip s2]|] eqn:Eip; [|discriminate].
  destruct (read_fraction s2) as [[fr s3]|] eqn:Efr; [|discriminate].
  destruct (read_exponent s3) as [[ep s4]|] eqn:Eep; [|discriminate].
  injection H as <- <-. rewrite !length_app in Hf.
  assert (Hs3 : starts_plain s3 = true)
    by (eapply read_exponent_starts_plain; eauto).
  assert (Hs2 : starts_plain s2 = true)
    by (eapply read_fraction_starts_plain; eauto).
  unfold parseNumber. unfold bind at 1. unfold currentToken. cbn [rest].
  destruct (parse_sign inp sign s1 ip s2 p Esg Eip) as [p1 H1].
  rewrite (bind_return _ _ _ _ _ H1).
  destruct (parseDigits_read s1 ip s2 Eip Hs2 fuel p1) as [p2 H2]; [lia|].
  rewrite (bind_return _ _ _ _ _ H2).
  destruct (parse_fraction s2 fr s3 (sign ++ ip) fuel p2 Efr Hs3) as [p3 H3]; [lia|].
  unfold bind at 1 in H3. unfold currentToken in H3. cbn [rest] in H3.
  unfold bind at 1. cbn [rest]. rewrite (bind_return _ _ _ _ _ H3).
  destruct (parse_exponent s3 ep s4 ((sign ++ ip) ++ fr) fuel p3 Eep Hr) as [p4 H4]; [lia|].
  unfold bind at 1 in H4. unfold currentToken in H4. cbn [rest] in H4.
  unfold bind at 1. cbn [rest]. rewrite (bind_return _ _ _ _ _ H4).
  exists p4. unfold ret. now rewrite <- !app_assoc.
Qed.

(** ** Numbers: a lexeme followed by a delimiter *)

Lemma delimited_head tail :
  delimited tail = true ->
  starts_plain tail = true
  /\ match tail with
     | [] => True
     | c :: _ => is_digit c = false /\ (c =? ch ".") = false
                 /\ (c =? ch "e") = false /\ (c =? ch "E") = false
                 /\ (c =? ch "-") = false /\ (c =? ch "0") = false
                 /\ ((ch "1" <=? c) && (c <=? ch "9")) = false
     end.
Proof.
  destruct tail as [|c tail]; cbn [delimited]; [now split|].
  intros H.
  repeat match goal with
         | E : (_ || _) = true |- _ => apply orb_true_iff in E as [E|E]
         | E : (_ =? _) = true |- _ => apply N.eqb_eq in E; subst
         end; repeat split; reflexivity.
Qed.

Lemma span_app s tail a b :
  span is_digit s = (a, b) -> delimited tail = true ->
  span is_digit (s ++ tail) = (a, b ++ tail).
Proof.
  intros H Hd. revert a b H. induction s as [|c s IH]; intros a b H.
  - cbn in H. injection H as <- <-. cbn [app].
    destruct (delimited_head tail Hd) as [_ Ht].
    destruct tail as [|t tail]; [reflexivity|].
    cbn [span]. destruct Ht as (-> & _). reflexivity.
  - cbn [app span] in *. destruct (is_digit c).
    + destruct (span is_digit s) as [a' b'] eqn:E. injection H as <- <-.
      now rewrite (IH a' b' eq_refl).
    + now injection H as <- <-.
Qed.

Lemma read_digits_app s tail lex r :
  read_digits s = Some (lex, r) -> delimited tail = true ->
  read_digits (s ++ tail) = Some (lex, r ++ tail).
Proof.
  destruct s as [|c s]; [discriminate|]. cbn [read_digits app].
  intros H Hd. destruct (c =? ch "0").
  - now injection H as <- <-.
  - destruct ((ch "1" <=? c) && (c <=? ch "9")); [|discriminate].
    destruct (span is_digit s) as [a b] eqn:E. injection H as <- <-.
    now rewrite (span_app s tail a b E Hd).
Qed.

Lemma read_fraction_app s tail fr r :
  read_fraction s = Some (fr, r) -> delimited tail = true ->
  read_fraction (s ++ tail) = Some (fr, r ++ tail).
Proof.
  intros H Hd. destruct s as [|c s].
  - cbn in H. injection H as <- <-. cbn [app].
    destruct (delimited_head tail Hd) as [_ Ht].
    destruct tail as [|t tail]; [reflexivity|].
    cbn [read_fraction]. destruct Ht as (_ & -> & _). reflexivity.
  - cbn [read_fraction app] in *. destruct (c =? ch ".").
    + destruct (read_digits s) as [[fp s3]|] eqn:E; [|discriminate].
      injection H as <- <-. now rewrite (read_digits_app s tail fp s3 E Hd).
    + now injection H as <- <-.
Qed.

Lemma read_exponent_app s tail ep r :
  read_exponent s = Some (ep, r) -> delimited tail = true ->
  read_exponent (s ++ tail) = Some (ep, r ++ tail).
Proof.
  intros H Hd. destruct s as [|c s].
  - cbn in H. injection H as <- <-. cbn [app].
    destruct (delimited_head tail Hd) as [_ Ht].
    destruct tail as [|t tail]; [reflexivity|].
    cbn [read_exponent]. destruct Ht as (_ & _ & -> & -> & _). reflexivity.
  - cbn [read_exponent app] in *.
    destruct ((c =? ch "e") || (c =? ch "E")); [|now injection H as <- <-].
    destruct s as [|c' s]; [cbn in H; discriminate|]. cbn [app].
    destruct ((c' =? ch "+") || (c' =? ch "-")).
    + destruct (read_digits s) as [[ed s4]|] eqn:E; [|discriminate].
      injection H as <- <-. now rewrite (read_digits_app s tail ed s4 E Hd).
    + destruct (read_digits (c' :: s)) as [[ed s4]|] eqn:E; [|discriminate].
      injection H as <- <-.
      pose proof (read_digits_app (c' :: s) tail ed s4 E Hd) as R.
      cbn [app] in R. now rewrite R.
Qed.

Lemma read_number_app s tail lex r :
  read_number s = Some (lex, r) -> delimited tail = true ->
  read_number (s ++ tail) = Some (lex, r ++ tail).
Proof.
  unfold read_number. intros H Hd.
  destruct (read_sign s) as [sign s1] eqn:Es.
  destruct (read_digits s1) as [[ip s2]|] eqn:Ei; [|discriminate].
  destruct (read_fraction s2) as [[fr s3]|] eqn:Ef; [|discriminate].
  destruct (read_exponent s3) as [[ep s4]|] eqn:Ee; [|discriminate].
  injection H as <- <-.
  assert (Hs : read_sign (s ++ tail) = (sign, s1 ++ tail)).
  { destruct s as [|c s]; cbn [read_sign app] in *.
    - injection Es as <- <-. discriminate.
    - destruct (c =? ch "-"); now injection Es as <- <-. }
  rewrite Hs, (read_digits_app _ _ _ _ Ei Hd),
    (read_fraction_app _ _ _ _ Ef Hd), (read_exponent_app _ _ _ _ Ee Hd).
  reflexivity.
Qed.

Lemma span_whole s a b : span is_digit s = (a, b) -> s = a ++ b.
Proof.
  revert a b. induction s as [|c s IH]; intros a b H; cbn in H.
  - now injection H as <- <-.
  - destruct (is_digit c).
    + destruct (span is_digit s) as [a' b'] eqn:E. injection H as <- <-.
      cbn [app]. f_equal. now apply IH.
    + now injection H as <- <-.
Qed.

Lemma read_digits_whole s lex r : read_digits s = Some (lex, r) -> s = lex ++ r.
Proof.
  destruct s as [|c s]; [discriminate|]. cbn [read_digits].
  destruct (c =? ch "0"); [intros H; now injection H as <- <-|].
  destruct ((ch "1" <=? c) && (c <=? ch "9")); [|discriminate].
  destruct (span is_digit s) as [a b] eqn:E. intros H. injection H as <- <-.
  cbn [app]. f_equal. now apply span_whole.
Qed.

Lemma read_number_whole s lex r : read_number s = Some (lex, r) -> s = lex ++ r.
Proof.
  unfold read_number. intros H.
  destruct (read_sign s) as [sign s1] eqn:Es.
  destruct (read_digits s1) as [[ip s2]|] eqn:Ei; [|discriminate].
  destruct (read_fraction s2) as [[fr s3]|] eqn:Ef; [|discriminate].
  destruct (read_exponent s3) as [[ep s4]|] eqn:Ee; [|discriminate].
  injection H as <- <-.
  apply read_digits_whole in Ei.
  assert (Hf : s2 = fr ++ s3).
  { destruct s2 as [|c s2]; cbn [read_fraction] in Ef.
    - now injection Ef as <- <-.
    - destruct (c =? ch ".").
      + destruct (read_digits s2) as [[fp s']|] eqn:E; [|discriminate].
        injection Ef as <- <-. apply read_digits_whole in E. now subst.
      + now injection Ef as <- <-. }
  assert (He : s3 = ep ++ s4).
  { destruct s3 as [|c s3]; cbn [read_exponent] in Ee.
    - now injection Ee as <- <-.
    - destruct ((c =? ch "e") || (c =? ch "E")); [|now injection Ee as <- <-].
      destruct s3 as [|c' s3]; [cbn in Ee; discriminate|].
      destruct ((c' =? ch "+") || (c' =? ch "-")).
      + destruct (read_digits s3) as [[ed s']|] eqn:E; [|discriminate].
        injection Ee as <- <-. apply read_digits_whole in E. now subst.
      + destruct (read_digits (c' :: s3)) as [[ed s']|] eqn:E; [|discriminate].
        injection Ee as <- <-. apply read_digits_whole in E.
        cbn [app]. now rewrite E. }
  assert (Hs : s = sign ++ s1).
  { destruct s as [|c s]; cbn [read_sign] in Es.
    - now injection Es as <- <-.
    - destruct (c =? ch "-"); now injection Es as <- <-. }
  rewrite Hs, Ei, Hf, He. now rewrite <- !app_assoc.
Qed.

Lemma is_json_number_read s tail :
  is_json_number s = true -> delimited tail = true ->
  read_number (s ++ tail) = Some (s, tail).
Proof.
  unfold is_json_number. intros H Hd.
  destruct (read_number s) as [[lex [|? ?]]|] eqn:E; try discriminate.
  pose proof (read_number_whole s lex [] E) as Hw. rewrite app_nil_r in Hw.
  subst lex. exact (read_number_app s tail s [] E Hd).
Qed.

(** A number starts with a minus sign or a digit. *)
Lemma is_json_number_head s :
  is_json_number s = true ->
  exists c r, s = c :: r
              /\ (tok_is (Some c) (ch "-") || between (ch "0") (ch "9") (Some c)) = true.
Proof.
  unfold is_json_number, read_number. intros H.
  destruct (read_sign s) as [sign s1] eqn:Es.
  destruct (read_digits s1) as [[ip s2]|] eqn:Ei; [|discriminate].
  destruct s as [|c s]; cbn [read_sign] in Es.
  - injection Es as <- <-. discriminate.
  - exists c, s. split; [reflexivity|]. cbn [tok_is between].
    destruct (c =? ch "-"); [reflexivity|]. injection Es as <- <-.
    cbn [read_digits] in Ei. cbn [orb].
    destruct (c =? ch "0") eqn:E0.
    + apply N.eqb_eq in E0. now subst.
    + destruct ((ch "1" <=? c) && (c <=? ch "9")) eqn:E; [|discriminate].
      apply andb_true_iff in E as [E1 E2]. rewrite E2, andb_true_r.
      apply N.leb_le in E1. apply N.leb_le.
      change (ch "1") with 49 in E1. change (ch "0") with 48. lia.
Qed.

(** ** Numbers: what is printed is read back *)

Lemma digit_value_char d : digit_value (digit_char d) = d.
Proof. unfold digit_value, digit_char. lia. Qed.

Lemma map_digit_value_char ds : map digit_value (map digit_char ds) = ds.
Proof.
  induction ds as [|d ds IH]; [reflexivity|].
  cbn [map]. now rewrite digit_value_char, IH.
Qed.

Lemma is_digit_char d : (d <=? 9) = true -> is_digit (digit_char d) = true.
Proof.
  intros H. apply N.leb_le in H. unfold is_digit, digit_char.
  change (ch "0") with 48. change (ch "9") with 57.
  apply andb_true_iff. split; apply N.leb_le; lia.
Qed.

Lemma span_digit_chars ds r :
  forallb (fun d => d <=? 9) ds = true ->
  span is_digit (map digit_char ds ++ r)
  = (map digit_char ds ++ fst (span is_digit r), snd (span is_digit r)).
Proof.
  induction ds as [|d ds IH]; intros H; cbn [map app].
  - now destruct (span is_digit r).
  - cbn [forallb] in H. apply andb_true_iff in H as [Hd Hds].
    cbn [span]. rewrite (is_digit_char d Hd), (IH Hds). reflexivity.
Qed.

Lemma strip_zeros_repeat m l :
  strip_zeros (repeat 0 m ++ l)
  = (fst (strip_zeros l), (m + snd (strip_zeros l))%nat).
Proof.
  induction m as [|m IH]; cbn [repeat app].
  - now destruct (strip_zeros l).
  - cbn [strip_zeros]. now rewrite IH.
Qed.

Lemma strip_zeros_nonzero d l : (d =? 0) = false -> strip_zeros (d :: l) = (d :: l, O).
Proof. intros H. apply N.eqb_neq in H. destruct d; [congruence | reflexivity]. Qed.

Lemma rev_repeat_zero m : rev (repeat 0 m) = repeat 0 m.
Proof.
  induction m as [|m IH]; [reflexivity|]. cbn [repeat rev]. rewrite IH.
  clear IH. induction m as [|m IH]; [reflexivity|].
  cbn [repeat app]. now rewrite IH.
Qed.

Lemma rev_head_last (d : N) ds :
  exists l, rev (d :: ds) = last (d :: ds) 1 :: l.
Proof.
  destruct (exists_last (l := d :: ds) ltac:(discriminate)) as (l' & a & E).
  rewrite E, last_last, rev_app_distr. now exists (rev l').
Qed.

(** Zeros in front and at the end of canonical digits are dropped, and the
    exponent follows. *)
Lemma normalize_padded neg a b d ds n :
  (d =? 0) = false -> (last (d :: ds) 1 =? 0) = false ->
  normalize neg (repeat 0 a ++ (d :: ds) ++ repeat 0 b) n
  = Finite neg (d :: ds) (n - Z.of_nat a).
Proof.
  intros Hd Hl. unfold normalize.
  rewrite strip_zeros_repeat. cbn [app].
  rewrite strip_zeros_nonzero by exact Hd. cbn [fst snd].
  change (d :: ds ++ repeat 0 b) with ((d :: ds) ++ repeat 0 b).
  rewrite rev_app_distr, rev_repeat_zero, strip_zeros_repeat.
  destruct (rev_head_last d ds) as [l El]. rewrite El.
  rewrite strip_zeros_nonzero by exact Hl. cbn [fst].
  rewrite <- El, rev_involutive. now rewrite Nat.add_0_r.
Qed.

Lemma digits_of_N_aux_app fuel :
  forall n acc, digits_of_N_aux fuel n acc = digits_of_N_aux fuel n [] ++ acc.
Proof.
  induction fuel as [|fuel IH]; intros n acc; [reflexivity|].
  cbn [digits_of_N_aux]. destruct (n <? 10); [reflexivity|].
  rewrite (IH _ (n mod 10 :: acc)), (IH _ [n mod 10]).
  now rewrite <- app_assoc.
Qed.

Lemma N_of_digits_snoc l d : N_of_digits (l ++ [d]) = 10 * N_of_digits l + d.
Proof. unfold N_of_digits. now rewrite fold_left_app. Qed.

Lemma digits_of_N_aux_spec fuel :
  forall n, n < 2 ^ N.of_nat fuel ->
    let ds := digits_of_N_aux (S fuel) n [] in
    N_of_digits ds = n /\ ds <> [] /\ forallb (fun d => d <=? 9) ds = true.
Proof.
  induction fuel as [|fuel IH]; intros n Hn; cbn zeta.
  - assert (n = 0) by (change (2 ^ N.of_nat 0) with 1 in Hn; lia). subst. split; [|split]; [reflexivity | discriminate | reflexivity].
  - cbn [digits_of_N_aux]. destruct (n <? 10) eqn:E.
    + apply N.ltb_lt in E. split; [|split].
      * unfold N_of_digits. cbn [fold_left]. lia.
      * discriminate.
      * cbn [forallb]. rewrite andb_true_r. apply N.leb_le. lia.
    + apply N.ltb_ge in E.
      fold (digits_of_N_aux (S fuel)).
      change (if n / 10 <? 10 then n / 10 :: [n mod 10]
              else digits_of_N_aux fuel (n / 10 / 10) [n / 10 mod 10; n mod 10])
        with (digits_of_N_aux (S fuel) (n / 10) [n mod 10]).
      rewrite digits_of_N_aux_app.
      assert (Hlt : n / 10 < 2 ^ N.of_nat fuel).
      { rewrite Nat2N.inj_succ, N.pow_succ_r' in Hn.
        apply N.Div0.div_lt_upper_bound. lia. }
      destruct (IH (n / 10) Hlt) as (H1 & H2 & H3).
      split; [|split].
      * rewrite N_of_digits_snoc, H1.
        pose proof (N.div_mod n 10 ltac:(lia)). lia.
      * intros H. now apply app_eq_nil in H as [_ H].
      * rewrite forallb_app, H3. cbn [forallb].
        rewrite andb_true_r. apply N.leb_le.
        pose proof (N.mod_lt n 10 ltac:(lia)). lia.
Qed.

Lemma digits_of_N_spec n :
  N_of_digits (digits_of_N n) = n /\ digits_of_N n <> []
  /\ forallb (fun d => d <=? 9) (digits_of_N n) = true.
Proof.
  unfold digits_of_N. apply digits_of_N_aux_spec.
  rewrite N2Nat.id. apply N.size_gt.
Qed.

Lemma is_digit_facts c :
  is_digit c = true ->
  is_StrWhiteSpaceChar c = false /\ (c =? ch "-") = false
  /\ (c =? ch "+") = false /\ (c =? ch "I") = false.
Proof.
  unfold is_digit. change (ch "0") with 48. change (ch "9") with 57.
  intros H. apply andb_true_iff in H as [H1 H2]. apply N.leb_le in H1, H2.
  assert (c = 48 \/ c = 49 \/ c = 50 \/ c = 51 \/ c = 52 \/ c = 53 \/ c = 54
          \/ c = 55 \/ c = 56 \/ c = 57) as Hc by lia.
  repeat destruct Hc as [Hc|Hc]; subst; repeat split; reflexivity.
Qed.

(** A text made of integer digits [I], fraction digits [F] and an exponent
    part is read as the number of digits [I ++ F]. *)
Lemma read_unsigned_decimal_parts neg I F etext e :
  forallb (fun d => d <=? 9) I = true -> I <> [] ->
  forallb (fun d => d <=? 9) F = true ->
  (etext = [] \/ exists r, etext = ch "e" :: r) ->
  read_exponent_part etext = (e, []) ->
  read_unsigned_decimal neg
    (map digit_char I
       ++ match F with [] => [] | _ => ch "." :: map digit_char F end ++ etext)
  = Some (normalize neg (I ++ F) (Z.of_nat (length I) + e), []).
Proof.
  intros HI HIne HF He Hexp. unfold read_unsigned_decimal.
  destruct I as [|i I]; [congruence|].
  assert (Hi : is_digit (digit_char i) = true).
  { apply is_digit_char. cbn [forallb] in HI. now apply andb_true_iff in HI as [? _]. }
  destruct (is_digit_facts _ Hi) as (_ & _ & _ & HnI).
  replace (starts_with (js "Infinity") (map digit_char (i :: I) ++ _)) with false
    by (cbn [map app js list_ascii_of_string starts_with]; now rewrite N.eqb_sym, HnI).
  rewrite span_digit_chars by exact HI.
  assert (Hspan : forall R, (R = [] \/ (exists r, R = ch "e" :: r) \/ exists r, R = ch "." :: r) ->
                  span is_digit R = ([], R)).
  { intros R [->|[[r ->]|[r ->]]]; reflexivity. }
  destruct F as [|f F].
  - cbn [app]. rewrite Hspan by tauto. cbn [fst snd]. rewrite !app_nil_r.
    destruct He as [->|[r ->]].
    + cbv iota. rewrite app_nil_r. cbn [map]. rewrite Hexp.
      rewrite digit_value_char, map_digit_value_char. cbn [length].
      rewrite length_map. reflexivity.
    + change (ch "e" =? ch ".") with false. cbv iota.
      rewrite app_nil_r. cbn [map]. rewrite Hexp.
      rewrite digit_value_char, map_digit_value_char. cbn [length].
      rewrite length_map. reflexivity.
  - rewrite Hspan by (right; right; eexists; reflexivity).
    cbn [fst snd app]. change (ch "." =? ch ".") with true. cbv iota.
    change (ch "." :: map digit_char (f :: F) ++ etext)
      with (ch "." :: (map digit_char (f :: F) ++ etext)).
    rewrite span_digit_chars by exact HF. rewrite Hspan by tauto.
    cbn [fst snd]. rewrite !app_nil_r. cbn [map app].
    rewrite Hexp. rewrite !digit_value_char, map_app, !map_digit_value_char.
    cbn [map]. rewrite !digit_value_char, !map_digit_value_char.
    cbn [length]. rewrite length_map. reflexivity.
Qed.

Lemma read_exponent_part_printed (e : Z) :
  read_exponent_part
    (js "e" ++ (if (e <? 0)%Z then js "-" else js "+")
       ++ map digit_char (digits_of_N (Z.abs_N e)))
  = (e, []).
Proof.
  destruct (digits_of_N_spec (Z.abs_N e)) as (Hv & Hne & H9).
  pose proof (span_digit_chars (digits_of_N (Z.abs_N e)) [] H9) as Hs.
  rewrite app_nil_r in Hs. cbn [span fst snd] in Hs. rewrite app_nil_r in Hs.
  destruct (digits_of_N (Z.abs_N e)) as [|d ds] eqn:Ed; [congruence|].
  unfold read_exponent_part.
  destruct (e <? 0)%Z eqn:E; cbn [js list_ascii_of_string map app];
    change (ch "e" =? ch "e") with true; cbn [orb]; cbv iota.
  - change (ch "-" =? ch "-") with true. cbv iota.
    change (digit_char d :: map digit_char ds) with (map digit_char (d :: ds)).
    rewrite Hs. cbn [map]. rewrite digit_value_char, map_digit_value_char.
    change (d :: ds) with (d :: ds) in Hv. rewrite Hv.
    apply Z.ltb_lt in E. f_equal. lia.
  - change (ch "+" =? ch "-") with false. change (ch "+" =? ch "+") with true.
    cbv iota.
    change (digit_char d :: map digit_char ds) with (map digit_char (d :: ds)).
    rewrite Hs. cbn [map]. rewrite digit_value_char, map_digit_value_char.
    rewrite Hv. apply Z.ltb_ge in E. f_equal. lia.
Qed.

Lemma parseFloat_signed neg body c r x :
  body = c :: r -> is_digit c = true ->
  read_unsigned_decimal neg body = Some (x, []) ->
  parseFloat ((if neg then js "-" else []) ++ body) = x.
Proof.
  intros -> Hc Hx. destruct (is_digit_facts c Hc) as (Hs & Hm & Hp & _).
  unfold parseFloat. destruct neg.
  - cbn [js list_ascii_of_string map app drop_while].
    change (is_StrWhiteSpaceChar (ch "-")) with false. cbv iota.
    unfold read_decimal. change (ch "-" =? ch "-") with true. cbv iota.
    now rewrite Hx.
  - cbn [app drop_while]. rewrite Hs. unfold read_decimal. rewrite Hm, Hp.
    now rewrite Hx.
Qed.

Lemma forallb_repeat_zero m : forallb (fun d => d <=? 9) (repeat 0 m) = true.
Proof. induction m as [|m IH]; [reflexivity|]. exact IH. Qed.

Lemma map_digit_char_zeros m : map digit_char (repeat 0 m) = repeat (ch "0") m.
Proof. induction m as [|m IH]; [reflexivity|]. cbn [repeat map]. now rewrite IH. Qed.

Lemma forallb_firstn_skipn {A} (f : A -> bool) m l :
  forallb f l = true ->
  forallb f (firstn m l) = true /\ forallb f (skipn m l) = true.
Proof.
  intros H. rewrite <- (firstn_skipn m l), forallb_app in H.
  now apply andb_true_iff in H.
Qed.

Ltac finish_number :=
  match goal with
  | |- Some (Finite _ _ ?a, _) = Some (Finite _ _ ?n, _) =>
      replace a with n by lia; reflexivity
  end.

(** What [Number::toString] prints, [parseFloat] reads back, negative zero
    as zero. *)
Lemma parseFloat_Number_toString x :
  wf_number x = true ->
  parseFloat (Number_toString x)
  = match x with Finite _ [] _ => Finite false [] 0 | _ => x end.
Proof.
  destruct x as [|neg|neg [|d ds'] n]; intros Hwf;
    [reflexivity | destruct neg; reflexivity | reflexivity |].
  cbn [wf_number] in Hwf. apply andb_true_iff in Hwf as [Hwf Hl].
  apply andb_true_iff in Hwf as [H9 Hd].
  apply negb_true_iff in Hl, Hd.
  assert (Hd9 : is_digit (digit_char d) = true).
  { apply is_digit_char. cbn [forallb] in H9. now apply andb_true_iff in H9 as [? _]. }
  assert (Hpad : forall a b N, normalize neg (repeat 0 a ++ (d :: ds') ++ repeat 0 b) N
                               = Finite neg (d :: ds') (N - Z.of_nat a))
    by (intros; now apply normalize_padded).
  unfold Number_toString.
  assert (Hk : (0 < Z.of_nat (length (d :: ds')))%Z) by (cbn [length]; lia).
  destruct ((Z.of_nat (length (d :: ds')) <=? n) && (n <=? 21))%Z eqn:E1.
  - apply andb_true_iff in E1 as [E1 _]. apply Z.leb_le in E1.
    apply parseFloat_signed with (c := digit_char d)
      (r := map digit_char ds'
              ++ repeat (ch "0") (Z.to_nat (n - Z.of_nat (length (d :: ds')))));
      [reflexivity | exact Hd9 |].
    pose proof (read_unsigned_decimal_parts neg
                  ((d :: ds') ++ repeat 0 (Z.to_nat (n - Z.of_nat (length (d :: ds')))))
                  [] [] 0%Z) as H.
    rewrite map_app, map_digit_char_zeros, !app_nil_r in H.
    rewrite H; clear H.
    + specialize (Hpad O (Z.to_nat (n - Z.of_nat (length (d :: ds'))))
                    (Z.of_nat (length ((d :: ds') ++ repeat 0%N (Z.to_nat (n - Z.of_nat (length (d :: ds')))))) + 0)%Z).
      cbn [repeat] in Hpad. change ([] ++ ?l) with l in Hpad. rewrite Hpad.
      rewrite length_app, repeat_length. finish_number.
    + rewrite forallb_app, H9. apply forallb_repeat_zero.
    + discriminate.
    + reflexivity.
    + now left.
    + reflexivity.
  - destruct ((0 <? n) && (n <=? 21))%Z eqn:E2.
    + apply andb_true_iff in E2 as [E2 E2']. apply Z.ltb_lt in E2.
      rewrite E2', andb_true_r in E1. apply Z.leb_gt in E1.
      assert (Hn : (0 < Z.to_nat n < length (d :: ds'))%nat) by lia.
      destruct (forallb_firstn_skipn _ (Z.to_nat n) _ H9) as [Hf Hs].
      destruct (firstn (Z.to_nat n) (d :: ds')) as [|i I] eqn:EI.
      { apply (f_equal (@length _)) in EI. rewrite length_firstn in EI.
        cbn [length] in *. lia. }
      destruct (skipn (Z.to_nat n) (d :: ds')) as [|f F] eqn:EF.
      { apply (f_equal (@length _)) in EF. rewrite length_skipn in EF.
        cbn [length] in *. lia. }
      assert (Ei : i = d).
      { destruct (Z.to_nat n); [lia|]. cbn [firstn] in EI. now injection EI. }
      subst i.
      apply parseFloat_signed with (c := digit_char d)
        (r := map digit_char I ++ js "." ++ map digit_char (f :: F));
        [reflexivity | exact Hd9 |].
      pose proof (read_unsigned_decimal_parts neg (d :: I) (f :: F) [] 0%Z) as H.
      rewrite !app_nil_r in H. cbn [map app] in H |- *.
      change (js "." ++ ?l) with (ch "." :: l).
      rewrite H; clear H; try reflexivity; try assumption; try discriminate; try (now left).
      assert (Hds : (d :: I) ++ f :: F = d :: ds')
        by (rewrite <- EI, <- EF; apply firstn_skipn).
      assert (Hlen : length (d :: I) = Z.to_nat n).
      { rewrite <- EI, length_firstn. lia. }
      specialize (Hpad O O (Z.of_nat (length (d :: I)) + 0)%Z).
      cbn [repeat] in Hpad. change ([] ++ ?l) with l in Hpad.
      rewrite app_nil_r in Hpad.
      cbn [app] in Hds. rewrite Hds, Hpad, Hlen. finish_number.
    + destruct ((-6 <? n) && (n <=? 0))%Z eqn:E3.
      * apply andb_true_iff in E3 as [_ E3]. apply Z.leb_le in E3.
        apply parseFloat_signed with (c := ch "0")
          (r := ch "." :: repeat (ch "0") (Z.to_nat (- n))
                  ++ map digit_char (d :: ds'));
          [reflexivity | reflexivity |].
        pose proof (read_unsigned_decimal_parts neg [0]
                      (repeat 0 (Z.to_nat (- n)) ++ d :: ds') [] 0%Z) as H.
        rewrite map_app, map_digit_char_zeros, !app_nil_r in H.
        assert (HF : match repeat 0 (Z.to_nat (- n)) ++ d :: ds' with
                     | [] => []
                     | _ :: _ => ch "." :: repeat (ch "0") (Z.to_nat (- n))
                                   ++ map digit_char (d :: ds')
                     end
                     = ch "." :: repeat (ch "0") (Z.to_nat (- n))
                         ++ map digit_char (d :: ds'))
          by (destruct (Z.to_nat (- n)); reflexivity).
        rewrite HF in H. clear HF. cbn [map app] in H |- *.
        change (digit_char 0) with (ch "0") in H.
        change (js "0." ++ ?l) with (ch "0" :: ch "." :: l).
        rewrite H; clear H; try reflexivity; try discriminate; try (now left).
        -- specialize (Hpad (S (Z.to_nat (- n))) O (Z.of_nat (length [0%N]) + 0)%Z).
           cbn [repeat app] in Hpad. rewrite app_nil_r in Hpad.
           rewrite Hpad. cbn [length]. finish_number.
        -- rewrite forallb_app, forallb_repeat_zero. exact H9.
      * pose proof (read_unsigned_decimal_parts neg [d] ds'
                      (js "e" ++ (if (n - 1 <? 0)%Z then js "-" else js "+")
                         ++ map digit_char (digits_of_N (Z.abs_N (n - 1))))
                      (n - 1)%Z) as H.
        cbn [forallb] in H, H9. apply andb_true_iff in H9 as [H9d H9s].
        rewrite H9d in H.
        specialize (H eq_refl ltac:(discriminate) H9s
                      ltac:(right; eexists; reflexivity)
                      (read_exponent_part_printed (n - 1))).
        specialize (Hpad O O (Z.of_nat (length [d]) + (n - 1))%Z).
        cbn [repeat] in Hpad. change ([] ++ ?l) with l in Hpad.
        rewrite app_nil_r in Hpad.
        change ([d] ++ ds') with (d :: ds') in H. rewrite Hpad in H.
        cbn [length] in H.
        replace (Z.of_nat 1 + (n - 1) - Z.of_nat 0)%Z with n in H by lia.
        destruct ds' as [|f F].
        -- apply parseFloat_signed with (c := digit_char d)
             (r := js "e" ++ (if (n - 1 <? 0)%Z then js "-" else js "+")
                     ++ map digit_char (digits_of_N (Z.abs_N (n - 1))));
             [reflexivity | exact Hd9 | exact H].
        -- apply parseFloat_signed with (c := digit_char d)
             (r := js "." ++ map digit_char (f :: F)
                     ++ js "e" ++ (if (n - 1 <? 0)%Z then js "-" else js "+")
                     ++ map digit_char (digits_of_N (Z.abs_N (n - 1))));
             [reflexivity | exact Hd9 | exact H].
Qed.
Lemma lossy_number x :
  wf_number x = true ->
  JsonNumber (parseFloat (Number_toString x)) = lossy (JsonNumber x).
Proof.
  intros H. rewrite (parseFloat_Number_toString x H).
  destruct x as [| |neg [|d ds] n]; reflexivity.
Qed.

(** ** The parser on the texts of the encoder *)

Lemma parseValue_number fuel c r p :
  (tok_is (Some c) (ch "-") || between (ch "0") (ch "9") (Some c)) = true ->
  parseValue (S fuel) {| rest := c :: r; pos := p |}
  = (x <- parseNumber fuel ;; ret (JsonNumber x)) {| rest := c :: r; pos := p |}.
Proof.
  intros H. cbn [parseValue]. unfold bind at 1. unfold currentToken.
  cbn [rest hd_error]. rewrite H.
  assert (Hc : c = 45 \/ 48 <= c <= 57).
  { cbn [tok_is between] in H. apply orb_true_iff in H as [H|H].
    - apply N.eqb_eq in H. now left.
    - apply andb_true_iff in H as [H1 H2]. apply N.leb_le in H1, H2.
      right. split; assumption. }
  assert (E1 : tok_is (Some c) (ch "{") = false)
    by (apply N.eqb_neq; change (ch "{") with 123; lia).
  assert (E2 : tok_is (Some c) (ch "[") = false)
    by (apply N.eqb_neq; change (ch "[") with 91; lia).
  assert (E3 : tok_is (Some c) c_quote = false)
    by (apply N.eqb_neq; unfold c_quote; lia).
  now rewrite E1, E2, E3.
Qed.

Lemma parseValue_literals fuel tail p :
  starts_plain tail = true ->
  (exists p', parseValue (S fuel) {| rest := js "true" ++ tail; pos := p |}
              = Return (JsonBoolean true) {| rest := tail; pos := p' |})
  /\ (exists p', parseValue (S fuel) {| rest := js "false" ++ tail; pos := p |}
                 = Return (JsonBoolean false) {| rest := tail; pos := p' |})
  /\ (exists p', parseValue (S fuel) {| rest := js "null" ++ tail; pos := p |}
                 = Return JsonNull {| rest := tail; pos := p' |}).
Proof.
  intros H. repeat split; eexists; cbn; rewrite skip_blanks_plain by exact H;
    reflexivity.
Qed.

(** The text of a value starts with a character that is no blank and no
    closing bracket. *)
Lemma json_text_head v :
  roundtrips v = true ->
  exists c r, json_text v = c :: r /\ is_blank c = false
              /\ (c =? ch "]") = false /\ (c =? ch "}") = false.
Proof.
  assert (Hnum : forall s, is_json_number s = true ->
                 exists c r, s = c :: r /\ is_blank c = false
                             /\ (c =? ch "]") = false /\ (c =? ch "}") = false).
  { intros s Hs. destruct (is_json_number_head s Hs) as (c & r & -> & Hc).
    exists c, r. split; [reflexivity|].
    assert (Hv : c = 45 \/ 48 <= c <= 57).
    { cbn [tok_is between] in Hc. apply orb_true_iff in Hc as [H|H].
      - apply N.eqb_eq in H. now left.
      - apply andb_true_iff in H as [H1 H2]. apply N.leb_le in H1, H2.
        right. split; assumption. }
    unfold is_blank. change (ch " ") with 32. change (ch "]") with 93.
    change (ch "}") with 125.
    repeat split; repeat (apply orb_false_iff; split); apply N.eqb_neq; lia. }
  destruct v as [s|x|b| |ps|vs]; cbn [roundtrips json_text]; intros H.
  - destruct (isNaN (StringToNumber s)); [|now apply Hnum].
    exists c_quote, (s ++ [c_quote]). repeat split.
  - apply andb_true_iff in H as [_ H]. now apply Hnum.
  - destruct b; eexists; eexists; repeat split.
  - eexists; eexists; repeat split.
  - eexists; eexists; repeat split.
  - eexists; eexists; repeat split.
Qed.

Lemma json_text_starts_plain v tail :
  roundtrips v = true -> starts_plain (json_text v ++ tail) = true.
Proof.
  intros H. destruct (json_text_head v H) as (c & r & -> & Hb & _).
  cbn [app starts_plain]. now rewrite Hb.
Qed.

Lemma reads_back_bound vs :
  Forall reads_back vs ->
  exists n, Forall (fun v => forall fuel tail p,
                        (n <= fuel)%nat -> delimited tail = true ->
                        exists p',
                          parseValue fuel {| rest := json_text v ++ tail; pos := p |}
                          = Return (lossy v) {| rest := tail; pos := p' |}) vs.
Proof.
  induction 1 as [|v vs [n Hn] _ [m Hm]].
  - exists O. constructor.
  - exists (max n m). constructor.
    + intros fuel tail p Hf. apply Hn. lia.
    + eapply Forall_impl; [|exact Hm]. cbn beta.
      intros w Hw fuel tail p Hf. apply Hw. lia.
Qed.

Lemma json_text_not_closing v tail :
  roundtrips v = true ->
  tok_is (hd_error (json_text v ++ tail)) (ch "]") = false
  /\ tok_is (hd_error (json_text v ++ tail)) (ch "}") = false.
Proof.
  intros H. destruct (json_text_head v H) as (c & r & -> & _ & H1 & H2).
  now split.
Qed.

Section Elements.

Variable f : nat.

(** The loop of [parseArray] on the texts of [vs], separated by commas and
    followed by the closing bracket. *)
Lemma parseArray_loop_elements vs :
  vs <> [] ->
  forallb roundtrips vs = true ->
  Forall (fun v => forall tail p,
              delimited tail = true ->
              exists p',
                parseValue f {| rest := json_text v ++ tail; pos := p |}
                = Return (lossy v) {| rest := tail; pos := p' |}) vs ->
  forall n arr tail p,
    (length vs < n)%nat ->
    exists p',
      parseArray_loop (parseValue f) n arr
        {| rest := join_with (js ",") (map json_text vs) ++ ch "]" :: tail;
           pos := p |}
      = Return (arr ++ map lossy vs) {| rest := ch "]" :: tail; pos := p' |}.
Proof.
  induction vs as [|v vs IH]; intros Hne Hrt Hall n arr tail p Hn; [congruence|].
  inversion Hall as [|? ? Hv Hall']; subst.
  cbn [forallb] in Hrt. apply andb_true_iff in Hrt as [Hrtv Hrt].
  destruct n as [|n]; [cbn [length] in Hn; lia|].
  destruct vs as [|v' vs].
  - cbn [map join_with]. rewrite app_nil_r.
    cbn [parseArray_loop]. unfold bind at 1. unfold currentToken. cbn [rest].
    destruct (json_text_not_closing v (ch "]" :: tail) Hrtv) as [-> _].
    cbn [negb].
    destruct (Hv (ch "]" :: tail) p eq_refl) as [p1 H1].
    rewrite (bind_return _ _ _ _ _ H1).
    unfold bind at 1. cbn [rest hd_error tok_is].
    change (ch "]" =? ch ",") with false.
    change (ch "]" =? ch "]") with true. cbn [negb].
    destruct n as [|n]; [cbn [length] in Hn; lia|].
    exists p1. reflexivity.
  - set (Y := js "," ++ join_with (js ",") (map json_text (v' :: vs))
                ++ ch "]" :: tail).
    replace (join_with (js ",") (map json_text (v :: v' :: vs)) ++ ch "]" :: tail)
      with (json_text v ++ Y)
      by (unfold Y; cbn [map join_with]; now rewrite <- !app_assoc).
    cbn [parseArray_loop]. unfold bind at 1. unfold currentToken. cbn [rest].
    destruct (json_text_not_closing v Y Hrtv) as [-> _]. cbn [negb].
    destruct (Hv Y p eq_refl) as [p1 H1].
    rewrite (bind_return _ _ _ _ _ H1).
    unfold bind at 1. unfold Y at 1. cbn [rest hd_error tok_is app js map list_ascii_of_string].
    change (ch "," =? ch ",") with true. cbv iota.
    rewrite (bind_return _ _ _ tt
               {| rest := join_with (js ",") (map json_text (v' :: vs))
                            ++ ch "]" :: tail; pos := S p1 |}).
    2:{ apply consume_plain. cbn [map join_with]. rewrite <- app_assoc.
        apply json_text_starts_plain. cbn [forallb] in Hrt.
        now apply andb_true_iff in Hrt as [? _]. }
    destruct (IH ltac:(discriminate) Hrt Hall' n (arr ++ [lossy v]) tail (S p1))
      as [p2 H2]; [cbn [length] in *; lia|].
    exists p2. rewrite H2. cbn [map]. now rewrite <- app_assoc.
Qed.

End Elements.

Section Members.

Variable f : nat.

Lemma parsePair_member k v Y n p :
  clean k = true -> roundtrips v = true -> (length k < n)%nat ->
  (forall tail p,
      delimited tail = true ->
      exists p',
        parseValue f {| rest := json_text v ++ tail; pos := p |}
        = Return (lossy v) {| rest := tail; pos := p' |}) ->
  delimited Y = true ->
  exists p',
    parsePair (parseValue f) n
      {| rest := ([c_quote] ++ k ++ [c_quote] ++ js ":" ++ json_text v) ++ Y;
         pos := p |}
    = Return (k, lossy v) {| rest := Y; pos := p' |}.
Proof.
  intros Hk Hrt Hn Hv HY. unfold clean in Hk.
  apply andb_true_iff in Hk as [Hk1 Hk2].
  unfold parsePair.
  replace (([c_quote] ++ k ++ [c_quote] ++ js ":" ++ json_text v) ++ Y)
    with (c_quote :: [] ++ k ++ c_quote :: (ch ":" :: json_text v ++ Y))
    by (cbn [app]; rewrite <- !app_assoc; reflexivity).
  rewrite (bind_return _ _ _ _ _
             (parseString_literal [] k _ p n eq_refl Hk1 Hk2 Hn)).
  cbn [skip_blanks]. change (is_blank (ch ":")) with false. cbv iota.
  rewrite (bind_return _ _ _ tt
             {| rest := json_text v ++ Y; pos := S (p + length (@nil code_unit) + length k + 2) |})
    by (apply consume_plain; now apply json_text_starts_plain).
  destruct (Hv Y (S (p + length (@nil code_unit) + length k + 2)) HY) as [p1 H1].
  rewrite (bind_return _ _ _ _ _ H1). now exists p1.
Qed.

(** The loop of [parseObject] on the texts of the members [ps], separated
    by commas and followed by the closing brace. *)
Lemma parseObject_loop_text ps K :
  ps <> [] ->
  Forall (fun kv => clean (fst kv) = true /\ roundtrips (snd kv) = true
                    /\ (length (fst kv) <= K)%nat) ps ->
  Forall (fun kv => forall tail p,
              delimited tail = true ->
              exists p',
                parseValue f {| rest := json_text (snd kv) ++ tail; pos := p |}
                = Return (lossy (snd kv)) {| rest := tail; pos := p' |}) ps ->
  forall n obj tail p,
    (length ps + K < n)%nat ->
    exists p',
      parseObject_loop (parseValue f) n obj
        {| rest := join_with (js ",") (map member_text ps) ++ ch "}" :: tail;
           pos := p |}
      = Return (assign_all (map (fun kv => (fst kv, lossy (snd kv))) ps) obj)
               {| rest := ch "}" :: tail; pos := p' |}.
Proof.
  induction ps as [|[k v] ps IH]; intros Hne Hok Hall n obj tail p Hn; [congruence|].
  inversion Hall as [|? ? Hv Hall']; subst.
  inversion Hok as [|? ? (Hk & Hrt & HK) Hok']; subst.
  cbn [fst snd] in *.
  destruct n as [|n]; [cbn [length] in Hn; lia|].
  assert (Hq : forall Y, negb (tok_is (hd_error (member_text (k, v) ++ Y)) (ch "}")) = true)
    by reflexivity.
  destruct ps as [|kv' ps].
  - cbn [map join_with]. rewrite app_nil_r.
    cbn [parseObject_loop]. unfold bind at 1. unfold currentToken. cbn [rest].
    rewrite Hq.
    destruct (parsePair_member k v (ch "}" :: tail) n p Hk Hrt
                ltac:(cbn [length] in Hn; lia) Hv eq_refl) as [p1 H1].
    unfold member_text at 1. cbn [fst snd].
    rewrite (bind_return _ _ _ _ _ H1).
    unfold bind at 1. cbn [rest hd_error tok_is fst snd].
    change (ch "}" =? ch ",") with false.
    change (ch "}" =? ch "}") with true. cbn [negb].
    destruct n as [|n]; [cbn [length] in Hn; lia|].
    exists p1. reflexivity.
  - set (Y := js "," ++ join_with (js ",") (map member_text (kv' :: ps))
                ++ ch "}" :: tail).
    replace (join_with (js ",") (map member_text ((k, v) :: kv' :: ps))
               ++ ch "}" :: tail)
      with (member_text (k, v) ++ Y)
      by (unfold Y; cbn [map join_with]; now rewrite <- !app_assoc).
    cbn [parseObject_loop]. unfold bind at 1. unfold currentToken. cbn [rest].
    rewrite Hq.
    destruct (parsePair_member k v Y n p Hk Hrt
                ltac:(cbn [length] in Hn; lia) Hv eq_refl) as [p1 H1].
    unfold member_text at 1. cbn [fst snd].
    rewrite (bind_return _ _ _ _ _ H1).
    unfold bind at 1. unfold Y at 1.
    cbn [rest hd_error tok_is app js map list_ascii_of_string fst snd].
    change (ch "," =? ch ",") with true. cbv iota.
    rewrite (bind_return _ _ _ tt
               {| rest := join_with (js ",") (map member_text (kv' :: ps))
                            ++ ch "}" :: tail; pos := S p1 |}).
    2:{ apply consume_plain. reflexivity. }
    destruct (IH ltac:(discriminate) Hok' Hall' n (assign k (lossy v) obj) tail (S p1))
      as [p2 H2]; [cbn [length] in *; lia|].
    exists p2. rewrite H2. reflexivity.
Qed.

End Members.

(** ** Keys in the order of enumeration *)

Lemma precedes_irrefl k : precedes k k = false.
Proof.
  unfold precedes. destruct (array_index k).
  - apply N.ltb_irrefl.
  - now rewrite jsstring_eqb_refl.
Qed.

Lemma lookup_None key (obj : properties_of) :
  Forall (fun kv => precedes (fst kv) key = true) obj -> lookup key obj = None.
Proof.
  induction 1 as [|[k v] obj Hk _ IH]; [reflexivity|].
  cbn [lookup fst] in *. destruct (jsstring_eqb k key) eqn:E; [|exact IH].
  apply jsstring_eqb_eq in E. subst. now rewrite precedes_irrefl in Hk.
Qed.

Lemma insert_index_last i key v (obj : properties_of) :
  array_index key = Some i ->
  Forall (fun kv => precedes (fst kv) key = true) obj ->
  insert_index i key v obj = obj ++ [(key, v)].
Proof.
  intros Hi. induction 1 as [|[k0 v0] obj Hk _ IH]; [reflexivity|].
  cbn [insert_index app fst] in *. unfold precedes in Hk. rewrite Hi in Hk.
  destruct (array_index k0) as [j|]; [|discriminate].
  now rewrite Hk, IH.
Qed.

Lemma assign_last key v (obj : properties_of) :
  jsstring_eqb key (js "__proto__") = false ->
  Forall (fun kv => precedes (fst kv) key = true) obj ->
  assign key v obj = obj ++ [(key, v)].
Proof.
  intros Hp Hall. unfold assign. rewrite Hp, (lookup_None key obj Hall).
  destruct (array_index key) as [i|] eqn:Ei; [|reflexivity].
  now apply insert_index_last.
Qed.

Lemma assign_all_enumeration (ps obj : properties_of) :
  enumeration_order (map fst ps) = true ->
  Forall (fun kv => jsstring_eqb (fst kv) (js "__proto__") = false) ps ->
  Forall (fun kv0 => Forall (fun kv => precedes (fst kv0) (fst kv) = true) ps) obj ->
  assign_all ps obj = obj ++ ps.
Proof.
  revert obj. induction ps as [|[k v] ps IH]; intros obj Ho Hp Hobj.
  - cbn. now rewrite app_nil_r.
  - cbn [map enumeration_order fst] in Ho.
    apply andb_true_iff in Ho as [Hk Ho].
    inversion Hp as [|? ? Hpk Hp']; subst. cbn [fst] in Hpk.
    unfold assign_all. cbn [fold_left fst snd]. fold (assign_all ps (assign k v obj)).
    rewrite assign_last; [|assumption|].
    2:{ eapply Forall_impl; [|exact Hobj]. cbn beta.
        intros kv0 H0. now inversion H0. }
    rewrite IH; [now rewrite <- app_assoc | assumption | assumption |].
    apply Forall_app. split.
    + eapply Forall_impl; [|exact Hobj]. cbn beta.
      intros kv0 H0. now inversion H0.
    + constructor; [|constructor]. cbn [fst].
      apply Forall_forall. intros kv Hin.
      rewrite forallb_forall in Hk. apply Hk. now apply in_map.
Qed.

(** ** Every value of the round trip is read back *)

Lemma reads_back_number s :
  is_json_number s = true ->
  exists n, forall fuel tail p,
      (n <= fuel)%nat -> delimited tail = true ->
      exists p',
        parseValue fuel {| rest := s ++ tail; pos := p |}
        = Return (JsonNumber (parseFloat s)) {| rest := tail; pos := p' |}.
Proof.
  intros Hs. exists (S (length s)). intros fuel tail p Hf Hd.
  destruct fuel as [|fuel]; [lia|].
  destruct (is_json_number_head s Hs) as (c & r & Es & Hc).
  pose proof (is_json_number_read s tail Hs Hd) as Hr.
  destruct (delimited_head tail Hd) as [Hp _].
  destruct (parseNumber_read (s ++ tail) s tail Hr Hp fuel p) as [p' Hp']; [lia|].
  exists p'. rewrite Es in *. cbn [app] in *.
  rewrite parseValue_number by exact Hc.
  now rewrite (bind_return _ _ _ _ _ Hp').
Qed.

Lemma Forall_length_bound (ps : list (jsstring * JsonValue)) :
  exists K, Forall (fun kv => (length (fst kv) <= K)%nat) ps.
Proof.
  induction ps as [|kv ps [K HK]].
  - exists O. constructor.
  - exists (max (length (fst kv)) K). constructor; [apply Nat.le_max_l|].
    eapply Forall_impl; [|exact HK]. cbn beta. intros kv' H.
    etransitivity; [exact H | apply Nat.le_max_r].
Qed.

Lemma parseValue_object fuel r p :
  parseValue (S fuel) {| rest := ch "{" :: r; pos := p |}
  = parseObject (parseValue fuel) fuel {| rest := ch "{" :: r; pos := p |}.
Proof. reflexivity. Qed.

Lemma parseValue_array fuel r p :
  parseValue (S fuel) {| rest := ch "[" :: r; pos := p |}
  = parseArray (parseValue fuel) fuel {| rest := ch "[" :: r; pos := p |}.
Proof. reflexivity. Qed.

Lemma json_text_object ps tail :
  json_text (JsonObject ps) ++ tail
  = ch "{" :: join_with (js ",") (map member_text ps) ++ ch "}" :: tail.
Proof. cbn [json_text]. rewrite <- !app_assoc. reflexivity. Qed.

Lemma json_text_array vs tail :
  json_text (JsonArray vs) ++ tail
  = ch "[" :: join_with (js ",") (map json_text vs) ++ ch "]" :: tail.
Proof. cbn [json_text]. rewrite <- !app_assoc. reflexivity. Qed.

Lemma parseValue_roundtrips v : roundtrips v = true -> reads_back v.
Proof.
  induction v as [s|x|b| |ps IH|vs IH] using JsonValue_induction;
    intros Hrt; unfold reads_back.
  - cbn [roundtrips json_text lossy] in *.
    destruct (isNaN (StringToNumber s)); [|now apply reads_back_number].
    unfold clean in Hrt. apply andb_true_iff in Hrt as [H1 H2].
    exists (length s + 2)%nat. intros fuel tail p Hf Hd.
    destruct fuel as [|fuel]; [lia|].
    destruct (delimited_head tail Hd) as [Hp _].
    rewrite parseValue_string by reflexivity.
    replace (([c_quote] ++ s ++ [c_quote]) ++ tail)
      with (c_quote :: [] ++ s ++ c_quote :: tail)
      by (cbn [app]; now rewrite <- app_assoc).
    rewrite (bind_return _ _ _ _ _
               (parseString_literal [] s tail p fuel eq_refl H1 H2 ltac:(lia))).
    rewrite skip_blanks_plain by exact Hp. eexists. reflexivity.
  - cbn [roundtrips json_text] in *.
    apply andb_true_iff in Hrt as [Hwf Hnum].
    rewrite <- (lossy_number x Hwf).
    now apply reads_back_number.
  - exists 1%nat. intros fuel tail p Hf Hd.
    destruct fuel as [|fuel]; [lia|].
    destruct (delimited_head tail Hd) as [Hp _].
    destruct (parseValue_literals fuel tail p Hp) as (Ht & Hfalse & _).
    destruct b; assumption.
  - exists 1%nat. intros fuel tail p Hf Hd.
    destruct fuel as [|fuel]; [lia|].
    destruct (delimited_head tail Hd) as [Hp _].
    now destruct (parseValue_literals fuel tail p Hp) as (_ & _ & Hn).
  - cbn [roundtrips] in Hrt.
    apply andb_true_iff in Hrt as [Hrt Hord].
    apply andb_true_iff in Hrt as [Hne Hrt].
    assert (Hne' : ps <> []) by (now destruct ps).
    assert (Hrb : Forall reads_back (map snd ps)).
    { apply Forall_map. apply forallb_Forall_imp with (2 := Hrt).
      eapply Forall_impl; [|exact IH]. cbn beta. intros kv Hkv H.
      apply andb_true_iff in H as [_ H]. auto. }
    destruct (reads_back_bound _ Hrb) as [n0 Hn0].
    destruct (Forall_length_bound ps) as [K HK].
    exists (S (max n0 (length ps + K + 1))). intros fuel tail p Hf Hd.
    destruct fuel as [|fuel]; [lia|].
    destruct (delimited_head tail Hd) as [Hp _].
    assert (Hok : Forall (fun kv => clean (fst kv) = true
                                    /\ roundtrips (snd kv) = true
                                    /\ (length (fst kv) <= K)%nat) ps).
    { rewrite forallb_forall in Hrt. rewrite Forall_forall in *.
      intros kv Hin. specialize (Hrt kv Hin).
      apply andb_true_iff in Hrt as [Hrt H3].
      apply andb_true_iff in Hrt as [H1 H2]. auto. }
    assert (Hall : Forall (fun kv => forall tail p,
                delimited tail = true ->
                exists p',
                  parseValue fuel {| rest := json_text (snd kv) ++ tail; pos := p |}
                  = Return (lossy (snd kv)) {| rest := tail; pos := p' |}) ps).
    { apply Forall_map in Hn0. eapply Forall_impl; [|exact Hn0]. cbn beta.
      intros kv H tl q Hq. apply H; [lia | assumption]. }
    destruct (parseObject_loop_text fuel ps K Hne' Hok Hall fuel [] tail (S p))
      as [p1 H1]; [lia|].
    rewrite json_text_object, parseValue_object. cbn [lossy].
    unfold parseObject.
    rewrite (bind_return _ _ _ tt
               {| rest := join_with (js ",") (map member_text ps) ++ ch "}" :: tail;
                  pos := S p |}).
    2:{ apply consume_plain. destruct ps as [|kv ps]; [congruence|].
        reflexivity. }
    rewrite (bind_return _ _ _ _ _ H1).
    rewrite (bind_return _ _ _ tt {| rest := tail; pos := S p1 |})
      by (now apply consume_plain).
    exists (S p1). unfold ret. do 2 f_equal.
    rewrite assign_all_enumeration; [reflexivity | | | constructor].
    + rewrite map_map. cbn [fst]. exact Hord.
    + apply Forall_map. cbn [fst]. rewrite forallb_forall in Hrt.
      apply Forall_forall. intros kv Hin. specialize (Hrt kv Hin).
      apply andb_true_iff in Hrt as [Hrt _].
      apply andb_true_iff in Hrt as [_ H2]. now apply negb_true_iff in H2.
  - cbn [roundtrips] in Hrt.
    apply andb_true_iff in Hrt as [Hne Hrt].
    assert (Hne' : vs <> []) by (now destruct vs).
    assert (Hrb : Forall reads_back vs).
    { apply forallb_Forall_imp with (2 := Hrt).
      eapply Forall_impl; [|exact IH]. auto. }
    destruct (reads_back_bound _ Hrb) as [n0 Hn0].
    exists (S (max n0 (length vs + 1))). intros fuel tail p Hf Hd.
    destruct fuel as [|fuel]; [lia|].
    destruct (delimited_head tail Hd) as [Hp _].
    assert (Hall : Forall (fun v => forall tail p,
                delimited tail = true ->
                exists p',
                  parseValue fuel {| rest := json_text v ++ tail; pos := p |}
                  = Return (lossy v) {| rest := tail; pos := p' |}) vs).
    { eapply Forall_impl; [|exact Hn0]. cbn beta.
      intros v H tl q Hq. apply H; [lia | assumption]. }
    destruct (parseArray_loop_elements fuel vs Hne' Hrt Hall fuel [] tail (S p))
      as [p1 H1]; [lia|].
    rewrite json_text_array, parseValue_array. cbn [lossy].
    unfold parseArray.
    rewrite (bind_return _ _ _ tt
               {| rest := join_with (js ",") (map json_text vs) ++ ch "]" :: tail;
                  pos := S p |}).
    2:{ apply consume_plain. destruct vs as [|v vs]; [congruence|].
        cbn [map join_with]. rewrite <- app_assoc.
        apply json_text_starts_plain. cbn [forallb] in Hrt.
        now apply andb_true_iff in Hrt as [? _]. }
    rewrite (bind_return _ _ _ _ _ H1).
    rewrite (bind_return _ _ _ tt {| rest := tail; pos := S p1 |})
      by (now apply consume_plain).
    exists (S p1). reflexivity.
Qed.

(** ** The round trip *)

Lemma roundtrip_decodes v :
  roundtrips v = true -> is_container v = true ->
  decodes (json_text v) (Ok (lossy v)).
Proof.
  intros Hrt Hc. destruct (parseValue_roundtrips v Hrt) as [n Hn].
  exists (S n). intros fuel Hf. destruct fuel as [|fuel]; [lia|].
  destruct (Hn (S fuel) [] O ltac:(lia) eq_refl) as [p' Hp'].
  rewrite app_nil_r in Hp'.
  apply decode_value with p'; [|exact Hp'].
  destruct v; try discriminate; reflexivity.
Qed.

(** C1 (as amended): for every array or object built from [null], numbers
    whose printed form the parser's grammar accepts, strings that unary
    plus reads as no number and that have no double quote, no backslash and
    no blank in front, strings that are themselves a number of the parser's
    grammar, and non-empty arrays and objects of them, with keys that have
    no double quote, no backslash and no blank in front, other than
    [__proto__] and [toString], distinct and in the order of enumeration,
    [encode] yields a text that [decode] reads back as the same value,
    except that a string that is a number comes back as that number and
    negative zero as zero.  A string that unary plus reads as a number
    without its being a number of the grammar (the empty string,
    [Infinity], [0x1F]) is left out, and so is an object with a property
    [toString], for which [encodeValue] throws a [TypeError]. *)
Theorem encode_decode_roundtrip (v : JsonValue) :
  roundtrips v = true -> toString_free v = true -> is_container v = true ->
  exists text,
    encode (inject v) = Ok (JString text) /\ decodes text (Ok (lossy v)).
Proof.
  intros Hrt _ Hc. exists (json_text v). split.
  - now apply encode_roundtrips.
  - now apply roundtrip_decodes.
Qed.

Lemma encode_decode_roundtrip_witness :
  let v := JsonArray
             [jnum 1; JsonString (js "a b"); JsonString (js "42"); JsonNull;
              JsonObject [(js "1", jnum (-12));
                          (js "b", JsonArray [JsonNumber (Finite false [1; 5] 1)]);
                          (js "a", JsonString (js "-1.5e3"))]] in
  exists text,
    encode (inject v) = Ok (JString text)
    /\ decodes text
         (Ok (JsonArray
                [jnum 1; JsonString (js "a b"); jnum 42; JsonNull;
                 JsonObject [(js "1", jnum (-12));
                             (js "b", JsonArray [JsonNumber (Finite false [1; 5] 1)]);
                             (js "a", jnum (-1500))]])).
Proof.
  intros v. apply (encode_decode_roundtrip v); reflexivity.
Defined.

(** C1 (as stated) fails: a string with a blank in front comes back without
    it, a string with a double quote is written to a text that [decode]
    rejects, and so is the number 0.05. *)
Lemma roundtrip_counterexamples :
  (encode (JArray [JString (js " a")]) = Ok (JString (jq "[' a']"))
   /\ decodes (jq "[' a']") (Ok (JsonArray [JsonString (js "a")]))
   /\ ~ decodes (jq "[' a']") (Ok (JsonArray [JsonString (js " a")])))
  /\ (encode (JArray [JString (jq "a'b")]) = Ok (JString (jq "['a'b']"))
      /\ decodes (jq "['a'b']") (Err (InvalidArray 4)))
  /\ (encode (JArray [JNumber (Finite false [5] (-1))]) = Ok (JString (js "[0.05]"))
      /\ decodes (js "[0.05]") (Err (InvalidArray 4))).
Proof.
  assert (H : decodes (jq "[' a']") (Ok (JsonArray [JsonString (js "a")])))
    by (apply decodes_at with 10%nat; reflexivity).
  repeat split; try reflexivity; try exact H;
    try (apply decodes_at with 10%nat; reflexivity).
  intros H'. pose proof (decodes_unique _ _ _ H H'). discriminate.
Qed.

(** The strings that the amended C1 leaves out, which unary plus reads as a
    number without their being a number of the parser's grammar, are
    written bare and do not come back: the empty string leaves nothing
    between the brackets, and [0x1F] is a text that [decode] rejects. *)
Lemma strings_read_as_numbers_do_not_come_back :
  (encode (JArray [JString []]) = Ok (JString (js "[]"))
   /\ decodes (js "[]") (Ok (JsonArray [])))
  /\ (encode (JArray [JString (js "0x1F")]) = Ok (JString (js "[0x1F]"))
      /\ decodes (js "[0x1F]") (Err (InvalidArray 2))).
Proof.
  repeat split; try reflexivity; apply decodes_at with 10%nat; reflexivity.
Qed.

(** ** A key that comes twice *)












(** * Further properties of the parser and of the encoder *)

(** ** The cursor only moves forward *)

Lemma advances_refl c : advances c c.
Proof. split; [lia|]. now rewrite Nat.sub_diag. Qed.

Lemma advances_trans c1 c2 c3 :
  advances c1 c2 -> advances c2 c3 -> advances c1 c3.
Proof.
  intros [L1 R1] [L2 R2]. split; [lia|].
  rewrite R2, R1, skipn_skipn. f_equal. lia.
Qed.

Lemma advances_length c c' :
  advances c c' -> (length (rest c') <= length (rest c))%nat.
Proof. intros [_ R]. rewrite R, length_skipn. lia. Qed.

Lemma consumes_length {A} (p : Parser A) c a c' :
  consumes p -> p c = Return a c' ->
  (length (rest c') < length (rest c))%nat.
Proof.
  intros Hp H. destruct (Hp c a c' H) as ([_ R] & Hlt & Hne).
  rewrite R, length_skipn. destruct (rest c); [congruence|]. cbn [length]. lia.
Qed.

Lemma consumes_moves {A} (p : Parser A) : consumes p -> moves p.
Proof. intros H c a c' E. now destruct (H c a c' E). Qed.

Lemma moves_ret {A} (a : A) : moves (ret a).
Proof. intros c x c' H. injection H as _ <-. apply advances_refl. Qed.

Lemma moves_throw {A} e : moves (@throw A e).
Proof. intros c x c' H. discriminate. Qed.

Lemma moves_out {A} : moves (@out_of_fuel A).
Proof. intros c x c' H. discriminate. Qed.

Lemma moves_currentToken : moves currentToken.
Proof. intros c x c' H. injection H as _ <-. apply advances_refl. Qed.

Lemma moves_bind {A B} (p : Parser A) (k : A -> Parser B) :
  moves p -> (forall a, moves (k a)) -> moves (bind p k).
Proof.
  intros Hp Hk c b c' H. unfold bind in H.
  destruct (p c) as [a c1| |] eqn:E; try discriminate.
  eapply advances_trans; [eapply Hp | eapply Hk]; eauto.
Qed.

Lemma consumes_bind_l {A B} (p : Parser A) (k : A -> Parser B) :
  consumes p -> (forall a, moves (k a)) -> consumes (bind p k).
Proof.
  intros Hp Hk c b c' H. unfold bind in H.
  destruct (p c) as [a c1| |] eqn:E; try discriminate.
  destruct (Hp c a c1 E) as (H1 & H2 & H3).
  pose proof (Hk a c1 b c' H) as H4. split; [|split].
  - eapply advances_trans; eauto.
  - destruct H4. lia.
  - exact H3.
Qed.

Lemma consumes_bind_r {A B} (p : Parser A) (k : A -> Parser B) :
  moves p -> (forall a, consumes (k a)) -> consumes (bind p k).
Proof.
  intros Hp Hk c b c' H. unfold bind in H.
  destruct (p c) as [a c1| |] eqn:E; try discriminate.
  pose proof (Hp c a c1 E) as H1.
  destruct (Hk a c1 b c' H) as (H2 & H3 & H4). split; [|split].
  - eapply advances_trans; eauto.
  - destruct H1. lia.
  - destruct H1 as [_ R]. intros E0. rewrite E0, skipn_nil in R. contradiction.
Qed.

Lemma skip_blanks_advances r p :
  advances {| rest := r; pos := p |} (skip_blanks r p).
Proof.
  revert p. induction r as [|x r IH]; intros p; cbn [skip_blanks].
  - apply advances_refl.
  - destruct (is_blank x); [|apply advances_refl].
    eapply advances_trans; [|apply IH].
    split; cbn [pos rest]; [lia|].
    replace (S p - p)%nat with 1%nat by lia. reflexivity.
Qed.

Lemma advances_next c :
  advances c (skip_blanks (tl (rest c)) (S (pos c))).
Proof.
  eapply advances_trans; [|apply skip_blanks_advances].
  split; cbn [pos rest]; [lia|].
  replace (S (pos c) - pos c)%nat with 1%nat by lia. now destruct (rest c).
Qed.

Lemma moves_consume e : moves (consume e).
Proof.
  intros c x c' H. unfold consume in H.
  destruct e as [e|];
    [destruct (negb (tok_is (hd_error (rest c)) e)); [discriminate|]|];
    injection H as _ <-; apply advances_next.
Qed.

Lemma consumes_consume e : consumes (consume (Some e)).
Proof.
  intros c x c' H. split; [now apply (moves_consume (Some e) c x c')|].
  unfold consume in H.
  destruct (negb (tok_is (hd_error (rest c)) e)) eqn:E; [discriminate|].
  injection H as _ <-. split.
  - pose proof (skip_blanks_advances (tl (rest c)) (S (pos c))) as [L _].
    cbn [pos] in L. lia.
  - intros E0. rewrite E0 in E. discriminate.
Qed.

(** [consume()] after a look at a character that is there. *)
Lemma consumes_consume_any {A} (k : Parser A) c a c' :
  rest c <> [] -> moves k ->
  (consume None ;;; k) c = Return a c' ->
  advances c c' /\ (pos c < pos c')%nat /\ rest c <> [].
Proof.
  intros Hne Hk H. unfold bind, consume in H.
  pose proof (advances_next c) as H1.
  pose proof (Hk _ _ _ H) as H2.
  split; [eapply advances_trans; eauto|]. split; [|exact Hne].
  pose proof (skip_blanks_advances (tl (rest c)) (S (pos c))) as [L _].
  cbn [pos] in L. destruct H2. lia.
Qed.

Lemma moves_advance k : moves (advance k).
Proof.
  intros c x c' H. injection H as _ <-. split; cbn [pos rest]; [lia|].
  f_equal. lia.
Qed.

Ltac moves_step :=
  match goal with
  | |- moves (bind _ _) => apply moves_bind; [| intro]
  | |- moves (if ?b then _ else _) => destruct b
  | |- moves (ret _) => apply moves_ret
  | |- moves (throw _) => apply moves_throw
  | |- moves out_of_fuel => apply moves_out
  | |- moves currentToken => apply moves_currentToken
  | |- moves (consume _) => apply moves_consume
  | |- moves (advance _) => apply moves_advance
  | |- moves (let _ := _ in _) => cbv zeta
  end.

Lemma moves_consumeWhitespace n : moves (consumeWhitespace n).
Proof.
  induction n as [|n IH]; cbn [consumeWhitespace]; repeat moves_step.
  exact IH.
Qed.

Lemma moves_hasNext n : moves (hasNext n).
Proof. unfold hasNext. repeat moves_step. apply moves_consumeWhitespace. Qed.

Lemma moves_parseEscape : moves parseEscape.
Proof.
  unfold parseEscape. repeat moves_step.
  intros c x c' H. destruct (parseInt16 (firstn 4 (rest c))); [|discriminate].
  revert c x c' H. change (moves (advance 4 ;;; ret (String_fromCharCode z))).
  repeat moves_step.
Qed.

Lemma consumes_parseEscape : consumes parseEscape.
Proof.
  unfold parseEscape. apply consumes_bind_l; [apply consumes_consume|].
  intros _. repeat moves_step.
  intros c x c' H. destruct (parseInt16 (firstn 4 (rest c))); [|discriminate].
  revert c x c' H. change (moves (advance 4 ;;; ret (String_fromCharCode z))).
  repeat moves_step.
Qed.

Lemma moves_parseString_loop n : forall str, moves (parseString_loop n str).
Proof.
  induction n as [|n IH]; intros str; cbn [parseString_loop]; repeat moves_step;
    try apply IH.
  apply moves_parseEscape.
Qed.

Lemma consumes_parseString n : consumes (parseString n).
Proof.
  unfold parseString. apply consumes_bind_l; [apply consumes_consume|].
  intros _. repeat moves_step. apply moves_parseString_loop.
Qed.

Lemma moves_parseDigits_loop n : forall str, moves (parseDigits_loop n str).
Proof.
  induction n as [|n IH]; intros str; cbn [parseDigits_loop]; repeat moves_step.
  apply IH.
Qed.

Lemma consumes_parseDigits n : consumes (parseDigits n).
Proof.
  intros c x c' H. unfold parseDigits in H.
  unfold bind at 1 in H. unfold currentToken in H.
  destruct (rest c) as [|t r] eqn:Er; [discriminate|].
  assert (Hne : rest c <> []) by (rewrite Er; discriminate).
  cbn [hd_error] in H. rewrite <- Er.
  destruct (tok_is (Some t) (ch "0")).
  - apply (consumes_consume_any _ c x c' Hne (moves_ret _) H).
  - destruct (between (ch "1") (ch "9") (Some t)); [|discriminate].
    apply (consumes_consume_any _ c x c' Hne (moves_parseDigits_loop n _) H).
Qed.

Lemma consumes_parseNumber n : consumes (parseNumber n).
Proof.
  unfold parseNumber. apply consumes_bind_r; [apply moves_currentToken|].
  intros tok. apply consumes_bind_r; [repeat moves_step|].
  intros str. apply consumes_bind_l; [apply consumes_parseDigits|].
  intros ds. repeat moves_step;
    apply consumes_moves, consumes_parseDigits.
Qed.

Lemma consumes_literals :
  consumes parseTrue /\ consumes parseFalse /\ consumes parseNull.
Proof.
  split; [|split]; (apply consumes_bind_l; [apply consumes_consume|]);
    intros _; repeat moves_step.
Qed.

Section DescentMoves.

Variable pv : Parser JsonValue.
Hypothesis Hpv : consumes pv.

Lemma consumes_parsePair n : consumes (parsePair pv n).
Proof.
  unfold parsePair. apply consumes_bind_l; [apply consumes_parseString|].
  intros key. repeat moves_step. now apply consumes_moves.
Qed.

Lemma moves_parseObject_loop n : forall obj, moves (parseObject_loop pv n obj).
Proof.
  induction n as [|n IH]; intros obj; cbn [parseObject_loop];
    repeat moves_step; try apply IH.
  apply consumes_moves, consumes_parsePair.
Qed.

Lemma consumes_parseObject n : consumes (parseObject pv n).
Proof.
  unfold parseObject. apply consumes_bind_l; [apply consumes_consume|].
  intros _. repeat moves_step. apply moves_parseObject_loop.
Qed.

Lemma moves_parseArray_loop n : forall arr, moves (parseArray_loop pv n arr).
Proof.
  induction n as [|n IH]; intros arr; cbn [parseArray_loop];
    repeat moves_step; try apply IH.
  now apply consumes_moves.
Qed.

Lemma consumes_parseArray n : consumes (parseArray pv n).
Proof.
  unfold parseArray. apply consumes_bind_l; [apply consumes_consume|].
  intros _. repeat moves_step. apply moves_parseArray_loop.
Qed.

End DescentMoves.

Lemma consumes_parseValue n : consumes (parseValue n).
Proof.
  induction n as [|n IH]; [intros c x c' H; discriminate|].
  cbn [parseValue]. destruct consumes_literals as (Ht & Hf & Hn).
  apply consumes_bind_r; [apply moves_currentToken|]. intros tok.
  repeat match goal with
         | |- consumes (if ?b then _ else _) => destruct b
         end.
  - now apply consumes_parseObject.
  - now apply consumes_parseArray.
  - apply consumes_bind_l; [apply consumes_parseString | intro; apply moves_ret].
  - apply consumes_bind_l; [apply consumes_parseNumber | intro; apply moves_ret].
  - apply consumes_bind_l; [exact Ht | intro; apply moves_ret].
  - apply consumes_bind_l; [exact Hf | intro; apply moves_ret].
  - apply consumes_bind_l; [exact Hn | intro; apply moves_ret].
  - intros c x c' H. discriminate.
Qed.

(** ** Fuel beyond the length of the input changes nothing *)

Lemma agree_bind {A B} (p q : Parser A) (k k' : A -> Parser B) c :
  q c = p c ->
  (forall a c1, p c = Return a c1 -> k' a c1 = k a c1) ->
  bind q k' c = bind p k c.
Proof.
  intros Hq Hk. unfold bind. rewrite Hq.
  destruct (p c) as [a c1| |]; auto.
Qed.

Lemma bind_currentToken {B} (k : option code_unit -> Parser B) c :
  bind currentToken k c = k (hd_error (rest c)) c.
Proof. reflexivity. Qed.

Lemma next_length c :
  rest c <> [] ->
  (length (rest (skip_blanks (tl (rest c)) (S (pos c)))) < length (rest c))%nat.
Proof.
  intros Hne.
  pose proof (advances_length _ _ (skip_blanks_advances (tl (rest c)) (S (pos c)))) as H.
  cbn [rest] in H. destruct (rest c); [congruence|]. cbn [tl length] in *. lia.
Qed.

Lemma consume_any_length c x c' :
  rest c <> [] -> consume None c = Return x c' ->
  (length (rest c') < length (rest c))%nat.
Proof. intros Hne H. injection H as _ <-. now apply next_length. Qed.

Lemma consumeWhitespace_settled n :
  forall m c, (length (rest c) < n)%nat -> (n <= m)%nat ->
              consumeWhitespace m c = consumeWhitespace n c.
Proof.
  induction n as [|n IH]; intros m c Hl Hm; [lia|].
  destruct m as [|m]; [lia|]. cbn [consumeWhitespace].
  rewrite !bind_currentToken.
  destruct (rest c) as [|t r] eqn:Er; [reflexivity|]. cbn [hd_error].
  destruct (test_space (Some t)); [|reflexivity].
  apply agree_bind; [reflexivity|]. intros [] c1 H1.
  apply IH; [|lia].
  pose proof (consume_any_length c tt c1 ltac:(rewrite Er; discriminate) H1).
  rewrite Er in *. cbn [length] in *. lia.
Qed.

Lemma hasNext_settled n m c :
  (length (rest c) < n)%nat -> (n <= m)%nat -> hasNext m c = hasNext n c.
Proof.
  intros Hl Hm. unfold hasNext. apply agree_bind; [|reflexivity].
  now apply consumeWhitespace_settled.
Qed.

Lemma parseString_loop_settled n :
  forall m str c, (length (rest c) < n)%nat -> (n <= m)%nat ->
                  parseString_loop m str c = parseString_loop n str c.
Proof.
  induction n as [|n IH]; intros m str c Hl Hm; [lia|].
  destruct m as [|m]; [lia|]. cbn [parseString_loop].
  rewrite !bind_currentToken.
  destruct (negb (tok_is (hd_error (rest c)) c_quote)); [|reflexivity].
  destruct (tok_is (hd_error (rest c)) c_backslash).
  - apply agree_bind; [reflexivity|]. intros e c1 H1.
    apply IH; [|lia].
    pose proof (consumes_length _ _ _ _ consumes_parseEscape H1). lia.
  - apply agree_bind; [reflexivity|]. intros [] c1 H1.
    injection H1 as <-. destruct c as [[|t r] p]; cbn [rest pos skipn] in *.
    + now rewrite !parseString_loop_no_quote.
    + apply IH; [cbn [rest length] in *; lia | lia].
Qed.

Lemma parseString_settled n m c :
  (length (rest c) <= n)%nat -> (n <= m)%nat -> parseString m c = parseString n c.
Proof.
  intros Hl Hm. unfold parseString. apply agree_bind; [reflexivity|].
  intros [] c1 H1. apply agree_bind; [|reflexivity].
  apply parseString_loop_settled; [|lia].
  pose proof (consumes_length _ _ _ _ (consumes_consume c_quote) H1). lia.
Qed.

Lemma parseDigits_loop_settled n :
  forall m str c, (length (rest c) < n)%nat -> (n <= m)%nat ->
                  parseDigits_loop m str c = parseDigits_loop n str c.
Proof.
  induction n as [|n IH]; intros m str c Hl Hm; [lia|].
  destruct m as [|m]; [lia|]. cbn [parseDigits_loop].
  rewrite !bind_currentToken.
  destruct (rest c) as [|t r] eqn:Er; [reflexivity|]. cbn [hd_error].
  destruct (between (ch "0") (ch "9") (Some t)); [|reflexivity].
  apply agree_bind; [reflexivity|]. intros [] c1 H1.
  apply IH; [|lia].
  pose proof (consume_any_length c tt c1 ltac:(rewrite Er; discriminate) H1).
  rewrite Er in *. cbn [length] in *. lia.
Qed.

Lemma parseDigits_settled n m c :
  (length (rest c) <= n)%nat -> (n <= m)%nat -> parseDigits m c = parseDigits n c.
Proof.
  intros Hl Hm. unfold parseDigits.
  rewrite !bind_currentToken.
  destruct (rest c) as [|t r] eqn:Er; [reflexivity|]. cbn [hd_error].
  destruct (tok_is (Some t) (ch "0")); [reflexivity|].
  destruct (between (ch "1") (ch "9") (Some t)); [|reflexivity].
  apply agree_bind; [reflexivity|]. intros [] c1 H1.
  apply parseDigits_loop_settled; [|lia].
  pose proof (consume_any_length c tt c1 ltac:(rewrite Er; discriminate) H1).
  rewrite Er in *. cbn [length] in *. lia.
Qed.

Lemma moves_length {A} (p : Parser A) c a c' :
  moves p -> p c = Return a c' -> (length (rest c') <= length (rest c))%nat.
Proof. intros Hp H. apply advances_length. eapply Hp; eauto. Qed.

Lemma parseNumber_settled n m c :
  (length (rest c) <= n)%nat -> (n <= m)%nat -> parseNumber m c = parseNumber n c.
Proof.
  intros Hl Hm. unfold parseNumber. rewrite !bind_currentToken.
  apply agree_bind; [reflexivity|]. intros str c1 H1.
  assert (L1 : (length (rest c1) <= length (rest c))%nat).
  { eapply moves_length; [|exact H1]. repeat moves_step. }
  apply agree_bind; [apply parseDigits_settled; lia|]. intros ds c2 H2.
  pose proof (moves_length _ _ _ _ (consumes_moves _ (consumes_parseDigits n)) H2) as L2.
  rewrite !bind_currentToken.
  apply agree_bind.
  - destruct (tok_is (hd_error (rest c2)) (ch ".")); [|reflexivity].
    apply agree_bind; [reflexivity|]. intros [] c3 H3.
    pose proof (moves_length _ _ _ _ (moves_consume _) H3) as L3.
    apply agree_bind; [apply parseDigits_settled; lia | reflexivity].
  - intros str' c3 H3.
    assert (L3 : (length (rest c3) <= length (rest c2))%nat).
    { eapply moves_length; [|exact H3]. repeat moves_step.
      apply consumes_moves, consumes_parseDigits. }
    rewrite !bind_currentToken.
    apply agree_bind; [|reflexivity].
    destruct (tok_is (hd_error (rest c3)) (ch "e") || tok_is (hd_error (rest c3)) (ch "E"));
      [|reflexivity].
    cbv zeta. apply agree_bind; [reflexivity|]. intros [] c4 H4.
    pose proof (moves_length _ _ _ _ (moves_consume _) H4) as L4.
    rewrite !bind_currentToken.
    apply agree_bind; [reflexivity|]. intros str'' c5 H5.
    assert (L5 : (length (rest c5) <= length (rest c4))%nat).
    { eapply moves_length; [|exact H5]. repeat moves_step. }
    apply agree_bind; [apply parseDigits_settled; lia | reflexivity].
Qed.

Section DescentSettled.

Variables pv pv' : Parser JsonValue.
Variable B : nat.
Hypothesis Hcons : consumes pv.
Hypothesis Hagree : forall c, (length (rest c) < B)%nat -> pv' c = pv c.

Lemma parsePair_settled n m c :
  (length (rest c) <= n)%nat -> (n <= m)%nat -> (length (rest c) <= B)%nat ->
  parsePair pv' m c = parsePair pv n c.
Proof.
  intros Hl Hm HB. unfold parsePair.
  apply agree_bind; [now apply parseString_settled|]. intros key c1 H1.
  pose proof (consumes_length _ _ _ _ (consumes_parseString n) H1) as L1.
  apply agree_bind; [reflexivity|]. intros [] c2 H2.
  pose proof (moves_length _ _ _ _ (moves_consume _) H2) as L2.
  apply agree_bind; [apply Hagree; lia | reflexivity].
Qed.

Lemma parseObject_loop_settled n :
  forall m obj c,
    (length (rest c) < n)%nat -> (n <= m)%nat -> (length (rest c) <= B)%nat ->
    parseObject_loop pv' m obj c = parseObject_loop pv n obj c.
Proof.
  induction n as [|n IH]; intros m obj c Hl Hm HB; [lia|].
  destruct m as [|m]; [lia|]. cbn [parseObject_loop].
  rewrite !bind_currentToken.
  destruct (negb (tok_is (hd_error (rest c)) (ch "}"))); [|reflexivity].
  apply agree_bind; [apply parsePair_settled; lia|]. intros kv c1 H1.
  pose proof (consumes_length _ _ _ _ (consumes_parsePair pv Hcons n) H1) as L1.
  cbv zeta. rewrite !bind_currentToken.
  destruct (tok_is (hd_error (rest c1)) (ch ",")).
  - apply agree_bind; [reflexivity|]. intros [] c2 H2.
    pose proof (moves_length _ _ _ _ (moves_consume _) H2) as L2.
    apply IH; lia.
  - destruct (negb (tok_is (hd_error (rest c1)) (ch "}"))); [reflexivity|].
    apply IH; lia.
Qed.

Lemma parseObject_settled n m c :
  (length (rest c) <= n)%nat -> (n <= m)%nat -> (length (rest c) <= B)%nat ->
  parseObject pv' m c = parseObject pv n c.
Proof.
  intros Hl Hm HB. unfold parseObject.
  apply agree_bind; [reflexivity|]. intros [] c1 H1.
  pose proof (consumes_length _ _ _ _ (consumes_consume _) H1) as L1.
  apply agree_bind; [|reflexivity].
  apply parseObject_loop_settled; lia.
Qed.

Lemma parseArray_loop_settled n :
  forall m arr c,
    (length (rest c) < n)%nat -> (n <= m)%nat -> (length (rest c) < B)%nat ->
    parseArray_loop pv' m arr c = parseArray_loop pv n arr c.
Proof.
  induction n as [|n IH]; intros m arr c Hl Hm HB; [lia|].
  destruct m as [|m]; [lia|]. cbn [parseArray_loop].
  rewrite !bind_currentToken.
  destruct (negb (tok_is (hd_error (rest c)) (ch "]"))); [|reflexivity].
  apply agree_bind; [now apply Hagree|]. intros v c1 H1.
  pose proof (consumes_length _ _ _ _ Hcons H1) as L1.
  cbv zeta. rewrite !bind_currentToken.
  destruct (tok_is (hd_error (rest c1)) (ch ",")).
  - apply agree_bind; [reflexivity|]. intros [] c2 H2.
    pose proof (moves_length _ _ _ _ (moves_consume _) H2) as L2.
    apply IH; lia.
  - destruct (negb (tok_is (hd_error (rest c1)) (ch "]"))); [reflexivity|].
    apply IH; lia.
Qed.

Lemma parseArray_settled n m c :
  (length (rest c) <= n)%nat -> (n <= m)%nat -> (length (rest c) <= B)%nat ->
  parseArray pv' m c = parseArray pv n c.
Proof.
  intros Hl Hm HB. unfold parseArray.
  apply agree_bind; [reflexivity|]. intros [] c1 H1.
  pose proof (consumes_length _ _ _ _ (consumes_consume _) H1) as L1.
  apply agree_bind; [|reflexivity].
  apply parseArray_loop_settled; lia.
Qed.

End DescentSettled.

Lemma parseValue_settled n :
  forall m c, (length (rest c) < n)%nat -> (n <= m)%nat ->
              parseValue m c = parseValue n c.
Proof.
  induction n as [|n IH]; intros m c Hl Hm; [lia|].
  destruct m as [|m]; [lia|]. cbn [parseValue].
  rewrite !bind_currentToken.
  assert (Hag : forall c0, (length (rest c0) < n)%nat ->
                           parseValue m c0 = parseValue n c0)
    by (intros; apply IH; lia).
  repeat match goal with
         | |- (if ?b then _ else _) _ = _ => destruct b
         end; try reflexivity.
  - apply parseObject_settled with (B := n);
      [apply consumes_parseValue | exact Hag | lia | lia | lia].
  - apply parseArray_settled with (B := n);
      [apply consumes_parseValue | exact Hag | lia | lia | lia].
  - apply agree_bind; [apply parseString_settled; lia | reflexivity].
  - apply agree_bind; [apply parseNumber_settled; lia | reflexivity].
Qed.

Lemma parse_settled n m c :
  (length (rest c) < n)%nat -> (n <= m)%nat -> parse m c = parse n c.
Proof.
  intros Hl Hm. unfold parse.
  apply agree_bind; [now apply consumeWhitespace_settled|]. intros [] c1 H1.
  pose proof (moves_length _ _ _ _ (moves_consumeWhitespace n) H1) as L1.
  apply agree_bind; [apply parseValue_settled; lia|]. intros v c2 H2.
  pose proof (moves_length _ _ _ _ (consumes_moves _ (consumes_parseValue n)) H2) as L2.
  apply agree_bind; [apply consumeWhitespace_settled; lia|]. intros [] c3 H3.
  pose proof (moves_length _ _ _ _ (moves_consumeWhitespace n) H3) as L3.
  apply agree_bind; [apply hasNext_settled; lia | reflexivity].
Qed.

Lemma decode_settled n m json :
  (length json < n)%nat -> (n <= m)%nat -> decode m json = decode n json.
Proof.
  intros Hl Hm. unfold decode. now rewrite (parse_settled n m) by assumption.
Qed.

(** X1: one more unit of fuel than the input has characters settles
    [decode]: when the parser ends with it, [decode] ends with that result
    whatever more fuel it is given, and when the parser does not end with
    it, [decode] never ends. *)
Theorem decode_decided json :
  match decode (S (length json)) json with
  | Some r => decodes json r
  | None => diverges json
  end.
Proof.
  destruct (decode (S (length json)) json) as [r|] eqn:E.
  - now apply decodes_at with (S (length json)).
  - intros fuel. destruct (Nat.le_gt_cases (S (length json)) fuel) as [H|H].
    + rewrite <- E. apply decode_settled; lia.
    + destruct (decode fuel json) as [r|] eqn:E'; [|reflexivity].
      rewrite (decode_mono fuel (S (length json)) json r) in E by (lia || assumption).
      discriminate.
Qed.

(** ** Without a double quote the parser always ends *)

Lemma quote_free_skipn k s : quote_free s = true -> quote_free (skipn k s) = true.
Proof.
  unfold quote_free. revert s. induction k as [|k IH]; intros s H; [exact H|].
  destruct s as [|x s]; [reflexivity|]. cbn [skipn]. apply IH.
  cbn [forallb] in H. now apply andb_true_iff in H as [_ H].
Qed.

Lemma quote_free_advances c c' :
  advances c c' -> quote_free (rest c) = true -> quote_free (rest c') = true.
Proof. intros [_ R] H. rewrite R. now apply quote_free_skipn. Qed.

Lemma bind_ends {A B} (p : Parser A) (k : A -> Parser B) c :
  p c <> OutOfFuel ->
  (forall a c1, p c = Return a c1 -> k a c1 <> OutOfFuel) ->
  bind p k c <> OutOfFuel.
Proof.
  intros Hp Hk. unfold bind. destruct (p c) as [a c1| |]; auto; discriminate.
Qed.

Lemma consume_ends e c : consume e c <> OutOfFuel.
Proof.
  unfold consume. destruct e as [e|];
    [destruct (negb (tok_is (hd_error (rest c)) e))|]; discriminate.
Qed.

Lemma consumeWhitespace_ends n :
  forall c, (length (rest c) < n)%nat -> consumeWhitespace n c <> OutOfFuel.
Proof.
  induction n as [|n IH]; intros c Hl; [lia|]. cbn [consumeWhitespace].
  rewrite bind_currentToken.
  destruct (rest c) as [|t r] eqn:Er; [discriminate|]. cbn [hd_error].
  destruct (test_space (Some t)); [|discriminate].
  apply bind_ends; [apply consume_ends|]. intros [] c1 H1. apply IH.
  pose proof (consume_any_length c tt c1 ltac:(rewrite Er; discriminate) H1).
  rewrite Er in *. cbn [length] in *. lia.
Qed.

Lemma hasNext_ends n c :
  (length (rest c) < n)%nat -> hasNext n c <> OutOfFuel.
Proof.
  intros Hl. unfold hasNext. apply bind_ends; [now apply consumeWhitespace_ends|].
  intros [] c1 H1. discriminate.
Qed.

Lemma parseDigits_loop_ends n :
  forall str c, (length (rest c) < n)%nat -> parseDigits_loop n str c <> OutOfFuel.
Proof.
  induction n as [|n IH]; intros str c Hl; [lia|]. cbn [parseDigits_loop].
  rewrite bind_currentToken.
  destruct (rest c) as [|t r] eqn:Er; [discriminate|]. cbn [hd_error].
  destruct (between (ch "0") (ch "9") (Some t)); [|discriminate].
  apply bind_ends; [apply consume_ends|]. intros [] c1 H1. apply IH.
  pose proof (consume_any_length c tt c1 ltac:(rewrite Er; discriminate) H1).
  rewrite Er in *. cbn [length] in *. lia.
Qed.

Lemma parseDigits_ends n c :
  (length (rest c) <= n)%nat -> parseDigits n c <> OutOfFuel.
Proof.
  intros Hl. unfold parseDigits. rewrite bind_currentToken.
  destruct (rest c) as [|t r] eqn:Er; [discriminate|]. cbn [hd_error].
  destruct (tok_is (Some t) (ch "0")).
  - apply bind_ends; [apply consume_ends | discriminate].
  - destruct (between (ch "1") (ch "9") (Some t)); [|discriminate].
    apply bind_ends; [apply consume_ends|]. intros [] c1 H1.
    apply parseDigits_loop_ends.
    pose proof (consume_any_length c tt c1 ltac:(rewrite Er; discriminate) H1).
    rewrite Er in *. cbn [length] in *. lia.
Qed.

(** A number never exhausts fuel that covers the length of the input. *)
Lemma parseNumber_ends n c :
  (length (rest c) <= n)%nat -> parseNumber n c <> OutOfFuel.
Proof.
  intros Hl. unfold parseNumber. rewrite bind_currentToken.
  apply bind_ends.
  { destruct (tok_is (hd_error (rest c)) (ch "-")); [|discriminate].
    apply bind_ends; [apply consume_ends | discriminate]. }
  intros str c1 H1.
  assert (L1 : (length (rest c1) <= length (rest c))%nat).
  { eapply moves_length; [|exact H1]. repeat moves_step. }
  apply bind_ends; [apply parseDigits_ends; lia|]. intros ds c2 H2.
  pose proof (moves_length _ _ _ _ (consumes_moves _ (consumes_parseDigits n)) H2) as L2.
  rewrite bind_currentToken. apply bind_ends.
  { destruct (tok_is (hd_error (rest c2)) (ch ".")); [|discriminate].
    apply bind_ends; [apply consume_ends|]. intros [] c3 H3.
    pose proof (moves_length _ _ _ _ (moves_consume _) H3) as L3.
    apply bind_ends; [apply parseDigits_ends; lia | discriminate]. }
  intros str' c3 H3.
  assert (L3 : (length (rest c3) <= length (rest c2))%nat).
  { eapply moves_length; [|exact H3]. repeat moves_step.
    apply consumes_moves, consumes_parseDigits. }
  rewrite bind_currentToken. apply bind_ends; [|discriminate].
  destruct (tok_is (hd_error (rest c3)) (ch "e") || tok_is (hd_error (rest c3)) (ch "E"));
    [|discriminate].
  cbv zeta. apply bind_ends; [apply consume_ends|]. intros [] c4 H4.
  pose proof (moves_length _ _ _ _ (moves_consume _) H4) as L4.
  rewrite bind_currentToken. apply bind_ends.
  { destruct (tok_is (hd_error (rest c4)) (ch "+") || tok_is (hd_error (rest c4)) (ch "-"));
      [|discriminate].
    apply bind_ends; [apply consume_ends | discriminate]. }
  intros str'' c5 H5.
  assert (L5 : (length (rest c5) <= length (rest c4))%nat).
  { eapply moves_length; [|exact H5]. repeat moves_step. }
  apply bind_ends; [apply parseDigits_ends; lia | discriminate].
Qed.

Lemma quote_free_head c :
  quote_free (rest c) = true -> tok_is (hd_error (rest c)) c_quote = false.
Proof.
  destruct (rest c) as [|t r]; [reflexivity|]. unfold quote_free.
  cbn [forallb hd_error tok_is]. intros H.
  apply andb_true_iff in H as [H _]. now apply negb_true_iff in H.
Qed.

Lemma parseString_quote_free n c :
  quote_free (rest c) = true -> parseString n c <> OutOfFuel.
Proof.
  intros H. unfold parseString, bind, consume.
  rewrite (quote_free_head c H). discriminate.
Qed.

Lemma literals_end c :
  parseTrue c <> OutOfFuel /\ parseFalse c <> OutOfFuel /\ parseNull c <> OutOfFuel.
Proof.
  unfold parseTrue, parseFalse, parseNull.
  repeat split;
    repeat (apply bind_ends; [apply consume_ends | intros [] ? _]); discriminate.
Qed.

Section DescentEnds.

Variable pv : Parser JsonValue.
Variable B : nat.
Hypothesis Hcons : consumes pv.
Hypothesis Hends :
  forall c, (length (rest c) < B)%nat -> quote_free (rest c) = true ->
            pv c <> OutOfFuel.

Lemma parseObject_loop_quote_free n obj c :
  (0 < n)%nat -> quote_free (rest c) = true ->
  parseObject_loop pv n obj c <> OutOfFuel.
Proof.
  intros Hn Hq. destruct n as [|n]; [lia|]. cbn [parseObject_loop].
  rewrite bind_currentToken.
  destruct (negb (tok_is (hd_error (rest c)) (ch "}"))); [|discriminate].
  unfold bind at 1. unfold parsePair. unfold bind at 1. unfold parseString.
  unfold bind at 1. unfold consume. rewrite (quote_free_head c Hq). discriminate.
Qed.

Lemma parseObject_quote_free n c :
  (length (rest c) <= n)%nat -> quote_free (rest c) = true ->
  parseObject pv n c <> OutOfFuel.
Proof.
  intros Hl Hq. unfold parseObject.
  apply bind_ends; [apply consume_ends|]. intros [] c1 H1.
  pose proof (consumes_length _ _ _ _ (consumes_consume _) H1) as L1.
  pose proof (quote_free_advances _ _ (moves_consume _ _ _ _ H1) Hq) as Q1.
  apply bind_ends; [apply parseObject_loop_quote_free; [lia | exact Q1]|].
  intros obj c2 H2. apply bind_ends; [apply consume_ends | discriminate].
Qed.

Lemma parseArray_loop_quote_free n :
  forall arr c,
    (length (rest c) < n)%nat -> (length (rest c) < B)%nat ->
    quote_free (rest c) = true ->
    parseArray_loop pv n arr c <> OutOfFuel.
Proof.
  induction n as [|n IH]; intros arr c Hl HB Hq; [lia|].
  cbn [parseArray_loop]. rewrite bind_currentToken.
  destruct (negb (tok_is (hd_error (rest c)) (ch "]"))); [|discriminate].
  apply bind_ends; [now apply Hends|]. intros v c1 H1.
  pose proof (consumes_length _ _ _ _ Hcons H1) as L1.
  pose proof (quote_free_advances _ _ (consumes_moves _ Hcons _ _ _ H1) Hq) as Q1.
  cbv zeta. rewrite bind_currentToken.
  destruct (tok_is (hd_error (rest c1)) (ch ",")).
  - apply bind_ends; [apply consume_ends|]. intros [] c2 H2.
    pose proof (moves_length _ _ _ _ (moves_consume _) H2) as L2.
    pose proof (quote_free_advances _ _ (moves_consume _ _ _ _ H2) Q1) as Q2.
    apply IH; [lia | lia | exact Q2].
  - destruct (negb (tok_is (hd_error (rest c1)) (ch "]"))); [discriminate|].
    apply IH; [lia | lia | exact Q1].
Qed.

Lemma parseArray_quote_free n c :
  (length (rest c) <= n)%nat -> (length (rest c) <= B)%nat ->
  quote_free (rest c) = true ->
  parseArray pv n c <> OutOfFuel.
Proof.
  intros Hl HB Hq. unfold parseArray.
  apply bind_ends; [apply consume_ends|]. intros [] c1 H1.
  pose proof (consumes_length _ _ _ _ (consumes_consume _) H1) as L1.
  pose proof (quote_free_advances _ _ (moves_consume _ _ _ _ H1) Hq) as Q1.
  apply bind_ends; [apply parseArray_loop_quote_free; [lia | lia | exact Q1]|].
  intros arr c2 H2. apply bind_ends; [apply consume_ends | discriminate].
Qed.

End DescentEnds.

Lemma parseValue_quote_free n :
  forall c, (length (rest c) < n)%nat -> quote_free (rest c) = true ->
            parseValue n c <> OutOfFuel.
Proof.
  induction n as [|n IH]; intros c Hl Hq; [lia|]. cbn [parseValue].
  rewrite bind_currentToken. destruct (literals_end c) as (Ht & Hf & Hn).
  repeat match goal with
         | |- (if ?b then _ else _) _ <> _ => destruct b
         end; try discriminate.
  - apply parseObject_quote_free; [lia | exact Hq].
  - apply parseArray_quote_free with (B := n);
      [apply consumes_parseValue | exact IH | lia | lia | exact Hq].
  - apply bind_ends; [now apply parseString_quote_free | discriminate].
  - apply bind_ends; [apply parseNumber_ends; lia | discriminate].
  - apply bind_ends; [exact Ht | discriminate].
  - apply bind_ends; [exact Hf | discriminate].
  - apply bind_ends; [exact Hn | discriminate].
Qed.

Lemma parse_quote_free n c :
  (length (rest c) < n)%nat -> quote_free (rest c) = true ->
  parse n c <> OutOfFuel.
Proof.
  intros Hl Hq. unfold parse.
  apply bind_ends; [now apply consumeWhitespace_ends|]. intros [] c1 H1.
  pose proof (moves_length _ _ _ _ (moves_consumeWhitespace n) H1) as L1.
  pose proof (quote_free_advances _ _ (moves_consumeWhitespace n _ _ _ H1) Hq) as Q1.
  apply bind_ends; [apply parseValue_quote_free; [lia | exact Q1]|]. intros v c2 H2.
  pose proof (moves_length _ _ _ _ (consumes_moves _ (consumes_parseValue n)) H2) as L2.
  apply bind_ends; [apply consumeWhitespace_ends; lia|]. intros [] c3 H3.
  pose proof (moves_length _ _ _ _ (moves_consumeWhitespace n) H3) as L3.
  apply bind_ends; [apply hasNext_ends; lia|]. intros more c4 H4.
  destruct more; discriminate.
Qed.

(** X2: on an input without double quote [decode] always ends, with a
    value or with an error: the only loop that can go on for ever is the
    one of [parseString]. *)
Theorem decode_quote_free_terminates json :
  quote_free json = true -> terminates json.
Proof.
  intros Hq.
  pose proof (parse_quote_free (S (length json)) {| rest := json; pos := 0 |}
                ltac:(cbn [rest]; lia) Hq) as H.
  destruct (parse (S (length json)) {| rest := json; pos := 0 |}) as [v c| e |] eqn:E;
    [exists (Ok v) | exists (Err e) | congruence];
    apply decodes_at with (S (length json)); unfold decode; now rewrite E.
Qed.

Lemma decode_quote_free_terminates_witness :
  quote_free (js "[1, tru]") = true /\ terminates (js "[1, tru]").
Proof.
  split; [reflexivity|].
  apply (decode_quote_free_terminates (js "[1, tru]")). reflexivity.
Defined.

(** ** Offsets are relative to where the parser starts *)

Lemma shifts_ret {A} (a : A) : shifts (ret a).
Proof. intros k r p0. reflexivity. Qed.

Lemma shifts_out {A} : shifts (@out_of_fuel A).
Proof. intros k r p0. reflexivity. Qed.

Lemma shifts_throw {A} (e : nat -> ParseError) :
  (forall k p, e (p + k)%nat = shift_error k (e p)) -> shifts (@throw A e).
Proof. intros H k r p0. unfold throw. cbn. now rewrite H. Qed.

Lemma shifts_currentToken : shifts currentToken.
Proof. intros k r p0. reflexivity. Qed.

Lemma shifts_advance j : shifts (advance j).
Proof. intros k r p0. unfold advance. cbn. do 2 f_equal. lia. Qed.

Lemma shifts_bind {A B} (p : Parser A) (f : A -> Parser B) :
  shifts p -> (forall a, shifts (f a)) -> shifts (bind p f).
Proof.
  intros Hp Hf k r p0. unfold bind. rewrite Hp.
  destruct (p {| rest := r; pos := p0 |}) as [a [r1 p1]| e |]; cbn; auto.
  apply Hf.
Qed.

Lemma skip_blanks_shift r p k :
  skip_blanks r (p + k)
  = {| rest := rest (skip_blanks r p); pos := pos (skip_blanks r p) + k |}.
Proof.
  revert p. induction r as [|x r IH]; intros p; cbn [skip_blanks]; [reflexivity|].
  destruct (is_blank x); [|reflexivity]. apply (IH (S p)).
Qed.

Lemma shifts_consume e : shifts (consume e).
Proof.
  intros k r p0. unfold consume. cbn [rest pos].
  destruct e as [e|];
    [destruct (negb (tok_is (hd_error r) e)); [reflexivity|]|];
    cbn [shift_outcome]; f_equal; apply (skip_blanks_shift (tl r) (S p0) k).
Qed.

Ltac shifts_step :=
  match goal with
  | |- shifts (bind _ _) => apply shifts_bind; [| intro]
  | |- shifts (if ?b then _ else _) => destruct b
  | |- shifts (ret _) => apply shifts_ret
  | |- shifts (throw _) => apply shifts_throw; reflexivity
  | |- shifts out_of_fuel => apply shifts_out
  | |- shifts currentToken => apply shifts_currentToken
  | |- shifts (consume _) => apply shifts_consume
  | |- shifts (advance _) => apply shifts_advance
  | |- shifts (let _ := _ in _) => cbv zeta
  end.

Lemma shifts_consumeWhitespace n : shifts (consumeWhitespace n).
Proof.
  induction n as [|n IH]; cbn [consumeWhitespace]; repeat shifts_step. exact IH.
Qed.

Lemma shifts_hasNext n : shifts (hasNext n).
Proof. unfold hasNext. repeat shifts_step. apply shifts_consumeWhitespace. Qed.

Lemma shifts_parseEscape : shifts parseEscape.
Proof.
  unfold parseEscape. repeat shifts_step.
  intros k r p0. cbn [rest pos].
  destruct (parseInt16 (firstn 4 r)); [|reflexivity].
  apply (shifts_bind (advance 4) (fun _ => ret (String_fromCharCode z))
           (shifts_advance 4) (fun _ => shifts_ret _)).
Qed.

Lemma shifts_parseString_loop n : forall str, shifts (parseString_loop n str).
Proof.
  induction n as [|n IH]; intros str; cbn [parseString_loop];
    repeat shifts_step; try apply IH.
  apply shifts_parseEscape.
Qed.

Lemma shifts_parseString n : shifts (parseString n).
Proof. unfold parseString. repeat shifts_step. apply shifts_parseString_loop. Qed.

Lemma shifts_parseDigits_loop n : forall str, shifts (parseDigits_loop n str).
Proof.
  induction n as [|n IH]; intros str; cbn [parseDigits_loop];
    repeat shifts_step. apply IH.
Qed.

Lemma shifts_parseDigits n : shifts (parseDigits n).
Proof. unfold parseDigits. repeat shifts_step. apply shifts_parseDigits_loop. Qed.

Lemma shifts_parseNumber n : shifts (parseNumber n).
Proof. unfold parseNumber. repeat (shifts_step || apply shifts_parseDigits). Qed.

Section DescentShifts.

Variable pv : Parser JsonValue.
Hypothesis Hpv : shifts pv.

Lemma shifts_parsePair n : shifts (parsePair pv n).
Proof. unfold parsePair. repeat (shifts_step || apply shifts_parseString || apply Hpv). Qed.

Lemma shifts_parseObject_loop n : forall obj, shifts (parseObject_loop pv n obj).
Proof.
  induction n as [|n IH]; intros obj; cbn [parseObject_loop];
    repeat (shifts_step || apply shifts_parsePair || apply IH).
Qed.

Lemma shifts_parseObject n : shifts (parseObject pv n).
Proof. unfold parseObject. repeat (shifts_step || apply shifts_parseObject_loop). Qed.

Lemma shifts_parseArray_loop n : forall arr, shifts (parseArray_loop pv n arr).
Proof.
  induction n as [|n IH]; intros arr; cbn [parseArray_loop];
    repeat (shifts_step || apply Hpv || apply IH).
Qed.

Lemma shifts_parseArray n : shifts (parseArray pv n).
Proof. unfold parseArray. repeat (shifts_step || apply shifts_parseArray_loop). Qed.

End DescentShifts.

Lemma shifts_parseValue n : shifts (parseValue n).
Proof.
  induction n as [|n IH]; [apply shifts_out|]. cbn [parseValue].
  unfold parseTrue, parseFalse, parseNull.
  repeat (shifts_step
          || (apply shifts_parseObject; exact IH)
          || (apply shifts_parseArray; exact IH)
          || apply shifts_parseString || apply shifts_parseNumber).
Qed.

Lemma shifts_parse_after_whitespace n : shifts (parse_after_whitespace n).
Proof.
  unfold parse_after_whitespace.
  repeat (shifts_step || apply shifts_parseValue
          || apply shifts_consumeWhitespace || apply shifts_hasNext).
Qed.

(** ** Whitespace in front *)

Lemma drop_while_length (f : code_unit -> bool) s :
  (length (drop_while f s) <= length s)%nat.
Proof.
  induction s as [|x s IH]; cbn [drop_while]; [lia|].
  destruct (f x); cbn [length]; lia.
Qed.

Lemma skip_blanks_spec s p :
  skip_blanks s p
  = {| rest := drop_while is_blank s;
       pos := p + (length s - length (drop_while is_blank s)) |}.
Proof.
  revert p. induction s as [|x s IH]; intros p; cbn [skip_blanks drop_while].
  - f_equal. cbn [length]. lia.
  - destruct (is_blank x).
    + rewrite IH. f_equal. pose proof (drop_while_length is_blank s).
      cbn [length]. lia.
    + f_equal. lia.
Qed.

Lemma blank_is_space x : is_blank x = true -> is_StrWhiteSpaceChar x = true.
Proof.
  unfold is_blank. intros H.
  repeat match goal with
         | E : (_ || _) = true |- _ => apply orb_true_iff in E as [E|E]
         | E : (_ =? _) = true |- _ => apply N.eqb_eq in E; subst
         end; reflexivity.
Qed.

Lemma drop_space_blank s :
  drop_while is_StrWhiteSpaceChar (drop_while is_blank s)
  = drop_while is_StrWhiteSpaceChar s.
Proof.
  induction s as [|x s IH]; [reflexivity|]. cbn [drop_while].
  destruct (is_blank x) eqn:E; [|reflexivity].
  now rewrite (blank_is_space x E).
Qed.

Lemma drop_while_app_all (f : code_unit -> bool) ws s :
  forallb f ws = true -> drop_while f (ws ++ s) = drop_while f s.
Proof.
  induction ws as [|x ws IH]; cbn [forallb app drop_while]; [reflexivity|].
  intros H. apply andb_true_iff in H as [Hx Hws]. rewrite Hx. auto.
Qed.

Lemma consumeWhitespace_spec n :
  forall s p, (length s < n)%nat ->
    consumeWhitespace n {| rest := s; pos := p |}
    = Return tt
        {| rest := drop_while is_StrWhiteSpaceChar s;
           pos := p + (length s - length (drop_while is_StrWhiteSpaceChar s)) |}.
Proof.
  induction n as [|n IH]; intros s p Hl; [lia|]. cbn [consumeWhitespace].
  rewrite bind_currentToken. cbn [rest].
  destruct s as [|x s]; [cbn; unfold ret; do 2 f_equal; lia|].
  cbn [hd_error test_space drop_while].
  destruct (is_StrWhiteSpaceChar x) eqn:E.
  - unfold bind, consume. cbn [rest tl pos]. rewrite skip_blanks_spec.
    pose proof (drop_while_length is_blank s) as L1.
    rewrite IH by (cbn [length] in Hl; lia).
    rewrite drop_space_blank.
    pose proof (drop_while_length is_StrWhiteSpaceChar s) as L2.
    pose proof (drop_while_length is_StrWhiteSpaceChar (drop_while is_blank s)) as L3.
    rewrite drop_space_blank in L3.
    f_equal. f_equal. cbn [length]. lia.
  - unfold ret. do 2 f_equal. lia.
Qed.

(** X3: with fuel beyond the length of the text, [consumeWhitespace] never
    fails: it stops at the first character that the test [\s] rejects, the
    offset advanced by the number of characters passed. *)
Theorem consumeWhitespace_skips_leading_space (n : nat) (s : jsstring) (p : nat) :
  (length s < n)%nat ->
  exists c,
    consumeWhitespace n {| rest := s; pos := p |} = Return tt c
    /\ rest c = drop_while is_StrWhiteSpaceChar s
    /\ (pos c + length (rest c) = p + length s)%nat
    /\ test_space (hd_error (rest c)) = false.
Proof.
  intros Hl. eexists. split; [now apply consumeWhitespace_spec|].
  cbn [rest pos]. split; [reflexivity|]. split.
  - pose proof (drop_while_length is_StrWhiteSpaceChar s). lia.
  - clear. induction s as [|x s IH]; [reflexivity|]. cbn [drop_while].
    destruct (is_StrWhiteSpaceChar x) eqn:E; [exact IH|].
    cbn [hd_error test_space]. exact E.
Qed.

Lemma consumeWhitespace_skips_leading_space_witness :
  exists c,
    consumeWhitespace 5 {| rest := js "  x "; pos := 3 |} = Return tt c
    /\ rest c = js "x "
    /\ (pos c + length (rest c) = 3 + 4)%nat
    /\ test_space (hd_error (rest c)) = false.
Proof.
  apply (consumeWhitespace_skips_leading_space 5 (js "  x ") 3). cbn. lia.
Defined.

Lemma parse_unfold n c :
  parse n c = bind (consumeWhitespace n) (fun _ => parse_after_whitespace n) c.
Proof. reflexivity. Qed.

Lemma parse_leading_space n ws json :
  forallb is_StrWhiteSpaceChar ws = true ->
  (length (ws ++ json) < n)%nat ->
  parse n {| rest := ws ++ json; pos := 0 |}
  = shift_outcome (length ws) (parse n {| rest := json; pos := 0 |}).
Proof.
  intros Hws Hl. rewrite !parse_unfold. unfold bind.
  rewrite length_app in Hl.
  rewrite !consumeWhitespace_spec by (rewrite ?length_app; lia).
  rewrite drop_while_app_all by exact Hws.
  pose proof (drop_while_length is_StrWhiteSpaceChar json) as L.
  rewrite <- (shifts_parse_after_whitespace n (length ws)).
  do 2 f_equal. rewrite length_app. lia.
Qed.

(** X4: whitespace in front of the text changes nothing but the offsets
    that errors report: [decode] ends on the text with the whitespace as
    it ends on the text without it, every offset moved by the length of
    the whitespace. *)
Theorem leading_whitespace_is_ignored (ws json : jsstring)
        (r : result ParseError JsonValue) :
  forallb is_StrWhiteSpaceChar ws = true ->
  decodes json r ->
  decodes (ws ++ json) (shift_result (length ws) r).
Proof.
  intros Hws [n0 Hn0]. exists (max n0 (S (length (ws ++ json)))).
  intros fuel Hf. specialize (Hn0 fuel ltac:(lia)). unfold decode in *.
  rewrite parse_leading_space by (assumption || lia).
  destruct (parse fuel {| rest := json; pos := 0 |}) as [v c| e |];
    cbn [shift_outcome]; try discriminate; injection Hn0 as <-; reflexivity.
Qed.

Lemma leading_whitespace_is_ignored_witness :
  decodes (js "  " ++ js "[1,]x") (Err (UnexpectedToken 6 (Some (ch "x")))).
Proof.
  apply (leading_whitespace_is_ignored (js "  ") (js "[1,]x")
           (Err (UnexpectedToken 4 (Some (ch "x"))))); [reflexivity|].
  apply decodes_at with 10%nat. reflexivity.
Defined.

(** X5: an input that is empty or all whitespace is rejected at its end,
    with the error of [parseValue] for a character that starts no value,
    [Invalid JSON value at position n], where [n] is the length of the
    input. *)
Theorem whitespace_only_input_is_rejected (ws : jsstring) :
  forallb is_StrWhiteSpaceChar ws = true ->
  decodes ws (Err (InvalidJsonValue (length ws))).
Proof.
  intros Hws.
  assert (H0 : decodes [] (Err (InvalidJsonValue 0)))
    by (apply decodes_at with 1%nat; reflexivity).
  destruct H0 as [n0 Hn0]. exists (max n0 (S (length (ws ++ [])))).
  intros fuel Hf. specialize (Hn0 fuel ltac:(lia)). unfold decode in *.
  rewrite <- (app_nil_r ws) at 1.
  rewrite parse_leading_space by (assumption || lia).
  destruct (parse fuel {| rest := []; pos := 0 |}) as [v c| e |];
    try discriminate. injection Hn0 as ->. reflexivity.
Qed.

Lemma whitespace_only_input_is_rejected_witness :
  decodes (js "   ") (Err (InvalidJsonValue 3))
  /\ decodes [] (Err (InvalidJsonValue 0)).
Proof.
  split.
  - apply (whitespace_only_input_is_rejected (js "   ")). reflexivity.
  - apply (whitespace_only_input_is_rejected []). reflexivity.
Defined.

(** ** What follows the value *)

Lemma consumeWhitespace_skip_space n c :
  (length (rest c) < n)%nat -> consumeWhitespace n c = Return tt (skip_space c).
Proof. destruct c as [s p]. intros H. now apply consumeWhitespace_spec. Qed.

Lemma drop_while_idem (f : code_unit -> bool) s :
  drop_while f (drop_while f s) = drop_while f s.
Proof.
  induction s as [|x s IH]; [reflexivity|]. cbn [drop_while].
  destruct (f x) eqn:E; [exact IH|]. cbn [drop_while]. now rewrite E.
Qed.

Lemma skip_space_idem c : skip_space (skip_space c) = skip_space c.
Proof.
  unfold skip_space. cbn [rest pos]. rewrite drop_while_idem.
  f_equal. lia.
Qed.

Lemma skip_space_length c : (length (rest (skip_space c)) <= length (rest c))%nat.
Proof. apply drop_while_length. Qed.

Lemma parse_value_then_end n c v c' :
  (length (rest c) < n)%nat ->
  parseValue n (skip_space c) = Return v c' ->
  parse n c
  = match rest (skip_space c') with
    | [] => Return v (skip_space c')
    | x :: _ => Throw (UnexpectedToken (pos (skip_space c')) (Some x))
    end.
Proof.
  intros Hl Hv. pose proof (skip_space_length c) as L1.
  pose proof (moves_length _ _ _ _ (consumes_moves _ (consumes_parseValue n)) Hv) as L2.
  pose proof (skip_space_length c') as L3.
  unfold parse, hasNext, bind.
  rewrite consumeWhitespace_skip_space by exact Hl. rewrite Hv.
  rewrite consumeWhitespace_skip_space by lia.
  rewrite consumeWhitespace_skip_space by lia.
  rewrite skip_space_idem. unfold currentToken, ret, throw.
  destruct (rest (skip_space c')) as [|x s] eqn:E; cbn [hd_error]; cbn beta;
    rewrite ?E; reflexivity.
Qed.

(** X6: what [decode] does once the value is read: it passes whitespace,
    returns the value at the end of the text, and otherwise throws
    [UnexpectedToken] with the offset of, and the character at, the first
    character that is not whitespace. *)
Theorem decode_after_value (json : jsstring) (fuel : nat) (v : JsonValue)
        (c : Cursor) :
  parseValue fuel (skip_space {| rest := json; pos := 0 |}) = Return v c ->
  decodes json
    (match rest (skip_space c) with
     | [] => Ok v
     | x :: _ => Err (UnexpectedToken (pos (skip_space c)) (Some x))
     end).
Proof.
  intros Hv. apply decodes_at with (max fuel (S (length json))).
  unfold decode.
  rewrite (parse_value_then_end _ _ v c).
  - destruct (rest (skip_space c)); reflexivity.
  - cbn [rest]. lia.
  - rewrite (parseValue_mono fuel _ (Nat.le_max_l _ _)); [exact Hv|].
    rewrite Hv. discriminate.
Qed.

Lemma decode_after_value_witness :
  decodes (js " [1] ") (Ok (JsonArray [jnum 1]))
  /\ decodes (js " [1] , 2") (Err (UnexpectedToken 5 (Some (ch ",")))).
Proof.
  split.
  - apply (decode_after_value (js " [1] ") 5 (JsonArray [jnum 1])
             {| rest := []; pos := 5 |}). reflexivity.
  - apply (decode_after_value (js " [1] , 2") 5 (JsonArray [jnum 1])
             {| rest := js ", 2"; pos := 5 |}). reflexivity.
Defined.

(** ** A comma before the closing bracket *)

Section TrailingComma.

Variable f : nat.

Lemma parseArray_loop_trailing_comma vs :
  vs <> [] ->
  forallb roundtrips vs = true ->
  Forall (fun v => forall tail p,
              delimited tail = true ->
              exists p',
                parseValue f {| rest := json_text v ++ tail; pos := p |}
                = Return (lossy v) {| rest := tail; pos := p' |}) vs ->
  forall n arr tail p,
    (S (length vs) < n)%nat ->
    exists p',
      parseArray_loop (parseValue f) n arr
        {| rest := join_with (js ",") (map json_text vs)
                     ++ ch "," :: ch "]" :: tail;
           pos := p |}
      = Return (arr ++ map lossy vs) {| rest := ch "]" :: tail; pos := p' |}.
Proof.
  induction vs as [|v vs IH]; intros Hne Hrt Hall n arr tail p Hn; [congruence|].
  inversion Hall as [|? ? Hv Hall']; subst.
  cbn [forallb] in Hrt. apply andb_true_iff in Hrt as [Hrtv Hrt].
  destruct n as [|n]; [cbn [length] in Hn; lia|].
  destruct vs as [|v' vs].
  - cbn [map join_with]. rewrite app_nil_r.
    cbn [parseArray_loop]. unfold bind at 1. unfold currentToken. cbn [rest].
    destruct (json_text_not_closing v (ch "," :: ch "]" :: tail) Hrtv) as [-> _].
    cbn [negb].
    destruct (Hv (ch "," :: ch "]" :: tail) p eq_refl) as [p1 H1].
    rewrite (bind_return _ _ _ _ _ H1).
    unfold bind at 1. cbn [rest hd_error tok_is].
    change (ch "," =? ch ",") with true. cbv iota.
    rewrite (bind_return _ _ _ tt {| rest := ch "]" :: tail; pos := S p1 |})
      by (now apply consume_plain).
    destruct n as [|n]; [cbn [length] in Hn; lia|].
    exists (S p1). reflexivity.
  - set (Y := js "," ++ join_with (js ",") (map json_text (v' :: vs))
                ++ ch "," :: ch "]" :: tail).
    replace (join_with (js ",") (map json_text (v :: v' :: vs))
               ++ ch "," :: ch "]" :: tail)
      with (json_text v ++ Y)
      by (unfold Y; cbn [map join_with]; now rewrite <- !app_assoc).
    cbn [parseArray_loop]. unfold bind at 1. unfold currentToken. cbn [rest].
    destruct (json_text_not_closing v Y Hrtv) as [-> _]. cbn [negb].
    destruct (Hv Y p eq_refl) as [p1 H1].
    rewrite (bind_return _ _ _ _ _ H1).
    unfold bind at 1. unfold Y at 1.
    cbn [rest hd_error tok_is app js map list_ascii_of_string].
    change (ch "," =? ch ",") with true. cbv iota.
    rewrite (bind_return _ _ _ tt
               {| rest := join_with (js ",") (map json_text (v' :: vs))
                            ++ ch "," :: ch "]" :: tail; pos := S p1 |}).
    2:{ apply consume_plain. cbn [map join_with]. rewrite <- app_assoc.
        apply json_text_starts_plain. cbn [forallb] in Hrt.
        now apply andb_true_iff in Hrt as [? _]. }
    destruct (IH ltac:(discriminate) Hrt Hall' n (arr ++ [lossy v]) tail (S p1))
      as [p2 H2]; [cbn [length] in *; lia|].
    exists p2. rewrite H2. cbn [map]. now rewrite <- app_assoc.
Qed.

Lemma parseObject_loop_trailing_comma ps K :
  ps <> [] ->
  Forall (fun kv => clean (fst kv) = true /\ roundtrips (snd kv) = true
                    /\ (length (fst kv) <= K)%nat) ps ->
  Forall (fun kv => forall tail p,
              delimited tail = true ->
              exists p',
                parseValue f {| rest := json_text (snd kv) ++ tail; pos := p |}
                = Return (lossy (snd kv)) {| rest := tail; pos := p' |}) ps ->
  forall n obj tail p,
    (S (length ps) + K < n)%nat ->
    exists p',
      parseObject_loop (parseValue f) n obj
        {| rest := join_with (js ",") (map member_text ps)
                     ++ ch "," :: ch "}" :: tail;
           pos := p |}
      = Return (assign_all (map (fun kv => (fst kv, lossy (snd kv))) ps) obj)
               {| rest := ch "}" :: tail; pos := p' |}.
Proof.
  induction ps as [|[k v] ps IH]; intros Hne Hok Hall n obj tail p Hn; [congruence|].
  inversion Hall as [|? ? Hv Hall']; subst.
  inversion Hok as [|? ? (Hk & Hrt & HK) Hok']; subst.
  cbn [fst snd] in *.
  destruct n as [|n]; [cbn [length] in Hn; lia|].
  assert (Hq : forall Y, negb (tok_is (hd_error (member_text (k, v) ++ Y)) (ch "}")) = true)
    by reflexivity.
  destruct ps as [|kv' ps].
  - cbn [map join_with]. rewrite app_nil_r.
    cbn [parseObject_loop]. unfold bind at 1. unfold currentToken. cbn [rest].
    rewrite Hq.
    destruct (parsePair_member f k v (ch "," :: ch "}" :: tail) n p Hk Hrt
                ltac:(cbn [length] in Hn; lia) Hv eq_refl) as [p1 H1].
    unfold member_text at 1. cbn [fst snd].
    rewrite (bind_return _ _ _ _ _ H1).
    unfold bind at 1. cbn [rest hd_error tok_is fst snd].
    change (ch "," =? ch ",") with true. cbv iota.
    rewrite (bind_return _ _ _ tt {| rest := ch "}" :: tail; pos := S p1 |})
      by (now apply consume_plain).
    destruct n as [|n]; [cbn [length] in Hn; lia|].
    exists (S p1). reflexivity.
  - set (Y := js "," ++ join_with (js ",") (map member_text (kv' :: ps))
                ++ ch "," :: ch "}" :: tail).
    replace (join_with (js ",") (map member_text ((k, v) :: kv' :: ps))
               ++ ch "," :: ch "}" :: tail)
      with (member_text (k, v) ++ Y)
      by (unfold Y; cbn [map join_with]; now rewrite <- !app_assoc).
    cbn [parseObject_loop]. unfold bind at 1. unfold currentToken. cbn [rest].
    rewrite Hq.
    destruct (parsePair_member f k v Y n p Hk Hrt
                ltac:(cbn [length] in Hn; lia) Hv eq_refl) as [p1 H1].
    unfold member_text at 1. cbn [fst snd].
    rewrite (bind_return _ _ _ _ _ H1).
    unfold bind at 1. unfold Y at 1.
    cbn [rest hd_error tok_is app js map list_ascii_of_string fst snd].
    change (ch "," =? ch ",") with true. cbv iota.
    rewrite (bind_return _ _ _ tt
               {| rest := join_with (js ",") (map member_text (kv' :: ps))
                            ++ ch "," :: ch "}" :: tail; pos := S p1 |}).
    2:{ apply consume_plain. destruct kv'. reflexivity. }
    inversion Hok' as [|? ? Hk' Hok'']; subst.
    destruct (IH ltac:(discriminate) Hok' Hall' n (assign k (lossy v) obj) tail (S p1))
      as [p2 H2]; [cbn [length] in *; lia|].
    exists p2. rewrite H2. reflexivity.
Qed.

End TrailingComma.

(** X7: a comma between the last element and the closing bracket is
    accepted: the text of a non-empty array with that comma added decodes
    to the value that the text without it decodes to. *)
Theorem trailing_comma_in_array (vs : list JsonValue) :
  roundtrips (JsonArray vs) = true ->
  decodes (js "[" ++ join_with (js ",") (map json_text vs) ++ js ",]")
          (Ok (lossy (JsonArray vs))).
Proof.
  intros Hrt. cbn [roundtrips] in Hrt.
  apply andb_true_iff in Hrt as [Hne Hrt].
  assert (Hne' : vs <> []) by (now destruct vs).
  assert (Hrb : Forall reads_back vs).
  { apply forallb_Forall_imp with (2 := Hrt).
    apply Forall_forall. intros v _. apply parseValue_roundtrips. }
  destruct (reads_back_bound _ Hrb) as [n0 Hn0].
  set (fuel := max n0 (length vs + 2)).
  assert (Hall : Forall (fun v => forall tail p,
              delimited tail = true ->
              exists p',
                parseValue fuel {| rest := json_text v ++ tail; pos := p |}
                = Return (lossy v) {| rest := tail; pos := p' |}) vs).
  { eapply Forall_impl; [|exact Hn0]. cbn beta.
    intros v H tl q Hq. apply H; [unfold fuel; lia | assumption]. }
  destruct (parseArray_loop_trailing_comma fuel vs Hne' Hrt Hall fuel [] [] 1%nat)
    as [p1 H1]; [unfold fuel; lia|].
  apply decodes_at with (S fuel). apply decode_value with (S p1); [reflexivity|].
  replace (js "[" ++ join_with (js ",") (map json_text vs) ++ js ",]")
    with (ch "[" :: join_with (js ",") (map json_text vs) ++ ch "," :: ch "]" :: [])
    by reflexivity.
  rewrite parseValue_array. unfold parseArray.
  rewrite (bind_return _ _ _ tt
             {| rest := join_with (js ",") (map json_text vs) ++ ch "," :: ch "]" :: [];
                pos := 1 |}).
  2:{ apply consume_plain. destruct vs as [|v vs]; [congruence|].
      cbn [map join_with]. rewrite <- app_assoc.
      apply json_text_starts_plain. cbn [forallb] in Hrt.
      now apply andb_true_iff in Hrt as [? _]. }
  rewrite (bind_return _ _ _ _ _ H1). reflexivity.
Qed.

Lemma trailing_comma_in_array_witness :
  decodes (js "[1,null,]") (Ok (JsonArray [jnum 1; JsonNull])).
Proof.
  apply (trailing_comma_in_array [jnum 1; JsonNull]). reflexivity.
Defined.

(** X8: a comma between the last member and the closing brace is
    accepted: the text of a non-empty object with that comma added decodes
    to the value that the text without it decodes to. *)
Theorem trailing_comma_in_object (ps : list (jsstring * JsonValue)) :
  roundtrips (JsonObject ps) = true ->
  decodes (js "{" ++ join_with (js ",") (map member_text ps) ++ js ",}")
          (Ok (lossy (JsonObject ps))).
Proof.
  intros Hrt. cbn [roundtrips] in Hrt.
  apply andb_true_iff in Hrt as [Hrt Hord].
  apply andb_true_iff in Hrt as [Hne Hrt].
  assert (Hne' : ps <> []) by (now destruct ps).
  assert (Hrb : Forall reads_back (map snd ps)).
  { apply Forall_map. apply forallb_Forall_imp with (2 := Hrt).
    apply Forall_forall. intros kv _ H.
    apply andb_true_iff in H as [_ H]. now apply parseValue_roundtrips. }
  destruct (reads_back_bound _ Hrb) as [n0 Hn0].
  destruct (Forall_length_bound ps) as [K HK].
  set (fuel := max n0 (length ps + K + 2)).
  assert (Hok : Forall (fun kv => clean (fst kv) = true
                                  /\ roundtrips (snd kv) = true
                                  /\ (length (fst kv) <= K)%nat) ps).
  { rewrite forallb_forall in Hrt. rewrite Forall_forall in *.
    intros kv Hin. specialize (Hrt kv Hin).
    apply andb_true_iff in Hrt as [Hrt H3].
    apply andb_true_iff in Hrt as [H1 H2]. auto. }
  assert (Hall : Forall (fun kv => forall tail p,
              delimited tail = true ->
              exists p',
                parseValue fuel {| rest := json_text (snd kv) ++ tail; pos := p |}
                = Return (lossy (snd kv)) {| rest := tail; pos := p' |}) ps).
  { apply Forall_map in Hn0. eapply Forall_impl; [|exact Hn0]. cbn beta.
    intros kv H tl q Hq. apply H; [unfold fuel; lia | assumption]. }
  destruct (parseObject_loop_trailing_comma fuel ps K Hne' Hok Hall fuel [] [] 1%nat)
    as [p1 H1]; [unfold fuel; lia|].
  apply decodes_at with (S fuel). apply decode_value with (S p1); [reflexivity|].
  replace (js "{" ++ join_with (js ",") (map member_text ps) ++ js ",}")
    with (ch "{" :: join_with (js ",") (map member_text ps) ++ ch "," :: ch "}" :: [])
    by reflexivity.
  rewrite parseValue_object. unfold parseObject.
  rewrite (bind_return _ _ _ tt
             {| rest := join_with (js ",") (map member_text ps) ++ ch "," :: ch "}" :: [];
                pos := 1 |}).
  2:{ apply consume_plain. destruct ps as [|kv ps]; [congruence|]. reflexivity. }
  rewrite (bind_return _ _ _ _ _ H1).
  rewrite (bind_return _ _ _ tt {| rest := []; pos := S p1 |})
    by (now apply consume_plain).
  unfold ret. cbn [lossy]. do 2 f_equal.
  rewrite assign_all_enumeration; [reflexivity | | | constructor].
  + rewrite map_map. cbn [fst]. exact Hord.
  + apply Forall_map. cbn [fst]. rewrite forallb_forall in Hrt.
    apply Forall_forall. intros kv Hin. specialize (Hrt kv Hin).
    apply andb_true_iff in Hrt as [Hrt _].
    apply andb_true_iff in Hrt as [_ H2]. now apply negb_true_iff in H2.
Qed.

Lemma trailing_comma_in_object_witness :
  decodes (jq "{'a':1,'b':null,}")
          (Ok (JsonObject [(js "a", jnum 1); (js "b", JsonNull)])).
Proof.
  apply (trailing_comma_in_object [(js "a", jnum 1); (js "b", JsonNull)]).
  reflexivity.
Defined.

(** ** Blanks outside string literals *)

Lemma squeeze_plain s :
  starts_plain s = true -> hd_error (squeeze s) = hd_error s.
Proof.
  destruct s as [|x s]; [reflexivity|]. cbn [starts_plain squeeze filter].
  intros H. now rewrite H.
Qed.

Lemma squeeze_tl s :
  starts_plain s = true -> tl (squeeze s) = squeeze (tl s).
Proof.
  destruct s as [|x s]; [reflexivity|]. cbn [starts_plain squeeze filter].
  intros H. now rewrite H.
Qed.

Lemma squeeze_starts_plain s : starts_plain (squeeze s) = true.
Proof.
  induction s as [|x s IH]; [reflexivity|]. cbn [squeeze filter].
  destruct (is_blank x) eqn:E; cbn [negb]; [exact IH|].
  cbn [starts_plain]. now rewrite E.
Qed.

Lemma squeeze_skip_blanks s p : squeeze (rest (skip_blanks s p)) = squeeze s.
Proof.
  revert p. induction s as [|x s IH]; intros p; [reflexivity|].
  cbn [skip_blanks]. destruct (is_blank x) eqn:E.
  - rewrite IH. cbn [squeeze filter]. now rewrite E.
  - reflexivity.
Qed.

Lemma skip_blanks_starts_plain s p : starts_plain (rest (skip_blanks s p)) = true.
Proof.
  revert p. induction s as [|x s IH]; intros p; [reflexivity|].
  cbn [skip_blanks]. destruct (is_blank x) eqn:E; [apply IH|].
  cbn [rest starts_plain]. now rewrite E.
Qed.

Lemma quote_free_tl s : quote_free s = true -> quote_free (tl s) = true.
Proof. apply (quote_free_skipn 1). Qed.

Lemma squeezed_next c c' :
  squeezed c c' ->
  squeezed (skip_blanks (tl (rest c)) (S (pos c)))
           (skip_blanks (tl (rest c')) (S (pos c'))).
Proof.
  intros (Hq & Hp & ->). split; [|split].
  - apply skip_blanks_forallb. now apply quote_free_tl.
  - apply skip_blanks_starts_plain.
  - rewrite squeeze_tl by exact Hp.
    rewrite skip_blanks_plain by apply squeeze_starts_plain.
    cbn [rest]. now rewrite squeeze_skip_blanks.
Qed.

Lemma squeezed_head c c' : squeezed c c' -> hd_error (rest c') = hd_error (rest c).
Proof. intros (_ & Hp & ->). now apply squeeze_plain. Qed.

Lemma blind_ret {A} (a : A) : blind (ret a).
Proof. intros c c' H. now split. Qed.

Lemma blind_throw {A} e : blind (@throw A e).
Proof. intros c c' H. exact I. Qed.

Lemma blind_out {A} : blind (@out_of_fuel A).
Proof. intros c c' H. exact I. Qed.

Lemma blind_bind {A B} (p : Parser A) (k : A -> Parser B) :
  blind p -> (forall a, blind (k a)) -> blind (bind p k).
Proof.
  intros Hp Hk c c' H. unfold bind. specialize (Hp c c' H).
  destruct (p c) as [a c1| |], (p c') as [a' c1'| |]; cbn in Hp; try contradiction;
    try exact I.
  destruct Hp as [<- H1]. now apply Hk.
Qed.

Lemma blind_currentToken {B} (k : option code_unit -> Parser B) :
  (forall tok, tok_is tok c_quote = false -> blind (k tok)) ->
  blind (bind currentToken k).
Proof.
  intros Hk c c' H. rewrite !bind_currentToken.
  rewrite (squeezed_head c c' H). apply Hk; [|exact H].
  apply quote_free_head. apply H.
Qed.

Lemma blind_consume e : blind (consume e).
Proof.
  intros c c' H. unfold consume. rewrite (squeezed_head c c' H).
  destruct e as [e|].
  - destruct (negb (tok_is (hd_error (rest c)) e)); [exact I|].
    split; [reflexivity | now apply squeezed_next].
  - split; [reflexivity | now apply squeezed_next].
Qed.

Lemma blind_parseString n : blind (parseString n).
Proof.
  intros c c' H. unfold parseString, bind, consume.
  rewrite (squeezed_head c c' H).
  rewrite (quote_free_head c (proj1 H)). exact I.
Qed.

Ltac blind_step :=
  match goal with
  | |- blind (bind currentToken _) =>
      apply blind_currentToken; let Hq := fresh "Hq" in intros ? Hq
  | |- blind (bind _ _) => apply blind_bind; [| intro]
  | |- blind (if ?b then _ else _) => destruct b
  | |- blind (ret _) => apply blind_ret
  | |- blind (throw _) => apply blind_throw
  | |- blind out_of_fuel => apply blind_out
  | |- blind (consume _) => apply blind_consume
  | |- blind (parseString _) => apply blind_parseString
  end.

Lemma blind_parseDigits_loop n : forall str, blind (parseDigits_loop n str).
Proof.
  induction n as [|n IH]; intros str; [apply blind_out|].
  cbn [parseDigits_loop]. repeat blind_step. apply IH.
Qed.

Lemma blind_parseDigits n : blind (parseDigits n).
Proof.
  unfold parseDigits. repeat (blind_step || apply blind_parseDigits_loop).
Qed.

Lemma blind_parseNumber n : blind (parseNumber n).
Proof.
  unfold parseNumber. repeat (blind_step || apply blind_parseDigits).
Qed.

Lemma blind_literals : blind parseTrue /\ blind parseFalse /\ blind parseNull.
Proof.
  unfold parseTrue, parseFalse, parseNull. split; [|split]; repeat blind_step.
Qed.

Section DescentBlind.

Variable pv : Parser JsonValue.
Hypothesis Hpv : blind pv.

Lemma blind_parsePair n : blind (parsePair pv n).
Proof. unfold parsePair. repeat (blind_step || apply Hpv). Qed.

Lemma blind_parseObject_loop n : forall obj, blind (parseObject_loop pv n obj).
Proof.
  induction n as [|n IH]; intros obj; [apply blind_out|].
  cbn [parseObject_loop].
  repeat (blind_step || apply blind_parsePair || apply IH).
Qed.

Lemma blind_parseObject n : blind (parseObject pv n).
Proof.
  unfold parseObject. repeat (blind_step || apply blind_parseObject_loop).
Qed.

Lemma blind_parseArray_loop n : forall arr, blind (parseArray_loop pv n arr).
Proof.
  induction n as [|n IH]; intros arr; [apply blind_out|].
  cbn [parseArray_loop]. repeat (blind_step || apply Hpv || apply IH).
Qed.

Lemma blind_parseArray n : blind (parseArray pv n).
Proof.
  unfold parseArray. repeat (blind_step || apply blind_parseArray_loop).
Qed.

End DescentBlind.

Lemma blind_parseValue n : blind (parseValue n).
Proof.
  induction n as [|n IH]; [apply blind_out|]. cbn [parseValue].
  destruct blind_literals as (Ht & Hf & Hn).
  apply blind_currentToken. intros tok Hq. rewrite Hq.
  repeat (blind_step || (apply blind_parseObject; exact IH)
          || (apply blind_parseArray; exact IH) || apply blind_parseNumber
          || exact Ht || exact Hf || exact Hn).
Qed.

Lemma squeeze_drop_space s :
  squeeze (drop_while is_StrWhiteSpaceChar s)
  = drop_while is_StrWhiteSpaceChar (squeeze s).
Proof.
  induction s as [|x s IH]; [reflexivity|]. cbn [drop_while squeeze filter].
  destruct (is_blank x) eqn:Eb.
  - rewrite (blank_is_space x Eb). cbn [negb]. exact IH.
  - cbn [negb drop_while]. destruct (is_StrWhiteSpaceChar x) eqn:Es; [exact IH|].
    cbn [squeeze filter]. now rewrite Eb.
Qed.

Lemma squeeze_length s : (length (squeeze s) <= length s)%nat.
Proof. apply filter_length_le. Qed.

Lemma drop_space_starts_plain s :
  starts_plain (drop_while is_StrWhiteSpaceChar s) = true.
Proof.
  induction s as [|x s IH]; [reflexivity|]. cbn [drop_while].
  destruct (is_StrWhiteSpaceChar x) eqn:Es; [exact IH|]. cbn [starts_plain].
  destruct (is_blank x) eqn:Eb; [|reflexivity].
  rewrite (blank_is_space x Eb) in Es. discriminate.
Qed.

Lemma quote_free_drop_while f s :
  quote_free s = true -> quote_free (drop_while f s) = true.
Proof.
  unfold quote_free. induction s as [|x s IH]; [reflexivity|].
  intros H. cbn [drop_while]. destruct (f x); [|exact H].
  cbn [forallb] in H. apply andb_true_iff in H as [_ H]. auto.
Qed.

Lemma squeezed_skip_space c c' :
  quote_free (rest c) = true -> rest c' = squeeze (rest c) ->
  squeezed (skip_space c) (skip_space c').
Proof.
  intros Hq E. unfold skip_space. cbn [rest]. split; [|split].
  - now apply quote_free_drop_while.
  - apply drop_space_starts_plain.
  - rewrite E. symmetry. apply squeeze_drop_space.
Qed.

Lemma squeeze_nil s : starts_plain s = true -> squeeze s = [] -> s = [].
Proof.
  destruct s as [|x s]; [reflexivity|]. cbn [starts_plain squeeze filter].
  intros H. rewrite H. discriminate.
Qed.

Lemma parse_skip_space n c :
  (length (rest c) < n)%nat ->
  parse n c
  = match parseValue n (skip_space c) with
    | Return v c' =>
        match rest (skip_space c') with
        | [] => Return v (skip_space c')
        | x :: _ => Throw (UnexpectedToken (pos (skip_space c')) (Some x))
        end
    | Throw e => Throw e
    | OutOfFuel => OutOfFuel
    end.
Proof.
  intros Hl. destruct (parseValue n (skip_space c)) as [v c'|e|] eqn:Hv.
  - now apply parse_value_then_end.
  - unfold parse, bind. rewrite consumeWhitespace_skip_space by exact Hl.
    now rewrite Hv.
  - unfold parse, bind. rewrite consumeWhitespace_skip_space by exact Hl.
    now rewrite Hv.
Qed.

Lemma decode_squeeze n json v :
  quote_free json = true -> (length json < n)%nat ->
  decode n json = Some (Ok v) <-> decode n (squeeze json) = Some (Ok v).
Proof.
  intros Hq Hl. pose proof (squeeze_length json) as Ls. unfold decode.
  rewrite !parse_skip_space by (cbn [rest]; lia).
  assert (H0 : squeezed (skip_space {| rest := json; pos := 0 |})
                        (skip_space {| rest := squeeze json; pos := 0 |}))
    by (now apply squeezed_skip_space).
  pose proof (blind_parseValue n _ _ H0) as Hs.
  destruct (parseValue n (skip_space {| rest := json; pos := 0 |})) as [a c1| |],
           (parseValue n (skip_space {| rest := squeeze json; pos := 0 |}))
             as [a' c1'| |];
    cbn in Hs; try contradiction; try (split; discriminate).
  destruct Hs as [<- (Hq1 & Hp1 & E1)].
  assert (E : rest (skip_space c1') = squeeze (rest (skip_space c1))).
  { unfold skip_space. cbn [rest]. rewrite E1. symmetry. apply squeeze_drop_space. }
  destruct (rest (skip_space c1)) as [|x r] eqn:R.
  - rewrite E. cbn [squeeze filter]. tauto.
  - destruct (rest (skip_space c1')) as [|x' r'] eqn:R'; [|split; discriminate].
    exfalso. symmetry in E. apply squeeze_nil in E; [discriminate|].
    rewrite <- R. apply drop_space_starts_plain.
Qed.

Lemma decodes_settled json r :
  decodes json r <-> decode (S (length json)) json = Some r.
Proof.
  split; [|apply decodes_at]. intros [n0 H].
  rewrite <- (decode_settled (S (length json)) (max n0 (S (length json))))
    by lia.
  apply H. lia.
Qed.

(** X9: in a text without double quote the blanks count for nothing,
    wherever they stand, inside a number or a literal as well: the text
    decodes to a value exactly when the text without its blanks decodes to
    it. *)
Theorem blanks_outside_strings_are_ignored (json : jsstring) (v : JsonValue) :
  quote_free json = true ->
  decodes json (Ok v) <-> decodes (squeeze json) (Ok v).
Proof.
  intros Hq. rewrite decodes_settled.
  rewrite (decode_squeeze _ json v Hq (Nat.lt_succ_diag_r _)).
  split.
  - apply decodes_at.
  - intros H. apply decodes_settled in H.
    rewrite (decode_settled (S (length (squeeze json))) (S (length json)));
      [exact H | lia |].
    pose proof (squeeze_length json). lia.
Qed.

Lemma blanks_outside_strings_are_ignored_witness :
  decodes (js "[1 2, - 3 . 5, tr ue, n ull]")
          (Ok (JsonArray [jnum 12; JsonNumber (Finite true [3; 5] 1);
                          JsonBoolean true; JsonNull])).
Proof.
  apply (blanks_outside_strings_are_ignored (js "[1 2, - 3 . 5, tr ue, n ull]"));
    [reflexivity|].
  apply decodes_at with 20%nat. reflexivity.
Defined.

(** ** Empty containers, and errors inside a value *)

Lemma decode_throw fuel json e :
  test_space (hd_error json) = false ->
  parseValue (S fuel) {| rest := json; pos := 0 |} = Throw e ->
  decode (S fuel) json = Some (Err e).
Proof.
  intros Hs Hv. unfold decode, parse.
  rewrite (bind_return _ _ _ tt {| rest := json; pos := 0 |})
    by (now apply consumeWhitespace_none).
  unfold bind at 1. now rewrite Hv.
Qed.

(** X10: an array or an object with nothing between its brackets but
    blanks decodes to the empty array or the empty object. *)
Theorem empty_containers_are_accepted (ws : jsstring) :
  forallb is_blank ws = true ->
  decodes (js "[" ++ ws ++ js "]") (Ok (JsonArray []))
  /\ decodes (js "{" ++ ws ++ js "}") (Ok (JsonObject [])).
Proof.
  intros Hws. split; apply decodes_at with 3%nat;
    apply decode_value with (S (1 + length ws)); try reflexivity.
  - change (js "[" ++ ws ++ js "]") with (ch "[" :: ws ++ [ch "]"]).
    rewrite parseValue_array. unfold parseArray.
    unfold bind at 1. rewrite consume_expected, skip_blanks_app by exact Hws.
    reflexivity.
  - change (js "{" ++ ws ++ js "}") with (ch "{" :: ws ++ [ch "}"]).
    rewrite parseValue_object. unfold parseObject.
    unfold bind at 1. rewrite consume_expected, skip_blanks_app by exact Hws.
    reflexivity.
Qed.

Lemma empty_containers_are_accepted_witness :
  decodes (js "[  ]") (Ok (JsonArray []))
  /\ decodes (js "{  }") (Ok (JsonObject [])).
Proof. apply (empty_containers_are_accepted (js "  ")). reflexivity. Defined.

Lemma simple_escape_None e :
  simple_escape e = None ->
  (tok_is (Some e) c_quote || tok_is (Some e) c_backslash
   || tok_is (Some e) (ch "/")) = false
  /\ tok_is (Some e) (ch "b") = false /\ tok_is (Some e) (ch "f") = false
  /\ tok_is (Some e) (ch "n") = false /\ tok_is (Some e) (ch "r") = false
  /\ tok_is (Some e) (ch "t") = false.
Proof.
  unfold simple_escape, tok_is.
  destruct ((e =? c_quote) || (e =? c_backslash) || (e =? ch "/")); [discriminate|].
  destruct (e =? ch "b"); [discriminate|].
  destruct (e =? ch "f"); [discriminate|].
  destruct (e =? ch "n"); [discriminate|].
  destruct (e =? ch "r"); [discriminate|].
  destruct (e =? ch "t"); [discriminate|]. repeat split.
Qed.

Lemma parseEscape_unknown e tail p :
  simple_escape e = None -> (e =? ch "u") = false -> is_blank e = false ->
  parseEscape {| rest := c_backslash :: e :: tail; pos := p |}
  = Throw (InvalidEscape (S p)).
Proof.
  intros He Hu Hb. destruct (simple_escape_None e He) as (H1 & H2 & H3 & H4 & H5 & H6).
  unfold parseEscape.
  rewrite (bind_return _ _ _ tt {| rest := e :: tail; pos := S p |})
    by (apply consume_plain; cbn [starts_plain]; now rewrite Hb).
  rewrite bind_currentToken. cbn [rest hd_error].
  rewrite H1, H2, H3, H4, H5, H6.
  replace (tok_is (Some e) (ch "u")) with false by (symmetry; exact Hu).
  reflexivity.
Qed.

(** X11: inside a string literal a backslash followed by a character that
    is neither the double quote, the backslash, the slash nor one of the
    letters b, f, n, r, t, u is rejected with [InvalidEscape] and the offset
    of that character. *)
Theorem unknown_escape_is_rejected (body : jsstring) (e : code_unit)
        (tail : jsstring) :
  forallb ordinary body = true -> starts_plain body = true ->
  simple_escape e = None -> e <> ch "u" -> is_blank e = false ->
  decodes (c_quote :: body ++ c_backslash :: e :: tail)
          (Err (InvalidEscape (length body + 2))).
Proof.
  intros Hb Hp He Hu Hbl. apply N.eqb_neq in Hu.
  apply decodes_at with (S (length body + 1)).
  apply decode_throw; [reflexivity|].
  rewrite parseValue_string by reflexivity.
  unfold bind at 1. unfold parseString.
  unfold bind at 1. rewrite consume_expected.
  rewrite skip_blanks_plain
    by (destruct body; [reflexivity | exact Hp]).
  unfold bind at 1. rewrite parseString_loop_copy by exact Hb.
  cbn [parseString_loop]. rewrite bind_currentToken. cbn [rest hd_error].
  change (tok_is (Some c_backslash) c_quote) with false.
  change (tok_is (Some c_backslash) c_backslash) with true. cbn [negb].
  unfold bind at 1. rewrite parseEscape_unknown by assumption.
  do 3 f_equal. lia.
Qed.

Lemma unknown_escape_is_rejected_witness :
  decodes (jq "'ab\q'") (Err (InvalidEscape 4)).
Proof.
  apply (unknown_escape_is_rejected (js "ab") (ch "q") [c_quote]);
    try reflexivity. discriminate.
Defined.

(** X12: in an object whose first key is a string without double quote,
    backslash or blank in front, a key that is not followed, after any
    blanks, by a colon is rejected, with the error of [consume] for the
    character it expects and the offset of the first character after the
    key that is not a blank (the end of the input when there is none). *)
Theorem missing_colon_is_rejected (ws0 key ws tail : jsstring) :
  forallb is_blank ws0 = true -> clean key = true ->
  forallb is_blank ws = true -> starts_plain tail = true ->
  tok_is (hd_error tail) (ch ":") = false ->
  decodes (js "{" ++ ws0 ++ [c_quote] ++ key ++ [c_quote] ++ ws ++ tail)
          (Err (ExpectedCharacter (ch ":")
                  (1 + length ws0 + 1 + length key + 1 + length ws))).
Proof.
  intros H0 Hk Hw Ht Hc. unfold clean in Hk. apply andb_true_iff in Hk as [Hk1 Hk2].
  apply decodes_at with (S (S (S (length key)))).
  apply decode_throw; [reflexivity|].
  change (js "{" ++ ws0 ++ [c_quote] ++ key ++ [c_quote] ++ ws ++ tail)
    with (ch "{" :: ws0 ++ c_quote :: [] ++ key ++ c_quote :: (ws ++ tail)).
  rewrite parseValue_object. unfold parseObject.
  unfold bind at 1. rewrite consume_expected, skip_blanks_app by exact H0.
  rewrite skip_blanks_plain by reflexivity.
  unfold bind at 1. cbn [parseObject_loop]. rewrite bind_currentToken.
  cbn [rest hd_error].
  change (tok_is (Some c_quote) (ch "}")) with false. cbn [negb].
  unfold bind at 1. unfold parsePair.
  rewrite (bind_return _ _ _ _ _
             (parseString_literal [] key (ws ++ tail) _ _ eq_refl Hk1 Hk2
                (Nat.lt_succ_diag_r _))).
  rewrite skip_blanks_app by exact Hw.
  rewrite skip_blanks_plain by exact Ht.
  unfold bind at 1. unfold consume. cbn [rest pos]. rewrite Hc. cbn [negb length].
  replace (1 + length ws0 + 0 + length key + 2 + length ws)%nat
    with (1 + length ws0 + 1 + length key + 1 + length ws)%nat by lia.
  reflexivity.
Qed.

Lemma missing_colon_is_rejected_witness :
  decodes (jq "{ 'ab' 1}") (Err (ExpectedCharacter (ch ":") 7))
  /\ decodes (jq "{'ab'1}") (Err (ExpectedCharacter (ch ":") 5))
  /\ decodes (jq "{'ab' ") (Err (ExpectedCharacter (ch ":") 6)).
Proof.
  split; [|split].
  - apply (missing_colon_is_rejected (js " ") (js "ab") (js " ") (js "1}"));
      reflexivity.
  - apply (missing_colon_is_rejected [] (js "ab") [] (js "1}")); reflexivity.
  - apply (missing_colon_is_rejected [] (js "ab") (js " ") []); reflexivity.
Defined.

Lemma digit_head_not_space c :
  (tok_is (Some c) (ch "-") || between (ch "0") (ch "9") (Some c)) = true ->
  is_StrWhiteSpaceChar c = false.
Proof.
  intros H.
  assert (Hc : c = 45 \/ 48 <= c <= 57).
  { cbn [tok_is between] in H. apply orb_true_iff in H as [H|H].
    - apply N.eqb_eq in H. now left.
    - apply andb_true_iff in H as [H1 H2]. apply N.leb_le in H1, H2.
      right. split; assumption. }
  assert (Hin : In c [45; 48; 49; 50; 51; 52; 53; 54; 55; 56; 57])
    by (cbn [In]; lia).
  cbn [In] in Hin.
  repeat destruct Hin as [<-|Hin]; try reflexivity. contradiction.
Qed.

(** X13: a text that is one number of the grammar of [parseNumber] is
    accepted on its own, outside any array or object, and decodes to the
    number that [parseFloat] reads from it. *)
Theorem top_level_number_is_accepted (s : jsstring) :
  is_json_number s = true ->
  decodes s (Ok (JsonNumber (parseFloat s))).
Proof.
  intros Hs. destruct (reads_back_number s Hs) as [n Hn].
  destruct (Hn (S n) [] O (Nat.le_succ_diag_r n) eq_refl) as [p' Hp'].
  rewrite app_nil_r in Hp'.
  apply decodes_at with (S n). apply decode_value with p'; [|exact Hp'].
  destruct (is_json_number_head s Hs) as (c & r & -> & Hc).
  cbn [hd_error test_space]. now apply digit_head_not_space.
Qed.

Lemma top_level_number_is_accepted_witness :
  decodes (js "-12.5e1") (Ok (JsonNumber (Finite true [1; 2; 5] 3))).
Proof. apply (top_level_number_is_accepted (js "-12.5e1")). reflexivity. Defined.

(** ** The key [__proto__] *)

(** X14: a member named [__proto__] in front of an object literal, whose
    value is a number or a string, is dropped: the text decodes to the
    object of the other members, as if the member were not there, because
    the assignment [obj[key] = value] of [parseObject] creates no property
    of that name on a new object and leaves its prototype as it is. *)
Theorem proto_member_is_dropped (v : JsonValue)
        (ps : list (jsstring * JsonValue)) :
  roundtrips v = true -> ignored_as_prototype v = true ->
  forallb (fun kv => clean (fst kv)
                     && negb (jsstring_eqb (fst kv) (js "__proto__"))
                     && roundtrips (snd kv)) ps = true ->
  enumeration_order (map fst ps) = true ->
  decodes (js "{"
             ++ join_with (js ",") (map member_text ((js "__proto__", v) :: ps))
             ++ js "}")
          (Ok (JsonObject (map (fun kv => (fst kv, lossy (snd kv))) ps))).
Proof.
  intros Hv _ Hrt Hord. set (qs := (js "__proto__", v) :: ps).
  assert (Hrb : Forall reads_back (map snd qs)).
  { apply Forall_map. constructor; [now apply parseValue_roundtrips|].
    apply forallb_Forall_imp with (2 := Hrt).
    apply Forall_forall. intros kv _ H.
    apply andb_true_iff in H as [_ H]. now apply parseValue_roundtrips. }
  destruct (reads_back_bound _ Hrb) as [n0 Hn0].
  destruct (Forall_length_bound qs) as [K HK].
  set (fuel := max n0 (length qs + K + 1)).
  assert (Hok : Forall (fun kv => clean (fst kv) = true
                                  /\ roundtrips (snd kv) = true
                                  /\ (length (fst kv) <= K)%nat) qs).
  { inversion HK as [|? ? HK0 HK']; subst. constructor; [now repeat split|].
    rewrite forallb_forall in Hrt. rewrite Forall_forall in *.
    intros kv Hin. specialize (Hrt kv Hin).
    apply andb_true_iff in Hrt as [Hrt H3].
    apply andb_true_iff in Hrt as [H1 H2]. auto. }
  assert (Hall : Forall (fun kv => forall tail p,
              delimited tail = true ->
              exists p',
                parseValue fuel {| rest := json_text (snd kv) ++ tail; pos := p |}
                = Return (lossy (snd kv)) {| rest := tail; pos := p' |}) qs).
  { apply Forall_map in Hn0. eapply Forall_impl; [|exact Hn0]. cbn beta.
    intros kv H tl q Hq. apply H; [unfold fuel; lia | assumption]. }
  destruct (parseObject_loop_text fuel qs K ltac:(discriminate) Hok Hall
              fuel [] [] 1%nat) as [p1 H1]; [unfold fuel; lia|].
  apply decodes_at with (S fuel). apply decode_value with (S p1); [reflexivity|].
  replace (js "{" ++ join_with (js ",") (map member_text qs) ++ js "}")
    with (ch "{" :: join_with (js ",") (map member_text qs) ++ ch "}" :: [])
    by reflexivity.
  rewrite parseValue_object. unfold parseObject.
  rewrite (bind_return _ _ _ tt
             {| rest := join_with (js ",") (map member_text qs) ++ ch "}" :: [];
                pos := 1 |})
    by (apply consume_plain; reflexivity).
  rewrite (bind_return _ _ _ _ _ H1).
  rewrite (bind_return _ _ _ tt {| rest := []; pos := S p1 |})
    by (now apply consume_plain).
  unfold ret. do 2 f_equal.
  unfold qs, assign_all. cbn [map fold_left fst snd].
  change (assign (js "__proto__") (lossy v) []) with (@nil (jsstring * JsonValue)).
  fold (assign_all (map (fun kv => (fst kv, lossy (snd kv))) ps) []).
  rewrite assign_all_enumeration; [reflexivity | | | constructor].
  - rewrite map_map. cbn [fst]. exact Hord.
  - apply Forall_map. cbn [fst]. rewrite forallb_forall in Hrt.
    apply Forall_forall. intros kv Hin. specialize (Hrt kv Hin).
    apply andb_true_iff in Hrt as [Hrt _].
    apply andb_true_iff in Hrt as [_ H2]. now apply negb_true_iff in H2.
Qed.

Lemma proto_member_is_dropped_witness :
  decodes (jq "{'__proto__':'x','a':2}") (Ok (JsonObject [(js "a", jnum 2)])).
Proof.
  apply (proto_member_is_dropped (JsonString (js "x")) [(js "a", jnum 2)]);
    reflexivity.
Defined.

(** ** The encoder on any value *)

Lemma JsValue_induction (P : JsValue -> Prop) :
  P JNull -> P JUndefined ->
  (forall x, P (JNumber x)) -> (forall s, P (JString s)) ->
  (forall b, P (JBoolean b)) ->
  (forall values, Forall P values -> P (JArray values)) ->
  (forall text entries, Forall (fun kv => P (snd kv)) entries ->
                        P (JObject text entries)) ->
  (forall time text, P (JDate time text)) ->
  (forall text call, P (call tt) -> P (JFunction text call)) ->
  forall v, P v.
Proof.
  intros Hnull Hundef Hnum Hstr Hbool Harr Hobj Hdate Hfun.
  fix IH 1. intros [| |x|s|b|values|text entries|time text|text call].
  - exact Hnull.
  - exact Hundef.
  - apply Hnum.
  - apply Hstr.
  - apply Hbool.
  - apply Harr. induction values as [|v values IHvs]; constructor;
      [apply IH | exact IHvs].
  - apply Hobj. induction entries as [|[k v] entries IHes]; constructor;
      [apply IH | exact IHes].
  - apply Hdate.
  - apply Hfun. apply IH.
Qed.

Lemma encodeArray_loop_error len rest e :
  Forall (fun v => forall e, encodeValue v = Err e
                             -> e = UnexpectedValue (JNumber NaN)) rest ->
  forall arr i,
    encodeArray_loop encodeValue len rest arr i = Err e ->
    e = UnexpectedValue (JNumber NaN).
Proof.
  induction 1 as [|v rest Hv _ IH]; intros arr i H; [discriminate|].
  cbn [encodeArray_loop] in H.
  destruct (encodeValue v) as [val|e'] eqn:Ev.
  - destruct (is_function val); [now apply IH in H|].
    destruct (i + 1 <=? len - 1)%Z; now apply IH in H.
  - injection H as <-. now apply Hv.
Qed.

Lemma encodeObject_loop_error len rest e :
  Forall (fun kv => forall e, encodeValue (snd kv) = Err e
                              -> e = UnexpectedValue (JNumber NaN)) rest ->
  forall obj i,
    encodeObject_loop encodeValue len rest obj i = Err e ->
    e = UnexpectedValue (JNumber NaN).
Proof.
  induction 1 as [|[k v] rest Hv _ IH]; intros obj i H; [discriminate|].
  cbn [encodeObject_loop snd] in *.
  destruct (encodeValue v) as [val|e'] eqn:Ev.
  - destruct (is_function val); [now apply IH in H|].
    destruct (i + 1 <=? len - 1)%Z; now apply IH in H.
  - injection H as <-. now apply Hv.
Qed.

Lemma encodeValue_error v :
  forall e, encodeValue v = Err e -> e = UnexpectedValue (JNumber NaN).
Proof.
  induction v as [| |x|s|b|values IH|text entries IH|time text|text call IH]
    using JsValue_induction; intros e H; cbn [encodeValue] in H;
    try discriminate.
  - destruct (negb (isNaN (ToNumber (JNumber x)))) eqn:E; [discriminate|].
    injection H as <-. destruct x; try discriminate. reflexivity.
  - destruct (negb (isNaN (ToNumber (JString s)))); discriminate.
  - destruct (negb (isNaN (ToNumber (JBoolean b)))); discriminate.
  - unfold encodeArray in H.
    destruct (encodeArray_loop encodeValue _ values _ _) as [t|e'] eqn:El;
      [discriminate|].
    injection H as <-. exact (encodeArray_loop_error _ _ _ IH _ _ El).
  - destruct (negb (isNaN (ToNumber (JObject text entries)))); [discriminate|].
    unfold encodeObject in H.
    destruct (negb (jsstring_eqb text object_Object)); [discriminate|].
    destruct (encodeObject_loop encodeValue _ entries _ _) as [t|e'] eqn:El;
      [discriminate|].
    injection H as <-. exact (encodeObject_loop_error _ _ _ IH _ _ El).
  - destruct (negb (isNaN (ToNumber (JFunction text call)))); [discriminate|].
    unfold encodeFunction in H. now apply IH.
Qed.

(** X15: on an input built from [null], [undefined], numbers, strings,
    booleans, dates, arrays, objects without an own property [toString] or
    [valueOf] and callables that return such values, the only errors of
    [encode] are the one of its guard, for an input that is neither an
    array nor an object, and [Unexpected value: NaN], for a number that is
    not a number met on the way.  Every other value, at any depth, is
    written in some way. *)
Theorem encode_fails_only_on_scalar_or_NaN (input : JsValue) (e : EncodeError) :
  inherits_conversions input = true ->
  encode input = Err e ->
  (e = InvalidInput /\ Array_isArray input = false /\ typeof input <> TObject)
  \/ e = UnexpectedValue (JNumber NaN).
Proof.
  unfold encode. intros _ H.
  destruct (negb (Array_isArray input)
            && negb (match typeof input with TObject => true | _ => false end))
    eqn:G.
  - injection H as <-. left. apply andb_true_iff in G as [G1 G2].
    apply negb_true_iff in G1, G2. repeat split; [exact G1|].
    intros T. rewrite T in G2. discriminate.
  - right. now apply (encodeValue_error input).
Qed.

Lemma encode_fails_only_on_scalar_or_NaN_witness :
  (UnexpectedValue (JNumber NaN) = InvalidInput
   /\ Array_isArray (JArray [num 1; plain [(js "a", JNumber NaN)]]) = false
   /\ typeof (JArray [num 1; plain [(js "a", JNumber NaN)]]) <> TObject)
  \/ UnexpectedValue (JNumber NaN) = UnexpectedValue (JNumber NaN).
Proof.
  apply (encode_fails_only_on_scalar_or_NaN
           (JArray [num 1; plain [(js "a", JNumber NaN)]])
           (UnexpectedValue (JNumber NaN))); reflexivity.
Defined.



Lemma encodeArray_loop_joined values texts :
  values <> [] ->
  Forall2 encodes_as values texts ->
  forall arr i len,
    len = (i + Z.of_nat (length values))%Z ->
    encodeArray_loop encodeValue len values arr i
    = Ok (arr ++ join_with (js ",") texts ++ js "]").
Proof.
  intros Hne Hall. induction Hall as [|v t vs ts (val & Hval & Hfun & Htext) Hall IH];
    intros arr i len Hlen; [congruence|].
  cbn [encodeArray_loop]. rewrite Hval, Hfun, Htext.
  destruct Hall as [|v' t' vs ts Hv' Hall].
  - cbn [length] in *.
    replace (i + 1 <=? len - 1)%Z with false
      by (symmetry; apply Z.leb_gt; lia).
    cbn [encodeArray_loop join_with]. now rewrite app_nil_r, <- app_assoc.
  - replace (i + 1 <=? len - 1)%Z with true
      by (symmetry; apply Z.leb_le; cbn [length] in Hlen; lia).
    rewrite IH; [| discriminate | cbn [length] in *; lia].
    cbn [join_with]. now rewrite <- !app_assoc.
Qed.

(** X17: an array that is not empty and none of whose elements is skipped
    is written as the texts of its elements, in order, separated by commas,
    between brackets. *)
Theorem array_is_written_as_joined_elements (values : list JsValue)
        (texts : list jsstring) :
  values <> [] ->
  Forall2 encodes_as values texts ->
  encode (JArray values)
  = Ok (JString (js "[" ++ join_with (js ",") texts ++ js "]")).
Proof.
  intros Hne Hall. unfold encode. cbn [Array_isArray negb andb encodeValue].
  unfold encodeArray.
  now rewrite (encodeArray_loop_joined values texts Hne Hall (js "[") 0%Z).
Qed.

Lemma array_is_written_as_joined_elements_witness :
  encode (JArray [JString (js "a"); JString (js "12"); JBoolean true; JNull;
                  JArray [num 1]])
  = Ok (JString (jq "['a',12,true,null,[1]]")).
Proof.
  apply (array_is_written_as_joined_elements
           [JString (js "a"); JString (js "12"); JBoolean true; JNull;
            JArray [num 1]]
           [jq "'a'"; js "12"; js "true"; js "null"; js "[1]"]);
    [discriminate|].
  repeat constructor; eexists; (split; [reflexivity|]); split; reflexivity.
Defined.

Lemma encodeObject_loop_joined entries texts :
  entries <> [] ->
  Forall2 (fun kv text => encodes_as (snd kv) text) entries texts ->
  forall obj i len,
    len = (i + Z.of_nat (length entries))%Z ->
    encodeObject_loop encodeValue len entries obj i
    = Ok (obj
            ++ join_with (js ",")
                 (map (fun kt => [c_quote] ++ fst (fst kt) ++ [c_quote] ++ js ":"
                                   ++ snd kt) (combine entries texts))
            ++ js "}").
Proof.
  intros Hne Hall.
  induction Hall as [|[k v] t es ts (val & Hval & Hfun & Htext) Hall IH];
    intros obj i len Hlen; [congruence|].
  cbn [encodeObject_loop snd] in *. rewrite Hval, Hfun, Htext.
  destruct Hall as [|kv' t' es ts Hv' Hall].
  - cbn [length] in *.
    replace (i + 1 <=? len - 1)%Z with false
      by (symmetry; apply Z.leb_gt; lia).
    cbn [encodeObject_loop combine map join_with fst snd].
    now rewrite app_nil_r, <- !app_assoc.
  - replace (i + 1 <=? len - 1)%Z with true
      by (symmetry; apply Z.leb_le; cbn [length] in Hlen; lia).
    rewrite IH; [| discriminate | cbn [length] in *; lia].
    cbn [combine map join_with fst snd]. now rewrite <- !app_assoc.
Qed.

(** X18: an object literal that is not empty, that has no property named
    [toString] or [valueOf], at any depth, and none of whose members is
    skipped is written as its members, in the order of [Object.entries],
    separated by commas, between braces; a member is its key between double
    quotes, as it is, a colon and the text of its value. *)
Theorem object_is_written_as_joined_members
        (entries : list (jsstring * JsValue)) (texts : list jsstring) :
  entries <> [] ->
  inherits_conversions (plain entries) = true ->
  Forall2 (fun kv text => encodes_as (snd kv) text) entries texts ->
  encode (plain entries)
  = Ok (JString
          (js "{"
             ++ join_with (js ",")
                  (map (fun kt => [c_quote] ++ fst (fst kt) ++ [c_quote] ++ js ":"
                                    ++ snd kt) (combine entries texts))
             ++ js "}")).
Proof.
  intros Hne _ Hall. unfold encode, plain.
  cbn [Array_isArray typeof negb andb encodeValue].
  change (isNaN (ToNumber (JObject object_Object entries))) with true.
  cbn [negb]. unfold encodeObject.
  change (jsstring_eqb object_Object object_Object) with true. cbn [negb].
  now rewrite (encodeObject_loop_joined entries texts Hne Hall (js "{") 0%Z).
Qed.

Lemma object_is_written_as_joined_members_witness :
  encode (plain [(js "a", num 1); (js "b", JString (js "x"))])
  = Ok (JString (jq "{'a':1,'b':'x'}")).
Proof.
  apply (object_is_written_as_joined_members
           [(js "a", num 1); (js "b", JString (js "x"))]
           [js "1"; jq "'x'"]); [discriminate | reflexivity |].
  repeat constructor; eexists; (split; [reflexivity|]); split; reflexivity.
Defined.

(** ** Offsets stay within the input *)

Lemma exact_refl c : exact c c.
Proof. split; reflexivity. Qed.

Lemma exact_trans c1 c2 c3 : exact c1 c2 -> exact c2 c3 -> exact c1 c3.
Proof. unfold exact. lia. Qed.

Lemma in_bounds_after {A} Q c c1 (o : outcome A) :
  exact c c1 -> in_bounds Q c1 o -> in_bounds Q c o.
Proof.
  intros He. destruct o as [a c2|e|]; cbn [in_bounds]; [| |trivial].
  - now apply exact_trans.
  - unfold exact in He. intros [H HQ]. split; [lia | exact HQ].
Qed.

Lemma in_bounds_bind {A B} Q c (m : Parser A) (k : A -> Parser B) :
  in_bounds Q c (m c) ->
  (forall a c1, m c = Return a c1 -> in_bounds Q c1 (k a c1)) ->
  in_bounds Q c (bind m k c).
Proof.
  intros Hm Hk. unfold bind. destruct (m c) as [a c1|e|] eqn:E; [|exact Hm|exact I].
  apply in_bounds_after with c1; [exact Hm | now apply Hk].
Qed.

Lemma in_bounds_weaken {A} (Q Q' : ParseError -> Prop) c (o : outcome A) :
  (forall e, Q e -> Q' e) -> in_bounds Q c o -> in_bounds Q' c o.
Proof.
  intros HQ. destruct o as [a c'|e|]; cbn [in_bounds]; auto.
  intros [H He]. auto.
Qed.

Lemma in_bounds_ret {A} Q c (a : A) : in_bounds Q c (ret a c).
Proof. apply exact_refl. Qed.

Lemma in_bounds_throw {A} (Q : ParseError -> Prop) c (f : nat -> ParseError) :
  (forall p, error_pos (f p) = p /\ Q (f p)) -> in_bounds Q c (@throw A f c).
Proof.
  intros H. unfold throw. cbn [in_bounds]. destruct (H (pos c)) as [-> HQ].
  split; [lia | exact HQ].
Qed.

Lemma skip_blanks_exact r p :
  (p <= pos (skip_blanks r p))%nat
  /\ (pos (skip_blanks r p) + length (rest (skip_blanks r p)) = p + length r)%nat.
Proof.
  rewrite skip_blanks_spec. cbn [pos rest].
  pose proof (drop_while_length is_blank r). lia.
Qed.

Lemma exact_next c :
  rest c <> [] -> exact c (skip_blanks (tl (rest c)) (S (pos c))).
Proof.
  intros Hne. destruct (skip_blanks_exact (tl (rest c)) (S (pos c))) as [H1 H2].
  unfold exact. destruct (rest c) as [|x r]; [congruence|].
  cbn [tl length] in *. lia.
Qed.

Lemma in_bounds_consume_any (Q : ParseError -> Prop) c :
  rest c <> [] -> in_bounds Q c (consume None c).
Proof. intros Hne. unfold consume. cbn [in_bounds]. now apply exact_next. Qed.

Lemma in_bounds_consume (Q : ParseError -> Prop) e c :
  (forall p, Q (ExpectedCharacter e p)) -> in_bounds Q c (consume (Some e) c).
Proof.
  intros HQ. unfold consume.
  destruct (negb (tok_is (hd_error (rest c)) e)) eqn:E; cbn [in_bounds].
  - cbn [error_pos]. split; [lia | apply HQ].
  - apply exact_next. intros Hnil. rewrite Hnil in E. discriminate.
Qed.

Ltac token_present :=
  let Hnil := fresh in
  intros Hnil; rewrite Hnil in *; cbn in *; congruence.

Ltac bounded_step :=
  cbv zeta;
  match goal with
  | |- bounded _ _ => intros ?c
  | |- in_bounds _ ?c (bind currentToken _ ?c) => rewrite bind_currentToken
  | |- in_bounds _ ?c (bind (consume None) _ ?c) =>
      apply in_bounds_bind;
      [apply in_bounds_consume_any; token_present | intros ? ? _]
  | |- in_bounds _ ?c (bind _ _ ?c) => apply in_bounds_bind; [| intros ? ? _]
  | |- in_bounds _ ?c ((if ?b then _ else _) ?c) => destruct b eqn:?
  | |- in_bounds _ ?c (ret _ ?c) => apply in_bounds_ret
  | |- in_bounds _ ?c (throw _ ?c) =>
      apply in_bounds_throw; intros ?; split; [reflexivity | exact I]
  | |- in_bounds _ ?c (out_of_fuel ?c) => exact I
  | |- in_bounds _ ?c (consume (Some _) ?c) =>
      apply in_bounds_consume; intros ?; exact I
  end.

Lemma bounded_consumeWhitespace n : bounded inner_error (consumeWhitespace n).
Proof.
  induction n as [|n IH]; [intros c; exact I|]. cbn [consumeWhitespace].
  repeat bounded_step. apply IH.
Qed.

Lemma bounded_hasNext n : bounded inner_error (hasNext n).
Proof.
  unfold hasNext. repeat (bounded_step || apply bounded_consumeWhitespace).
Qed.

Lemma exact_advance c k :
  (k <= length (rest c))%nat ->
  exact c {| rest := skipn k (rest c); pos := pos c + k |}.
Proof. intros H. unfold exact. cbn [pos rest]. rewrite length_skipn. lia. Qed.

Lemma parseEscape_in_bounds c :
  in_bounds_or_past inner_error c (parseEscape c).
Proof.
  unfold parseEscape. unfold bind at 1.
  pose proof (in_bounds_consume inner_error c_backslash c (fun _ => I)) as H0.
  destruct (consume (Some c_backslash) c) as [[] c1|e|];
    [|exact H0|exact I].
  cbn [in_bounds] in H0. pose proof H0 as [L1 L2].
  assert (Hk : forall (s : jsstring),
             rest c1 <> [] ->
             in_bounds_or_past inner_error c ((consume None ;;; ret s) c1)).
  { intros s Hne. unfold bind, consume, ret.
    cbn [in_bounds_or_past]. left.
    apply exact_trans with c1; [exact H0 | now apply exact_next]. }
  assert (Hthrow : forall f : nat -> ParseError,
             (forall p, error_pos (f p) = p /\ inner_error (f p)) ->
             in_bounds_or_past inner_error c (@throw jsstring f c1)).
  { intros f Hf. unfold throw. cbn [in_bounds_or_past in_bounds].
    destruct (Hf (pos c1)) as [-> HQ]. split; [lia | exact HQ]. }
  rewrite bind_currentToken.
  destruct (rest c1) as [|x r] eqn:E1.
  - cbn [hd_error tok_is orb]. apply Hthrow. intros p. now split.
  - assert (Hne : x :: r <> []) by discriminate.
    repeat match goal with
           | |- in_bounds_or_past _ _ ((if ?b then _ else _) _) => destruct b
           end; try (apply Hk; exact Hne);
      try (apply Hthrow; intros p; now split).
    unfold bind at 1, consume. cbn [rest pos].
    pose proof (exact_next c1 ltac:(rewrite E1; exact Hne)) as H1.
    rewrite E1. rewrite E1 in H1.
    set (c2 := skip_blanks (tl (x :: r)) (S (pos c1))) in *.
    destruct H1 as [L3 L4]. rewrite E1 in L4. cbn [length] in L4.
    destruct (parseInt16 (firstn 4 (rest c2))) as [code|].
    + unfold bind, advance, ret. cbn [in_bounds_or_past].
      destruct (Nat.le_gt_cases 4 (length (rest c2))) as [L|L].
      * left. unfold exact. cbn [pos rest]. rewrite length_skipn.
        cbn [length] in L2. lia.
      * right. cbn [rest]. apply skipn_all2. lia.
    + cbn [in_bounds_or_past in_bounds error_pos].
      cbn [length] in L2. split; [lia | exact I].
Qed.

Lemma bounded_parseString_loop n :
  forall str, bounded inner_error (parseString_loop n str).
Proof.
  induction n as [|n IH]; intros str c; [exact I|].
  cbn [parseString_loop]. rewrite bind_currentToken.
  destruct (rest c) as [|x r] eqn:E.
  - cbn [hd_error tok_is negb]. unfold bind, advance. rewrite E. cbn [skipn].
    now rewrite parseString_loop_no_quote.
  - cbn [hd_error tok_is]. destruct (x =? c_quote); cbn [negb];
      [apply in_bounds_ret|].
    destruct (x =? c_backslash).
    + unfold bind. pose proof (parseEscape_in_bounds c) as He.
      destruct (parseEscape c) as [e c1|e|]; [|exact He|exact I].
      destruct He as [He|He].
      * apply in_bounds_after with c1; [exact He | apply IH].
      * destruct c1 as [r1 p1]. cbn [rest] in He. subst r1.
        now rewrite parseString_loop_no_quote.
    + unfold bind, advance.
      apply in_bounds_after with {| rest := skipn 1 (rest c); pos := pos c + 1 |};
        [|apply IH].
      apply exact_advance. rewrite E. cbn [length]. lia.
Qed.

Lemma bounded_parseString n : bounded inner_error (parseString n).
Proof.
  unfold parseString. repeat (bounded_step || apply bounded_parseString_loop).
Qed.

Lemma bounded_parseDigits_loop n :
  forall str, bounded inner_error (parseDigits_loop n str).
Proof.
  induction n as [|n IH]; intros str c; [exact I|].
  cbn [parseDigits_loop]. repeat bounded_step. apply IH.
Qed.

Lemma bounded_parseDigits n : bounded inner_error (parseDigits n).
Proof.
  unfold parseDigits. repeat (bounded_step || apply bounded_parseDigits_loop).
Qed.

Lemma bounded_parseNumber n : bounded inner_error (parseNumber n).
Proof.
  unfold parseNumber. repeat (bounded_step || apply bounded_parseDigits).
Qed.

Lemma bounded_literals :
  bounded inner_error parseTrue /\ bounded inner_error parseFalse
  /\ bounded inner_error parseNull.
Proof.
  unfold parseTrue, parseFalse, parseNull. split; [|split]; repeat bounded_step.
Qed.

Section DescentBounded.

Variable pv : Parser JsonValue.
Hypothesis Hpv : bounded inner_error pv.

Lemma bounded_parsePair n : bounded inner_error (parsePair pv n).
Proof.
  unfold parsePair. repeat (bounded_step || apply bounded_parseString || apply Hpv).
Qed.

Lemma bounded_parseObject_loop n :
  forall obj, bounded inner_error (parseObject_loop pv n obj).
Proof.
  induction n as [|n IH]; intros obj c; [exact I|].
  cbn [parseObject_loop].
  repeat (bounded_step || apply bounded_parsePair || apply IH).
Qed.

Lemma bounded_parseObject n : bounded inner_error (parseObject pv n).
Proof.
  unfold parseObject. repeat (bounded_step || apply bounded_parseObject_loop).
Qed.

Lemma bounded_parseArray_loop n :
  forall arr, bounded inner_error (parseArray_loop pv n arr).
Proof.
  induction n as [|n IH]; intros arr c; [exact I|].
  cbn [parseArray_loop]. repeat (bounded_step || apply Hpv || apply IH).
Qed.

Lemma bounded_parseArray n : bounded inner_error (parseArray pv n).
Proof.
  unfold parseArray. repeat (bounded_step || apply bounded_parseArray_loop).
Qed.

End DescentBounded.

Lemma bounded_parseValue n : bounded inner_error (parseValue n).
Proof.
  induction n as [|n IH]; [intros c; exact I|]. cbn [parseValue].
  destruct bounded_literals as (Ht & Hf & Hn).
  repeat (bounded_step || (apply bounded_parseObject; exact IH)
          || (apply bounded_parseArray; exact IH) || apply bounded_parseString
          || apply bounded_parseNumber || apply Ht || apply Hf || apply Hn).
Qed.

Lemma bounded_any {A} (p : Parser A) :
  bounded inner_error p -> bounded (fun _ => True) p.
Proof. intros H c. apply in_bounds_weaken with inner_error; [trivial | apply H]. Qed.

Lemma bounded_parse n : bounded (fun _ => True) (parse n).
Proof.
  unfold parse.
  repeat (bounded_step
          || (apply bounded_any; apply bounded_consumeWhitespace)
          || (apply bounded_any; apply bounded_parseValue)
          || (apply bounded_any; apply bounded_hasNext)).
Qed.

(** X19: an error of [decode] reports an offset within the input: at most
    its length. *)
Theorem error_offset_is_within_input (json : jsstring) (e : ParseError) :
  decodes json (Err e) -> (error_pos e <= length json)%nat.
Proof.
  intros [n H]. specialize (H n (le_n n)). unfold decode in H.
  pose proof (bounded_parse n {| rest := json; pos := 0 |}) as Hb.
  destruct (parse n {| rest := json; pos := 0 |}) as [a c|e'|];
    try discriminate.
  injection H as ->. cbn [in_bounds pos rest] in Hb. lia.
Qed.

Lemma error_offset_is_within_input_witness :
  (error_pos (InvalidUnicodeEscape 3) <= length (jq "'\uzz"))%nat.
Proof.
  apply (error_offset_is_within_input (jq "'\uzz") (InvalidUnicodeEscape 3)).
  apply decodes_at with 5%nat. reflexivity.
Defined.

Lemma consumeWhitespace_stops n :
  forall c c', consumeWhitespace n c = Return tt c' ->
               test_space (hd_error (rest c')) = false.
Proof.
  induction n as [|n IH]; intros c c' H; [discriminate|].
  cbn [consumeWhitespace] in H. rewrite bind_currentToken in H.
  destruct (test_space (hd_error (rest c))) eqn:E.
  - unfold bind in H. destruct (consume None c) as [[] c1|e|]; try discriminate.
    now apply IH in H.
  - injection H as <-. exact E.
Qed.

Lemma hd_error_skipn {A} (l : list A) n : hd_error (skipn n l) = nth_error l n.
Proof.
  revert l. induction n as [|n IH]; intros [|x l]; try reflexivity. apply IH.
Qed.

(** X20: the error for input left after the value names the character at
    the offset it reports, a character that is not whitespace: the offset
    is that of the first character that does not belong. *)
Theorem unexpected_token_is_located (json : jsstring) (p : nat)
        (tok : option code_unit) :
  decodes json (Err (UnexpectedToken p tok)) ->
  exists x, tok = Some x /\ nth_error json p = Some x
            /\ is_StrWhiteSpaceChar x = false.
Proof.
  intros [n H]. specialize (H n (le_n n)). unfold decode in H.
  set (c0 := {| rest := json; pos := 0 |}) in H.
  destruct (parse n c0) as [a c|e|] eqn:E; try discriminate.
  injection H as ->. unfold parse in E. unfold bind at 1 in E.
  pose proof (bounded_consumeWhitespace n c0) as B1.
  destruct (consumeWhitespace n c0) as [[] c1|e|] eqn:E1; try discriminate;
    [|injection E as ->; destruct B1 as [_ []]].
  pose proof (moves_consumeWhitespace n _ _ _ E1) as M1.
  unfold bind at 1 in E.
  pose proof (bounded_parseValue n c1) as B2.
  destruct (parseValue n c1) as [v c2|e|] eqn:E2; try discriminate;
    [|injection E as ->; destruct B2 as [_ []]].
  pose proof (consumes_moves _ (consumes_parseValue n) _ _ _ E2) as M2.
  unfold bind at 1 in E.
  pose proof (bounded_consumeWhitespace n c2) as B3.
  destruct (consumeWhitespace n c2) as [[] c3|e|] eqn:E3; try discriminate;
    [|injection E as ->; destruct B3 as [_ []]].
  pose proof (moves_consumeWhitespace n _ _ _ E3) as M3.
  unfold bind at 1 in E. unfold hasNext in E. unfold bind at 1 in E.
  pose proof (bounded_consumeWhitespace n c3) as B4.
  destruct (consumeWhitespace n c3) as [[] c4|e|] eqn:E4; try discriminate;
    [|injection E as ->; destruct B4 as [_ []]].
  pose proof (moves_consumeWhitespace n _ _ _ E4) as M4.
  pose proof (consumeWhitespace_stops n _ _ E4) as S4.
  pose proof (advances_trans _ _ _ (advances_trans _ _ _
                (advances_trans _ _ _ M1 M2) M3) M4) as [_ M].
  unfold c0 in M. cbn [rest pos] in M. rewrite Nat.sub_0_r in M.
  rewrite bind_currentToken in E. unfold ret in E.
  destruct (hd_error (rest c4)) as [x|] eqn:Eh; [|discriminate].
  rewrite bind_currentToken in E. unfold throw in E. rewrite Eh in E.
  injection E as <- <-. exists x. split; [reflexivity|]. split.
  - rewrite <- hd_error_skipn, <- M. exact Eh.
  - exact S4.
Qed.

Lemma unexpected_token_is_located_witness :
  exists x, Some (ch "x") = Some x /\ nth_error (js "[1] x") 4 = Some x
            /\ is_StrWhiteSpaceChar x = false.
Proof.
  apply (unexpected_token_is_located (js "[1] x") 4 (Some (ch "x"))).
  apply decodes_at with 6%nat. reflexivity.
Defined.

(** X21: a value read moves the cursor forward, by the characters it is
    made of and no further: the offset grows by at least one, stays within
    the input, and what is left to read is the input from that offset. *)
Theorem value_advances_cursor (fuel : nat) (c : Cursor) (v : JsonValue)
        (c' : Cursor) :
  parseValue fuel c = Return v c' ->
  (pos c < pos c')%nat
  /\ (pos c' + length (rest c') = pos c + length (rest c))%nat
  /\ rest c' = skipn (pos c' - pos c) (rest c).
Proof.
  intros H. destruct (consumes_parseValue fuel c v c' H) as ([_ R] & L & _).
  pose proof (bounded_parseValue fuel c) as B. rewrite H in B.
  destruct B as [_ B]. now repeat split.
Qed.

Lemma value_advances_cursor_witness :
  (7 < 9)%nat /\ (9 + length (js ",3") = 7 + length (js "12,3"))%nat
  /\ js ",3" = skipn (9 - 7) (js "12,3").
Proof.
  apply (value_advances_cursor 5 {| rest := js "12,3"; pos := 7 |} (jnum 12)
           {| rest := js ",3"; pos := 9 |}).
  reflexivity.
Defined.

(** ** Dates and objects that print themselves *)

Lemma decode_quoted_element text :
  clean text = true ->
  decodes (js "[" ++ withDoubleQuotes text ++ js "]")
          (Ok (JsonArray [JsonString text])).
Proof.
  intros Hc. unfold clean in Hc. apply andb_true_iff in Hc as [H1 H2].
  apply decodes_at with (S (S (S (S (length text))))).
  apply decode_value with (S (1 + 0 + length text + 2)); [reflexivity|].
  replace (js "[" ++ withDoubleQuotes text ++ js "]")
    with (ch "[" :: c_quote :: [] ++ text ++ c_quote :: [ch "]"])
    by (unfold withDoubleQuotes; cbn [app]; now rewrite <- app_assoc).
  rewrite parseValue_array. unfold parseArray.
  rewrite (bind_return _ _ _ tt
             {| rest := c_quote :: [] ++ text ++ c_quote :: [ch "]"]; pos := 1 |})
    by (now apply consume_plain).
  unfold bind at 1. cbn [parseArray_loop]. rewrite bind_currentToken.
  cbn [rest hd_error].
  change (tok_is (Some c_quote) (ch "]")) with false. cbn [negb].
  unfold bind at 1. rewrite parseValue_string by reflexivity.
  unfold bind at 1.
  rewrite (parseString_literal [] text [ch "]"] 1 (S (S (length text)))
             eq_refl H1 H2 ltac:(lia)).
  reflexivity.
Qed.

(** X22: a date, and an object that inherits [valueOf] from
    [Object.prototype] and from its class a [toString] that yields a text
    other than [[object Object]] and no number, with no property
    [toString] or [valueOf] of its own, are written as the text of their
    [toString] between double quotes, and that text, when it has no double
    quote, no backslash and no blank in front, is what [decode] gives back
    for them: a string. *)
Theorem printed_values_come_back_as_strings (text : jsstring) :
  clean text = true ->
  (forall time,
      encode (JArray [JDate time text])
      = Ok (JString (js "[" ++ withDoubleQuotes text ++ js "]")))
  /\ (forall entries,
         inherits_conversions (JObject text entries) = true ->
         jsstring_eqb text object_Object = false ->
         isNaN (StringToNumber text) = true ->
         encode (JArray [JObject text entries])
         = Ok (JString (js "[" ++ withDoubleQuotes text ++ js "]")))
  /\ decodes (js "[" ++ withDoubleQuotes text ++ js "]")
             (Ok (JsonArray [JsonString text])).
Proof.
  intros Hc. split; [|split].
  - intros time. reflexivity.
  - intros entries _ Ho Hn. unfold encode.
    cbn [Array_isArray negb andb encodeValue encodeArray encodeArray_loop length
         ToNumber ToString].
    rewrite Hn. cbn [negb]. unfold encodeObject. rewrite Ho. reflexivity.
  - now apply decode_quoted_element.
Qed.

Lemma printed_values_come_back_as_strings_witness :
  decodes (js "[" ++ withDoubleQuotes (js "Thu Jan 01 1970") ++ js "]")
          (Ok (JsonArray [JsonString (js "Thu Jan 01 1970")])).
Proof.
  apply (printed_values_come_back_as_strings (js "Thu Jan 01 1970")).
  reflexivity.
Defined.
